(** * advanced-vector: [RawMemory<T>] and [Vector<T>] of [vector.h]

    A shallow embedding of the two class templates of
    [advanced-vector/vector.h] and of the standard algorithms they call,
    followed by theorems about growth, relocation, insertion, erasure,
    assignment, moving and resizing, and then about construction,
    destruction, swapping, element access, the cost of appending and
    what exceptions leave behind.

    Memory is explicit.  Raw blocks obtained from [operator new] live in a
    heap indexed by block address; every slot of a block is either raw
    ([None]) or holds a constructed element ([Some x]).  [Vector] objects
    live in an object store indexed by their own address, so that a member
    function run with [this] and [rhs] naming the same object sees its own
    writes.  A pointer is null or a block address with an offset.

    Element operations (constructors and assignments of [T]) are numbered
    as they run; the element type says which of them throw, and what a
    move leaves in its source.  A member function is a state transformer
    that ends in one of four ways: it returns, an exception propagates,
    the program is aborted ([assert], or an exception leaving a [noexcept]
    function), or it runs into undefined behaviour (an access outside a
    block, a read of a raw slot, a double free).

    [size_t] quantities are modelled on [nat].  A count the vector derives
    from its own size ([size_ * 2], [other.size_]) is bounded by what has
    been allocated already: for such counts [Allocate] takes the product
    with [sizeof(T)] not to wrap and [operator new] to succeed.  A count
    that comes from the caller ([Vector(size)], [Reserve], [Resize]) can
    be anything: for these the module [Exact] takes the product in
    [size_t] and lets [operator new] throw [std::bad_alloc]. *)

From stdpp Require Import gmap list.

Set Default Proof Using "Type".

(** ** Element types *)

(** The operations of [T] the container calls, as far as they can throw. *)
Inductive op : Set :=
  | ValueInit    (* T() *)
  | FromArgs     (* T(std::forward<Args>(args)...) for arbitrary Args *)
  | CopyCtor     (* T(const T&) *)
  | MoveCtor     (* T(T&&) *)
  | CopyAssign   (* T& operator=(const T&) *)
  | MoveAssign.  (* T& operator=(T&&) *)

Global Instance op_eq_dec : EqDecision op.
Proof. solve_decision. Defined.

(** What the templates need to know about [T]: the two type traits tested
    by [if constexpr], the value of a value-initialised object, the state
    a move leaves its source in, and which operations throw ([throws k n]:
    the operation of kind [k] throws when it is the [n]-th element
    operation of the run, counting from 0). *)
Record ElemType (T : Type) : Type := {
  nothrow_move_constructible : bool;
  copy_constructible : bool;
  value_init : T;
  moved_from : T -> T;
  throws : op -> nat -> bool;
}.
Global Arguments nothrow_move_constructible {T} _.
Global Arguments copy_constructible {T} _.
Global Arguments value_init {T} _.
Global Arguments moved_from {T} _ _.
Global Arguments throws {T} _ _ _.

(** ** Pointers, objects and the world *)

(** A [T*]: null, or a slot of a block. *)
Inductive ptr : Set :=
  | nullptr
  | Ptr (b : nat) (off : nat).

Global Instance ptr_eq_dec : EqDecision ptr.
Proof. solve_decision. Defined.

(** [p + n].  Adding to the null pointer is only meaningful for [n = 0];
    any access through the result is undefined anyway. *)
Definition ptr_add (p : ptr) (n : nat) : ptr :=
  match p with
  | nullptr => nullptr
  | Ptr b off => Ptr b (off + n)
  end.

Record RawMemory : Set := {
  buffer_ : ptr;
  capacity_ : nat;
}.

Record Vector : Set := {
  data_ : RawMemory;
  size_ : nat;
}.

Record world (T : Type) : Type := World {
  objs : gmap nat Vector;             (* Vector objects, by address *)
  heap : gmap nat (list (option T));  (* raw blocks, by address *)
  nops : nat;                         (* element operations run so far *)
}.
Global Arguments World {T} _ _ _.
Global Arguments objs {T} _.
Global Arguments heap {T} _.
Global Arguments nops {T} _.

(** ** A monad for state, exceptions and the two ways a run can stop *)

Inductive outcome (A : Type) : Type :=
  | Ret (a : A)    (* normal completion *)
  | Throw          (* an exception is propagating *)
  | Abort          (* assert failed, or std::terminate from a noexcept function *)
  | Undefined.     (* behaviour the language leaves undefined *)
Global Arguments Ret {A} _.
Global Arguments Throw {A}.
Global Arguments Abort {A}.
Global Arguments Undefined {A}.

Definition M (T A : Type) : Type := world T -> outcome A * world T.

Definition ret {T A} (a : A) : M T A := fun w => (Ret a, w).

Definition bind {T A B} (m : M T A) (k : A -> M T B) : M T B :=
  fun w =>
    match m w with
    | (Ret a, w') => k a w'
    | (Throw, w') => (Throw, w')
    | (Abort, w') => (Abort, w')
    | (Undefined, w') => (Undefined, w')
    end.

Declare Scope cpp_scope.
Delimit Scope cpp_scope with cpp.
Notation "x <- m ;; k" := (bind m (fun x => k))
  (at level 100, m at next level, right associativity) : cpp_scope.
Notation "m ;; k" := (bind m (fun _ => k))
  (at level 100, right associativity) : cpp_scope.
Open Scope cpp_scope.

Definition throw {T A} : M T A := fun w => (Throw, w).
Definition undefined {T A} : M T A := fun w => (Undefined, w).

(** [assert(c)] *)
Definition assert {T} (c : bool) : M T unit :=
  fun w => if c then (Ret tt, w) else (Abort, w).

(** [try { m } catch (...) { h; throw; }], and stack unwinding through the
    destructor [h] of a local object. *)
Definition on_throw {T A} (m : M T A) (h : M T unit) : M T A :=
  fun w =>
    match m w with
    | (Throw, w') => (h ;; throw) w'
    | r => r
    end.

(** A [noexcept] function: an exception leaving it calls std::terminate. *)
Definition noexcept {T A} (m : M T A) : M T A :=
  fun w =>
    match m w with
    | (Throw, w') => (Abort, w')
    | r => r
    end.

(** The constructor arguments handed to [Emplace]: [Insert(pos, const T&)]
    forwards an lvalue, [Insert(pos, T&&)] an rvalue, [Emplace] anything.
    [value] is the value of the element the constructor call produces; the
    argument objects themselves live outside the vector's storage. *)
Inductive args (T : Type) : Type :=
  | ByCopy (value : T)
  | ByMove (value : T)
  | Args (value : T).
Global Arguments ByCopy {T} _.
Global Arguments ByMove {T} _.
Global Arguments Args {T} _.

Definition args_value {T} (a : args T) : T :=
  match a with ByCopy v | ByMove v | Args v => v end.

Section vector_h.
Context {T : Type} (E : ElemType T).

Local Abbreviation M := (M T).

(** ** Slots of raw memory *)

Definition cell (w : world T) (p : ptr) : option (option T) :=
  match p with
  | nullptr => None
  | Ptr b i => cells ← heap w !! b; cells !! i
  end.

(** Overwrite the slot [p] points to; touching anything that is not a slot
    of a block is undefined. *)
Definition set_cell (p : ptr) (c : option T) : M unit :=
  fun w =>
    match p with
    | nullptr => (Undefined, w)
    | Ptr b i =>
        match heap w !! b with
        | Some cells =>
            if decide (i < length cells)
            then (Ret tt, World (objs w) (<[b := <[i := c]> cells]> (heap w)) (nops w))
            else (Undefined, w)
        | None => (Undefined, w)
        end
    end.

(** Read the element [p] points to; there has to be a constructed one. *)
Definition read (p : ptr) : M T :=
  fun w =>
    match cell w p with
    | Some (Some x) => (Ret x, w)
    | _ => (Undefined, w)
    end.

(** ** Element operations *)

(** One call of an operation of [T]: it is counted, and throws if the
    element type says so.  A move constructor of a type with
    [is_nothrow_move_constructible] is a [noexcept] function. *)
Definition tick (k : op) : M unit :=
  fun w =>
    let w' := World (objs w) (heap w) (S (nops w)) in
    if throws E k (nops w) then (Throw, w') else (Ret tt, w').

Definition call (k : op) : M unit :=
  match k with
  | MoveCtor => if nothrow_move_constructible E then noexcept (tick MoveCtor) else tick MoveCtor
  | _ => tick k
  end.

(** [new (p) T()] *)
Definition construct_value (p : ptr) : M unit :=
  call ValueInit ;; set_cell p (Some (value_init E)).

(** [new (p) T( *src)] *)
Definition construct_copy (p src : ptr) : M unit :=
  x <- read src ;; call CopyCtor ;; set_cell p (Some x).

(** [new (p) T(std::move( *src))] *)
Definition construct_move (p src : ptr) : M unit :=
  x <- read src ;; call MoveCtor ;;
  set_cell p (Some x) ;; set_cell src (Some (moved_from E x)).

(** [ *dst = *src ].  The assignment operator is a member function of the
    object at [dst]: there has to be a constructed element there, as there
    has to be one at [src].  Assigning to a raw slot, or to one whose
    element has been destroyed, is undefined. *)
Definition assign_copy (dst src : ptr) : M unit :=
  x <- read src ;; _ <- read dst ;; call CopyAssign ;; set_cell dst (Some x).

(** [ *dst = std::move( *src)] *)
Definition assign_move (dst src : ptr) : M unit :=
  x <- read src ;; _ <- read dst ;; call MoveAssign ;;
  set_cell dst (Some x) ;; set_cell src (Some (moved_from E x)).

(** [p->~T()]: never throws. *)
Definition destroy_at (p : ptr) : M unit := set_cell p None.

(** [new (p) T(std::forward<Args>(args)...)] *)
Definition construct_args (p : ptr) (a : args T) : M unit :=
  match a with
  | ByCopy v => call CopyCtor ;; set_cell p (Some v)
  | ByMove v => call MoveCtor ;; set_cell p (Some v)
  | Args v => call FromArgs ;; set_cell p (Some v)
  end.

(** [T temp(std::forward<Args>(args)...)]: a local, held by value. *)
Definition construct_temp (a : args T) : M T :=
  match a with
  | ByCopy v => call CopyCtor ;; ret v
  | ByMove v => call MoveCtor ;; ret v
  | Args v => call FromArgs ;; ret v
  end.

(** [ *dst = std::move(temp)] *)
Definition assign_temp (dst : ptr) (temp : T) : M unit :=
  _ <- read dst ;; call MoveAssign ;; set_cell dst (Some temp).

(** ** Pointer helpers *)

(** [p - 1]; stepping before the start of a block is undefined. *)
Definition ptr_pred (p : ptr) : M ptr :=
  match p with
  | Ptr b (S i) => ret (Ptr b i)
  | _ => undefined
  end.

(** [std::distance(first, last)] on pointers, used as a count: both null,
    or both into one block with [first] not after [last]. *)
Definition distance (first last : ptr) : M nat :=
  match first, last with
  | nullptr, nullptr => ret 0
  | Ptr b i, Ptr b' j =>
      if decide (b = b' ∧ i ≤ j) then ret (j - i) else undefined
  | _, _ => undefined
  end.

(** ** <memory> and <algorithm> *)

Fixpoint destroy_n (first : ptr) (n : nat) : M unit :=
  match n with
  | 0 => ret tt
  | S n' => destroy_at first ;; destroy_n (ptr_add first 1) n'
  end.

(** The three [uninitialized_*_n] construct slot [result + k] for
    [k = 0, 1, ...]; when a construction throws, the [k] elements built so
    far are destroyed and the exception goes on. *)
Fixpoint uninitialized_value_construct_loop (first : ptr) (k n : nat) : M unit :=
  match n with
  | 0 => ret tt
  | S n' =>
      on_throw (construct_value (ptr_add first k)) (destroy_n first k) ;;
      uninitialized_value_construct_loop first (S k) n'
  end.

Definition uninitialized_value_construct_n (first : ptr) (n : nat) : M unit :=
  uninitialized_value_construct_loop first 0 n.

Fixpoint uninitialized_copy_loop (first result : ptr) (k n : nat) : M unit :=
  match n with
  | 0 => ret tt
  | S n' =>
      on_throw (construct_copy (ptr_add result k) (ptr_add first k))
               (destroy_n result k) ;;
      uninitialized_copy_loop first result (S k) n'
  end.

Definition uninitialized_copy_n (first : ptr) (n : nat) (result : ptr) : M unit :=
  uninitialized_copy_loop first result 0 n.

Fixpoint uninitialized_move_loop (first result : ptr) (k n : nat) : M unit :=
  match n with
  | 0 => ret tt
  | S n' =>
      on_throw (construct_move (ptr_add result k) (ptr_add first k))
               (destroy_n result k) ;;
      uninitialized_move_loop first result (S k) n'
  end.

Definition uninitialized_move_n (first : ptr) (n : nat) (result : ptr) : M unit :=
  uninitialized_move_loop first result 0 n.

(** [std::move(first, last, d_first)], front to back. *)
Fixpoint move_loop (first : ptr) (n : nat) (d_first : ptr) : M unit :=
  match n with
  | 0 => ret tt
  | S n' =>
      assign_move d_first first ;;
      move_loop (ptr_add first 1) n' (ptr_add d_first 1)
  end.

Definition std_move (first last d_first : ptr) : M unit :=
  n <- distance first last ;; move_loop first n d_first.

(** [std::move_backward(first, last, d_last)], back to front. *)
Fixpoint move_backward_loop (last : ptr) (n : nat) (d_last : ptr) : M unit :=
  match n with
  | 0 => ret tt
  | S n' =>
      last' <- ptr_pred last ;;
      d_last' <- ptr_pred d_last ;;
      assign_move d_last' last' ;;
      move_backward_loop last' n' d_last'
  end.

Definition move_backward (first last d_last : ptr) : M unit :=
  n <- distance first last ;; move_backward_loop last n d_last.

(** ** The object store *)

Definition load (this : nat) : M Vector :=
  fun w =>
    match objs w !! this with
    | Some V => (Ret V, w)
    | None => (Undefined, w)
    end.

Definition store (this : nat) (V : Vector) : M unit :=
  fun w => (Ret tt, World (<[this := V]> (objs w)) (heap w) (nops w)).

(** The end of an object's lifetime. *)
Definition remove (this : nat) : M unit :=
  fun w => (Ret tt, World (delete this (objs w)) (heap w) (nops w)).

(** Storage for a local [Vector]. *)
Definition alloca : M nat :=
  fun w => (Ret (fresh (dom (objs w))), w).

Definition data (this : nat) : M RawMemory := V <- load this ;; ret (data_ V).

Definition set_buffer (this : nat) (p : ptr) : M unit :=
  V <- load this ;;
  store this {| data_ := {| buffer_ := p; capacity_ := capacity_ (data_ V) |};
                size_ := size_ V |}.

Definition set_capacity (this : nat) (n : nat) : M unit :=
  V <- load this ;;
  store this {| data_ := {| buffer_ := buffer_ (data_ V); capacity_ := n |};
                size_ := size_ V |}.

Definition set_size (this : nat) (n : nat) : M unit :=
  V <- load this ;; store this {| data_ := data_ V; size_ := n |}.

(** ** [RawMemory<T>] *)

(** [n != 0 ? operator new(n * sizeof(T)) : nullptr], for an [n] whose
    product with [sizeof(T)] fits [size_t] and a request [operator new]
    satisfies: a fresh block of [n] raw slots.  [Exact.Allocate] below
    has the product in [size_t] and the [std::bad_alloc] of
    [operator new], and agrees with this one in the case named here. *)
Definition Allocate (n : nat) : M ptr :=
  fun w =>
    if decide (n = 0) then (Ret nullptr, w)
    else
      let b := fresh (dom (heap w)) in
      (Ret (Ptr b 0), World (objs w) (<[b := replicate n None]> (heap w)) (nops w)).

(** [operator delete(buf)] *)
Definition Deallocate (buf : ptr) : M unit :=
  fun w =>
    match buf with
    | nullptr => (Ret tt, w)
    | Ptr b 0 =>
        match heap w !! b with
        | Some _ => (Ret tt, World (objs w) (delete b (heap w)) (nops w))
        | None => (Undefined, w)
        end
    | Ptr _ (S _) => (Undefined, w)
    end.

(** [explicit RawMemory(size_t capacity)], for a local object.  (The move
    constructor of [RawMemory] is called nowhere in [Vector].) *)
Definition RawMemory_ctor (capacity : nat) : M RawMemory :=
  buf <- Allocate capacity ;;
  ret {| buffer_ := buf; capacity_ := capacity |}.

(** [~RawMemory()] *)
Definition RawMemory_dtor (r : RawMemory) : M unit := Deallocate (buffer_ r).

Definition GetAddress (r : RawMemory) : ptr := buffer_ r.

(** [T* operator+(size_t offset)] *)
Definition RawMemory_plus (r : RawMemory) (offset : nat) : M ptr :=
  assert (offset <=? capacity_ r) ;; ret (ptr_add (buffer_ r) offset).

(** [T& operator[](size_t index)]: the slot, as an lvalue. *)
Definition RawMemory_at (r : RawMemory) (index : nat) : M ptr :=
  assert (index <=? capacity_ r) ;; ret (ptr_add (buffer_ r) index).

(** [RawMemory& operator=(RawMemory&& rhs)] on the [data_] members of the
    objects [this] and [rhs], statement by statement. *)
Definition RawMemory_move_assign (this rhs : nat) : M unit :=
  noexcept (
    r <- data rhs ;; set_buffer this (buffer_ r) ;;
    r <- data rhs ;; set_capacity this (capacity_ r) ;;
    set_buffer rhs nullptr ;;
    set_capacity rhs 0).

(** [data_.Swap(new_data)] with a local [new_data]: returns the local's
    new state. *)
Definition RawMemory_Swap_local (this : nat) (other : RawMemory) : M RawMemory :=
  V <- load this ;;
  store this {| data_ := other; size_ := size_ V |} ;;
  ret (data_ V).

(** [data_.Swap(other.data_)] through references: two [std::swap]s. *)
Definition RawMemory_Swap (this other : nat) : M unit :=
  noexcept (
    a <- data this ;; b <- data other ;;
    set_buffer this (buffer_ b) ;; set_buffer other (buffer_ a) ;;
    a <- data this ;; b <- data other ;;
    set_capacity this (capacity_ b) ;; set_capacity other (capacity_ a)).

(** ** [Vector<T>] *)

Definition Size (this : nat) : M nat := V <- load this ;; ret (size_ V).

Definition Capacity (this : nat) : M nat :=
  d <- data this ;; ret (capacity_ d).

Definition begin (this : nat) : M ptr :=
  cap <- Capacity this ;;
  if decide (cap = 0) then ret nullptr
  else d <- data this ;; RawMemory_at d 0.

Definition end_ (this : nat) : M ptr :=
  cap <- Capacity this ;;
  if decide (cap = 0) then ret nullptr
  else d <- data this ;; s <- Size this ;; RawMemory_at d s.

Definition cbegin := begin.
Definition cend := end_.

(** [T& operator[](size_t index)] *)
Definition Vector_at (this : nat) (index : nat) : M ptr :=
  s <- Size this ;;
  assert (index <? s) ;;
  d <- data this ;; RawMemory_at d index.

(** [Vector() = default] *)
Definition Vector_default (this : nat) : M unit :=
  store this {| data_ := {| buffer_ := nullptr; capacity_ := 0 |}; size_ := 0 |}.

(** [explicit Vector(size_t size)].  When the body throws, the member
    [data_] is destroyed and there is no object. *)
Definition Vector_sized (this : nat) (size : nat) : M unit :=
  d <- RawMemory_ctor size ;;
  store this {| data_ := d; size_ := size |} ;;
  on_throw (uninitialized_value_construct_n (GetAddress d) size)
           (RawMemory_dtor d ;; remove this).

(** [Vector(const Vector& other)] *)
Definition Vector_copy (this other : nat) : M unit :=
  n <- Size other ;;
  d <- RawMemory_ctor n ;;
  store this {| data_ := d; size_ := n |} ;;
  on_throw (od <- data other ;; n <- Size other ;;
            uninitialized_copy_n (GetAddress od) n (GetAddress d))
           (RawMemory_dtor d ;; remove this).

(** [~Vector()], then the destructor of the member [data_]. *)
Definition Vector_dtor (this : nat) : M unit :=
  d <- data this ;; s <- Size this ;;
  destroy_n (GetAddress d) s ;;
  RawMemory_dtor d ;;
  remove this.

(** [void Swap(Vector& other) noexcept] *)
Definition Swap (this other : nat) : M unit :=
  noexcept (
    RawMemory_Swap this other ;;
    a <- Size this ;; b <- Size other ;;
    set_size this b ;; set_size other a).

(** The loop [for (i = 0; i != n; ++i) data_[i] = rhs[i];] *)
Fixpoint assign_loop (this rhs : nat) (i n : nat) : M unit :=
  match n with
  | 0 => ret tt
  | S n' =>
      d <- data this ;; dst <- RawMemory_at d i ;;
      src <- Vector_at rhs i ;;
      assign_copy dst src ;;
      assign_loop this rhs (S i) n'
  end.

(** [Vector& operator=(const Vector& rhs)] *)
Definition copy_assign (this rhs : nat) : M unit :=
  if decide (this ≠ rhs) then
    rs <- Size rhs ;; cap <- Capacity this ;;
    (if decide (cap < rs) then
       rhs_copy <- alloca ;;
       Vector_copy rhs_copy rhs ;;
       Swap this rhs_copy ;;
       Vector_dtor rhs_copy
     else
       s <- Size this ;; rs <- Size rhs ;;
       if decide (rs < s) then
         assign_loop this rhs 0 rs ;;
         d <- data this ;;
         destroy_n (ptr_add (GetAddress d) rs) (s - rs)
       else
         assign_loop this rhs 0 s ;;
         rd <- data rhs ;; d <- data this ;;
         uninitialized_copy_n (ptr_add (GetAddress rd) s) (rs - s)
                              (ptr_add (GetAddress d) s)) ;;
    rs <- Size rhs ;; set_size this rs
  else ret tt.

(** [Vector& operator=(Vector&& rhs) noexcept] *)
Definition move_assign (this rhs : nat) : M unit :=
  noexcept (
    RawMemory_move_assign this rhs ;;
    s <- Size rhs ;; set_size this s ;;
    set_size rhs 0).

(** [Vector(Vector&& other) noexcept]: the members start from their
    default initialisers, then the body runs. *)
Definition Vector_move (this other : nat) : M unit :=
  noexcept (
    Vector_default this ;;
    RawMemory_move_assign this other ;;
    s <- Size other ;; set_size this s ;;
    set_size other 0).

(** [void Reserve(size_t new_capacity)] *)
Definition Reserve (this : nat) (new_capacity : nat) : M unit :=
  cap <- Capacity this ;;
  if decide (new_capacity ≤ cap) then ret tt
  else
    new_data <- RawMemory_ctor new_capacity ;;
    on_throw
      (d <- data this ;; s <- Size this ;;
       (if nothrow_move_constructible E || negb (copy_constructible E)
        then uninitialized_move_n (GetAddress d) s (GetAddress new_data)
        else uninitialized_copy_n (GetAddress d) s (GetAddress new_data)) ;;
       destroy_n (GetAddress d) s)
      (RawMemory_dtor new_data) ;;
    new_data <- RawMemory_Swap_local this new_data ;;
    RawMemory_dtor new_data.

(** [void Resize(size_t new_size)] *)
Definition Resize (this : nat) (new_size : nat) : M unit :=
  s <- Size this ;;
  if decide (new_size = s) then ret tt
  else
    (if decide (new_size < s) then
       d <- data this ;;
       destroy_n (ptr_add (GetAddress d) new_size) (s - new_size)
     else
       Reserve this new_size ;;
       d <- data this ;; s <- Size this ;;
       uninitialized_value_construct_n (ptr_add (GetAddress d) s) (new_size - s)) ;;
    set_size this new_size.

(** [iterator EmplaceShared(const_iterator pos, Args&&... args)] *)
Definition EmplaceShared (this : nat) (pos : ptr) (a : args T) : M ptr :=
  s <- Size this ;; cap <- Capacity this ;;
  result <-
    (if decide (s = cap) then
       new_data <- RawMemory_ctor (if decide (s = 0) then 1 else s * 2) ;;
       result <-
         on_throw
           (cb <- cbegin this ;; n <- distance cb pos ;;
            let result := ptr_add (GetAddress new_data) n in
            construct_args result a ;;
            on_throw
              (b <- begin this ;; cb <- cbegin this ;; n <- distance cb pos ;;
               if nothrow_move_constructible E || negb (copy_constructible E)
               then uninitialized_move_n b n (GetAddress new_data)
               else uninitialized_copy_n cb n (GetAddress new_data))
              (destroy_at result) ;;
            on_throw
              (ce <- cend this ;; m <- distance pos ce ;;
               cb <- cbegin this ;; n <- distance cb pos ;;
               let dst := ptr_add (ptr_add (GetAddress new_data) n) 1 in
               if nothrow_move_constructible E || negb (copy_constructible E)
               then uninitialized_move_n pos m dst
               else uninitialized_copy_n pos m dst)
              (cb <- cbegin this ;; n <- distance cb pos ;;
               destroy_n (GetAddress new_data) n ;;
               destroy_at result) ;;
            b <- begin this ;; s <- Size this ;;
            destroy_n b s ;;
            ret result)
           (RawMemory_dtor new_data) ;;
       new_data <- RawMemory_Swap_local this new_data ;;
       RawMemory_dtor new_data ;;
       ret result
     else
       ce <- cend this ;;
       if decide (pos = ce) then
         d <- data this ;; s <- Size this ;;
         let result := ptr_add (GetAddress d) s in
         construct_args result a ;;
         ret result
       else
         let result := pos in
         temp <- construct_temp a ;;
         s <- Size this ;;
         (if decide (0 < s) then
            e <- end_ this ;; e1 <- ptr_pred e ;;
            construct_move e e1 ;;
            s <- Size this ;;
            if decide (1 < s) then
              e <- end_ this ;; e1 <- ptr_pred e ;;
              move_backward result e1 e
            else ret tt
          else ret tt) ;;
         assign_temp result temp ;;
         ret result) ;;
  s <- Size this ;; set_size this (S s) ;;
  ret result.

(** [void PushBack(const T& value)] *)
Definition PushBack (this : nat) (value : T) : M unit :=
  e <- end_ this ;; EmplaceShared this e (ByCopy value) ;; ret tt.

(** [void PushBack(T&& value)] *)
Definition PushBack_rvalue (this : nat) (value : T) : M unit :=
  e <- end_ this ;; EmplaceShared this e (ByMove value) ;; ret tt.

(** [void PopBack() noexcept]; [size_ - 1] needs a non-empty vector. *)
Definition PopBack (this : nat) : M unit :=
  noexcept (
    d <- data this ;; s <- Size this ;;
    match s with
    | 0 => undefined
    | S s' => destroy_n (ptr_add (GetAddress d) s') 1 ;; set_size this s'
    end).

(** [T& EmplaceBack(Args&&... args)]: the reference is the slot. *)
Definition EmplaceBack (this : nat) (a : args T) : M ptr :=
  e <- end_ this ;; EmplaceShared this e a.

(** [iterator Erase(const_iterator pos) noexcept].  The element at [pos]
    is destroyed first and the following ones are then move-assigned one
    slot down, the first of them onto the slot whose element has just been
    destroyed.  [--size_] is reached with a non-empty vector only: on an
    empty one [std::move] has no valid range. *)
Definition Erase (this : nat) (pos : ptr) : M ptr :=
  noexcept (
    destroy_at pos ;;
    e <- end_ this ;;
    std_move (ptr_add pos 1) e pos ;;
    s <- Size this ;;
    match s with
    | 0 => undefined
    | S s' =>
        set_size this s' ;;
        b <- begin this ;; cb <- cbegin this ;; n <- distance cb pos ;;
        ret (ptr_add b n)
    end).

(** [iterator Emplace(const_iterator pos, Args&&... args)] *)
Definition Emplace (this : nat) (pos : ptr) (a : args T) : M ptr :=
  EmplaceShared this pos a.

(** [iterator Insert(const_iterator pos, const T& value)] *)
Definition Insert (this : nat) (pos : ptr) (value : T) : M ptr :=
  EmplaceShared this pos (ByCopy value).

(** [iterator Insert(const_iterator pos, T&& value)] *)
Definition Insert_rvalue (this : nat) (pos : ptr) (value : T) : M ptr :=
  EmplaceShared this pos (ByMove value).

End vector_h.

(** ** Allocation as the target performs it *)

(** What [Allocate] depends on besides its argument: the width of
    [size_t], [sizeof(T)], and whether [operator new] satisfies a request
    of so many bytes in the state it is called in. *)
Record Platform (T : Type) : Type := {
  size_bits : N;
  sizeof : positive;
  new_succeeds : world T -> N -> bool;
}.
Global Arguments size_bits {T} _.
Global Arguments sizeof {T} _.
Global Arguments new_succeeds {T} _ _ _.

Module Exact.
Section exact.
Context {T : Type} (E : ElemType T) (P : Platform T).

Local Abbreviation M := (M T).

(** [n * sizeof(T)], an unsigned product in [size_t]. *)
Definition bytes (n : nat) : N :=
  ((N.of_nat n * N.pos (sizeof P)) mod 2 ^ size_bits P)%N.

(** The counts whose product with [sizeof(T)] is at most [SIZE_MAX], which
    is [2 ^ size_bits - 1]. *)
Definition representable (n : nat) : Prop :=
  (N.of_nat n * N.pos (sizeof P) < 2 ^ size_bits P)%N.

(** [operator new(size)]: [std::bad_alloc], or a fresh block of [size]
    bytes, which has room for [size / sizeof(T)] objects.  A request of 0
    bytes that succeeds returns a block, not a null pointer. *)
Definition operator_new (size : N) : M ptr :=
  fun w =>
    if new_succeeds P w size then
      let b := fresh (dom (heap w)) in
      let slots := N.to_nat (size / N.pos (sizeof P)) in
      (Ret (Ptr b 0), World (objs w) (<[b := replicate slots None]> (heap w)) (nops w))
    else (Throw, w).

(** [n != 0 ? operator new(n * sizeof(T)) : nullptr] *)
Definition Allocate (n : nat) : M ptr :=
  if decide (n = 0) then ret nullptr else operator_new (bytes n).

(** [explicit RawMemory(size_t capacity)]: [capacity_] is the argument,
    whatever [Allocate] has obtained. *)
Definition RawMemory_ctor (capacity : nat) : M RawMemory :=
  buf <- Allocate capacity ;;
  ret {| buffer_ := buf; capacity_ := capacity |}.

(** [explicit Vector(size_t size)] *)
Definition Vector_sized (this : nat) (size : nat) : M unit :=
  d <- RawMemory_ctor size ;;
  store this {| data_ := d; size_ := size |} ;;
  on_throw (uninitialized_value_construct_n E (GetAddress d) size)
           (RawMemory_dtor d ;; remove this).

(** [void Reserve(size_t new_capacity)] *)
Definition Reserve (this : nat) (new_capacity : nat) : M unit :=
  cap <- Capacity this ;;
  if decide (new_capacity ≤ cap) then ret tt
  else
    new_data <- RawMemory_ctor new_capacity ;;
    on_throw
      (d <- data this ;; s <- Size this ;;
       (if nothrow_move_constructible E || negb (copy_constructible E)
        then uninitialized_move_n E (GetAddress d) s (GetAddress new_data)
        else uninitialized_copy_n E (GetAddress d) s (GetAddress new_data)) ;;
       destroy_n (GetAddress d) s)
      (RawMemory_dtor new_data) ;;
    new_data <- RawMemory_Swap_local this new_data ;;
    RawMemory_dtor new_data.

(** [void Resize(size_t new_size)] *)
Definition Resize (this : nat) (new_size : nat) : M unit :=
  s <- Size this ;;
  if decide (new_size = s) then ret tt
  else
    (if decide (new_size < s) then
       d <- data this ;;
       destroy_n (ptr_add (GetAddress d) new_size) (s - new_size)
     else
       Reserve this new_size ;;
       d <- data this ;; s <- Size this ;;
       uninitialized_value_construct_n E (ptr_add (GetAddress d) s) (new_size - s)) ;;
    set_size this new_size.

End exact.
End Exact.

(** ** What a vector looks like from outside *)

(** The elements of a run of slots, if every one of them is constructed. *)
Definition live {T} (cells : list (option T)) : option (list T) := mapM id cells.

(** [view w this] is the sequence held by the vector at [this] together
    with its capacity, provided the object is well formed: [size_] is at
    most the capacity, a vector of capacity 0 has a null buffer and the
    others own a whole block of exactly [capacity_] slots, the first
    [size_] of them constructed. *)
Definition view {T} (w : world T) (this : nat) : option (list T * nat) :=
  V ← objs w !! this;
  match buffer_ (data_ V) with
  | nullptr =>
      if decide (capacity_ (data_ V) = 0 ∧ size_ V = 0) then Some ([], 0) else None
  | Ptr b off =>
      cells ← heap w !! b;
      if decide (off = 0 ∧ 0 < capacity_ (data_ V) ∧
                 length cells = capacity_ (data_ V) ∧
                 size_ V ≤ capacity_ (data_ V))
      then l ← live (take (size_ V) cells); Some (l, capacity_ (data_ V))
      else None
  end.

(** The address of the vector's storage. *)
Definition buffer_of {T} (w : world T) (this : nat) : option ptr :=
  V ← objs w !! this; Some (buffer_ (data_ V)).

(** The position [begin() + i] of a vector whose storage is at [p]. *)
Definition position (p : ptr) (i : nat) : ptr := ptr_add p i.

(** An element type none of whose operations throws. *)
Definition nothrow {T} (E : ElemType T) : Prop := ∀ k n, throws E k n = false.

(** [if constexpr (is_nothrow_move_constructible_v<T> ||
    !is_copy_constructible_v<T>)]: relocation moves; otherwise it copies. *)
Definition relocation_moves {T} (E : ElemType T) : bool :=
  nothrow_move_constructible E || negb (copy_constructible E).

(** The element types for which relocation cannot lose an element: all
    but the move-only types whose move constructor may throw. *)
Definition relocation_safe {T} (E : ElemType T) : Prop :=
  nothrow_move_constructible E = true ∨ copy_constructible E = true.

(** The capacity implicit growth asks for. *)
Definition grown (cap : nat) : nat := if decide (cap = 0) then 1 else cap * 2.

(** The state of a moved-from [Vector] (and of a default-constructed one). *)
Definition empty_Vector : Vector :=
  {| data_ := {| buffer_ := nullptr; capacity_ := 0 |}; size_ := 0 |}.

(** Two vectors that do not share a block. *)
Definition separate (p q : ptr) : Prop :=
  match p, q with
  | Ptr b _, Ptr b' _ => b ≠ b'
  | _, _ => True
  end.

(** [PushBack] of each element of [vs] in turn. *)
Fixpoint push_all {T} (E : ElemType T) (this : nat) (vs : list T) : M T unit :=
  match vs with
  | [] => ret tt
  | v :: vs' => PushBack E this v ;; push_all E this vs'
  end.

(** The capacity sequence 0, 1, 2, 4, 8, ...: after [n] appends to an
    empty vector the capacity is the least power of two that is at least
    [n] (and 0 before the first append). *)
Definition capacity_after (n : nat) : nat :=
  if decide (n = 0) then 0 else 2 ^ Nat.log2_up n.

(** ** Element types and vectors to run the theorems on *)

Module Examples.

(** [int]: copyable, every operation [noexcept]. *)
Definition Int : ElemType nat :=
  {| nothrow_move_constructible := true;
     copy_constructible := true;
     value_init := 0;
     moved_from := fun x => x;
     throws := fun _ _ => false |}.

(** A copyable type whose move constructor is not [noexcept] and whose
    second operation of a run throws. *)
Definition Throwing : ElemType nat :=
  {| nothrow_move_constructible := false;
     copy_constructible := true;
     value_init := 0;
     moved_from := fun _ => 0;
     throws := fun _ n => n =? 1 |}.

(** A move-only type whose move constructor is not [noexcept], leaves 0
    in its source, and throws when it is the second operation of a run. *)
Definition MoveOnly : ElemType nat :=
  {| nothrow_move_constructible := false;
     copy_constructible := false;
     value_init := 0;
     moved_from := fun _ => 0;
     throws := fun _ n => n =? 1 |}.

(** A vector object at address [this] owning the block at address [b]. *)
Definition vector_at (this b : nat) (cells : list (option nat)) (size : nat)
    : world nat :=
  World {[ this := {| data_ := {| buffer_ := Ptr b 0; capacity_ := length cells |};
                      size_ := size |} ]}
        {[ b := cells ]} 0.

(** [[1; 2; 3]] with capacity 4. *)
Definition w123 : world nat := vector_at 0 7 [Some 1; Some 2; Some 3; None] 3.

(** [[5; 6]] with capacity 2. *)
Definition w56 : world nat := vector_at 0 7 [Some 5; Some 6] 2.

(** Two vectors: [[1; 2; 3]] with capacity 4 at address 0 and [[8; 9]]
    with capacity 2 at address 1. *)
Definition w_two : world nat :=
  World {[ 0 := {| data_ := {| buffer_ := Ptr 7 0; capacity_ := 4 |}; size_ := 3 |};
           1 := {| data_ := {| buffer_ := Ptr 8 0; capacity_ := 2 |}; size_ := 2 |} ]}
        {[ 7 := [Some 1; Some 2; Some 3; None]; 8 := [Some 8; Some 9] ]} 0.

(** A 64-bit target with 4-byte elements on which [operator new] hands
    out at most 64 bytes at a time. *)
Definition small_heap : Platform nat :=
  {| size_bits := 64; sizeof := 4; new_succeeds := fun _ size => (size <=? 64)%N |}.

End Examples.

(** * Proofs *)

Section proofs.
Context {T : Type} (E : ElemType T).

Implicit Types (w : world T) (o : gmap nat Vector) (h : gmap nat (list (option T))).
Implicit Types (l xs : list T) (cells pre post rest : list (option T)).

(** *** Vocabulary *)

(** The representation behind [view]: the object, its block, and the
    split of the block into live elements and the slots after them. *)
Definition holds (w : world T) (this : nat) (p : ptr) l rest : Prop :=
  objs w !! this =
    Some {| data_ := {| buffer_ := p; capacity_ := length l + length rest |};
            size_ := length l |} ∧
  match p with
  | nullptr => l = [] ∧ rest = []
  | Ptr b off =>
      off = 0 ∧ 0 < length l + length rest ∧ heap w !! b = Some ((Some <$> l) ++ rest)
  end.

(** What relocation leaves behind in the old slots. *)
Definition relocated xs : list T :=
  if nothrow_move_constructible E || negb (copy_constructible E)
  then moved_from E <$> xs else xs.

(** What [std::move_backward] leaves in the first slot of the source
    range: the moved-from first element. *)
Definition dent (c : option T) xs : option T :=
  match head xs with
  | Some y => Some (moved_from E y)
  | None => c
  end.

(** How a second vector [rhs] with elements [lr] sits next to the block
    [b] of the vector being assigned to. *)
Definition beside o h (rhs : nat) (pr : ptr) lr restr (b : nat) : Prop :=
  o !! rhs = Some {| data_ := {| buffer_ := pr; capacity_ := length lr + length restr |};
                     size_ := length lr |} ∧
  match pr with
  | nullptr => lr = [] ∧ restr = []
  | Ptr br off => off = 0 ∧ br ≠ b ∧ h !! br = Some ((Some <$> lr) ++ restr)
  end.

(** [confined B m]: whatever [m] does, it leaves the objects alone and
    writes to no block but [B]. *)
Definition confined {A} (B : nat) (m : M T A) : Prop :=
  ∀ w r w', m w = (r, w') →
    objs w' = objs w ∧ ∀ b, b ≠ B → heap w' !! b = heap w !! b.

(** [no_throw m]: no exception leaves [m]. *)
Definition no_throw {A} (m : M T A) : Prop := ∀ w w', m w ≠ (Throw, w').

(** [throw_confined B m]: when an exception leaves [m], [m] has left the
    objects alone and written to no block but [B]. *)
Definition throw_confined {A} (B : nat) (m : M T A) : Prop :=
  ∀ w w', m w = (Throw, w') →
    objs w' = objs w ∧ ∀ b, b ≠ B → heap w' !! b = heap w !! b.

(** A computation that only reads, counts or fails. *)
Definition quiet {A} (m : M T A) : Prop :=
  ∀ w r w', m w = (r, w') → objs w' = objs w ∧ heap w' = heap w.

(** The operation that builds the new element. *)
Definition arg_op (a : args T) : op :=
  match a with
  | ByCopy _ => CopyCtor
  | ByMove _ => MoveCtor
  | Args _ => FromArgs
  end.

(** The [k]-th operation of the reallocating branch: the construction of
    the new element, then one copy for each element. *)
Definition nth_op (a : args T) (k : nat) : op :=
  if decide (k = 0) then arg_op a else CopyCtor.

(** [throw_quiet m]: when an exception leaves [m], [m] has written
    nothing. *)
Definition throw_quiet {A} (m : M T A) : Prop :=
  ∀ w w', m w = (Throw, w') → objs w' = objs w ∧ heap w' = heap w.

(** A computation that leaves the whole world as it is. *)
Definition inert {A} (m : M T A) : Prop := ∀ w r w', m w = (r, w') → w' = w.

(** [steady m]: [m] leaves the objects alone and neither allocates nor
    releases a block. *)
Definition steady {A} (m : M T A) : Prop :=
  ∀ w r w', m w = (r, w') → objs w' = objs w ∧ dom (heap w') = dom (heap w).

(** [throw_steady m]: the same, for the runs of [m] that end in an
    exception. *)
Definition throw_steady {A} (m : M T A) : Prop :=
  ∀ w w', m w = (Throw, w') → objs w' = objs w ∧ dom (heap w') = dom (heap w).

(** [behind B i w w']: from [w] to [w'] the objects are the same and
    the heap differs at most in slots of block [B] at offset [i] or
    beyond. *)
Definition behind (B i : nat) (w w' : world T) : Prop :=
  objs w' = objs w ∧
  (∀ b, b ≠ B → heap w' !! b = heap w !! b) ∧
  ∀ cells, heap w !! B = Some cells →
    ∃ cells', heap w' !! B = Some cells' ∧
              length cells' = length cells ∧ take i cells' = take i cells.

(** [tail_confined B i m]: [m] leaves the objects alone and writes only
    slots of block [B] at offset [i] or beyond. *)
Definition tail_confined {A} (B i : nat) (m : M T A) : Prop :=
  ∀ w r w', m w = (r, w') → behind B i w w'.

Lemma live_Some cells l : live cells = Some l ↔ cells = Some <$> l.
Proof.
  unfold live. rewrite mapM_Some. split.
  - induction 1 as [|x y cs ys Hxy _ IH]; simpl in *; [done|]. by subst.
  - intros ->. induction l; constructor; done.
Qed.

Lemma view_holds w this l cap :
  view w this = Some (l, cap) ↔
  ∃ p rest, holds w this p l rest ∧ cap = length l + length rest.
Proof.
  unfold view, holds. split.
  - destruct (objs w !! this) as [[[p c] s]|] eqn:HV; simpl; [|done].
    destruct p as [|b off]; simpl.
    + case_decide as Hd; [|done]. destruct Hd as [-> ->].
      intros [= <- <-]. exists nullptr, []. done.
    + destruct (heap w !! b) as [cells|] eqn:Hb; simpl; [|done].
      case_decide as Hd; [|done]. destruct Hd as (-> & Hc & Hlen & Hs).
      destruct (live (take s cells)) as [l'|] eqn:Hl; simpl; [|done].
      intros [= <- <-]. apply live_Some in Hl.
      assert (length l' = s) as Hll.
      { apply (f_equal length) in Hl.
        rewrite length_take, length_fmap in Hl. lia. }
      exists (Ptr b 0), (drop s cells).
      rewrite length_drop, <- Hl, take_drop, Hll, Hlen.
      repeat split; try done; try lia. do 3 f_equal; lia.
  - intros (p & rest & [HV Hp] & ->). rewrite HV. simpl.
    destruct p as [|b off]; simpl.
    + destruct Hp as [-> ->]. done.
    + destruct Hp as (-> & Hc & ->). simpl.
      rewrite decide_True
        by (rewrite length_app, length_fmap; repeat split; lia).
      rewrite take_app_length' by (by rewrite length_fmap).
      assert (live (Some <$> l) = Some l) as -> by by apply live_Some.
      done.
Qed.

(** *** Running the monad *)

Lemma bind_Ret {A B} (m : M T A) (k : A → M T B) w a w' :
  m w = (Ret a, w') → bind m k w = k a w'.
Proof. unfold bind. by intros ->. Qed.

Lemma bind_assoc {A B C} (m : M T A) (k : A → M T B) (k' : B → M T C) w :
  bind (bind m k) k' w = bind m (λ a, bind (k a) k') w.
Proof. unfold bind. by destruct (m w) as [[]]. Qed.

Lemma on_throw_Ret {A} (m : M T A) hdl w a w' :
  m w = (Ret a, w') → on_throw m hdl w = (Ret a, w').
Proof. unfold on_throw. by intros ->. Qed.

Lemma noexcept_Ret {A} (m : M T A) w a w' :
  m w = (Ret a, w') → noexcept m w = (Ret a, w').
Proof. unfold noexcept. by intros ->. Qed.

Lemma bind_Undefined {A C} (m : M T A) (k : A → M T C) w w' :
  m w = (Undefined, w') → bind m k w = (Undefined, w').
Proof. unfold bind. by intros ->. Qed.

Lemma noexcept_Undefined {A} (m : M T A) w w' :
  m w = (Undefined, w') → noexcept m w = (Undefined, w').
Proof. unfold noexcept. by intros ->. Qed.

Lemma call_nothrow k o h n :
  nothrow E → call E k (World o h n) = (Ret tt, World o h (S n)).
Proof.
  intros HE. assert (tick E k (World o h n) = (Ret tt, World o h (S n))) as Ht.
  { unfold tick. simpl. by rewrite HE. }
  destruct k; simpl; try done.
  destruct (nothrow_move_constructible E); [|done].
  by apply noexcept_Ret.
Qed.

(** *** Slots of the block in focus *)

Lemma read_at o h n b pre x post i :
  i = length pre →
  read (Ptr b i) (World o (<[b := pre ++ Some x :: post]> h) n)
  = (Ret x, World o (<[b := pre ++ Some x :: post]> h) n).
Proof.
  intros ->. unfold read, cell. simpl. rewrite lookup_insert_eq. simpl.
  by rewrite list_lookup_middle.
Qed.

Lemma set_cell_at o h n b pre c c' post i :
  i = length pre →
  set_cell (Ptr b i) c' (World o (<[b := pre ++ c :: post]> h) n)
  = (Ret tt, World o (<[b := pre ++ c' :: post]> h) n).
Proof.
  intros ->. unfold set_cell. simpl. rewrite lookup_insert_eq.
  rewrite decide_True by (rewrite length_app; simpl; lia).
  rewrite insert_insert_eq.
  replace (length pre) with (length pre + 0) at 1 by lia.
  by rewrite insert_app_r.
Qed.

(** The same with a second block [b'] on top of the one accessed. *)
Lemma read_under o h n b b' cells' pre x post i :
  b ≠ b' → i = length pre →
  read (Ptr b i) (World o (<[b' := cells']> (<[b := pre ++ Some x :: post]> h)) n)
  = (Ret x, World o (<[b' := cells']> (<[b := pre ++ Some x :: post]> h)) n).
Proof.
  intros Hb ->. unfold read, cell. simpl.
  rewrite lookup_insert_ne, lookup_insert_eq by done. simpl.
  by rewrite list_lookup_middle.
Qed.

Lemma set_cell_under o h n b b' cells' pre c c' post i :
  b ≠ b' → i = length pre →
  set_cell (Ptr b i) c' (World o (<[b' := cells']> (<[b := pre ++ c :: post]> h)) n)
  = (Ret tt, World o (<[b' := cells']> (<[b := pre ++ c' :: post]> h)) n).
Proof.
  intros Hb ->. unfold set_cell. simpl.
  rewrite lookup_insert_ne, lookup_insert_eq by done.
  rewrite decide_True by (rewrite length_app; simpl; lia).
  rewrite (insert_insert_ne _ b b') by done.
  rewrite insert_insert_eq.
  replace (length pre) with (length pre + 0) at 1 by lia.
  by rewrite insert_app_r.
Qed.

(** *** The loops, for an element type that does not throw *)

Lemma snoc_app {A} (k1 : list A) (a : A) (k2 : list A) :
  k1 ++ a :: k2 = (k1 ++ [a]) ++ k2.
Proof. by rewrite <- app_assoc. Qed.

Ltac snoc pre :=
  repeat match goal with
  | |- context [pre ++ ?a :: ?k] =>
      lazymatch k with [] => fail | _ => rewrite (snoc_app pre a k) end
  end.

Lemma destroy_n_at o h n b pre mid post i k :
  i = length pre → k = length mid →
  destroy_n (Ptr b i) k (World o (<[b := pre ++ mid ++ post]> h) n)
  = (Ret tt, World o (<[b := pre ++ replicate k None ++ post]> h) n).
Proof.
  revert pre i k. induction mid as [|c mid IH]; intros pre i k -> ->.
  - done.
  - cbn [destroy_n length ptr_add app replicate]. unfold destroy_at.
    erewrite bind_Ret; [|by apply set_cell_at].
    snoc pre.
    apply IH; [|done]. rewrite length_app. simpl. lia.
Qed.

Lemma uninitialized_value_construct_loop_run o h n b pre mid post i k m :
  nothrow E → i + k = length pre → m = length mid →
  uninitialized_value_construct_loop E (Ptr b i) k m
    (World o (<[b := pre ++ mid ++ post]> h) n)
  = (Ret tt,
     World o (<[b := pre ++ replicate m (Some (value_init E)) ++ post]> h) (n + m)).
Proof.
  intros HE. revert n pre k m.
  induction mid as [|c mid IH]; intros n pre k m Hi ->.
  - simpl. by rewrite Nat.add_0_r.
  - cbn [uninitialized_value_construct_loop length ptr_add app replicate].
    erewrite bind_Ret; cycle 1.
    { apply on_throw_Ret. unfold construct_value.
      erewrite bind_Ret; [|by apply call_nothrow].
      by apply set_cell_at. }
    snoc pre.
    rewrite (IH _ _ _ (length mid)); [|rewrite length_app; simpl; lia|done].
    do 2 f_equal. lia.
Qed.

Lemma uninitialized_copy_loop_run o h n bs bd spre spost dpre dpost xs mid so do_ k :
  nothrow E → bs ≠ bd →
  h !! bs = Some (spre ++ (Some <$> xs) ++ spost) →
  so + k = length spre → do_ + k = length dpre → length mid = length xs →
  uninitialized_copy_loop E (Ptr bs so) (Ptr bd do_) k (length xs)
    (World o (<[bd := dpre ++ mid ++ dpost]> h) n)
  = (Ret tt, World o (<[bd := dpre ++ (Some <$> xs) ++ dpost]> h) (n + length xs)).
Proof.
  intros HE Hb Hh. rewrite <- (insert_id h bs _ Hh). clear Hh.
  revert n spre dpre mid k.
  induction xs as [|x xs IH]; intros n spre dpre mid k Hs Hd Hm.
  - destruct mid; [|done]. simpl. by rewrite Nat.add_0_r.
  - destruct mid as [|c mid]; [done|]. rewrite fmap_cons.
    cbn [uninitialized_copy_loop length ptr_add app] in *.
    erewrite bind_Ret; cycle 1.
    { apply on_throw_Ret. unfold construct_copy.
      erewrite bind_Ret; [|by apply read_under].
      erewrite bind_Ret; [|by apply call_nothrow].
      by apply set_cell_at. }
    snoc spre; snoc dpre.
    rewrite IH; try (rewrite length_app; simpl; lia).
    + do 2 f_equal. lia.
    + lia.
Qed.

Lemma uninitialized_move_loop_run o h n bs bd spre spost dpre dpost xs mid so do_ k :
  nothrow E → bs ≠ bd →
  so + k = length spre → do_ + k = length dpre → length mid = length xs →
  uninitialized_move_loop E (Ptr bs so) (Ptr bd do_) k (length xs)
    (World o (<[bd := dpre ++ mid ++ dpost]>
               (<[bs := spre ++ (Some <$> xs) ++ spost]> h)) n)
  = (Ret tt,
     World o (<[bd := dpre ++ (Some <$> xs) ++ dpost]>
               (<[bs := spre ++ (Some <$> (moved_from E <$> xs)) ++ spost]> h))
             (n + length xs)).
Proof.
  intros HE Hb. revert n spre dpre mid k.
  induction xs as [|x xs IH]; intros n spre dpre mid k Hs Hd Hm.
  - destruct mid; [|done]. simpl. by rewrite Nat.add_0_r.
  - destruct mid as [|c mid]; [done|]. rewrite !fmap_cons.
    cbn [uninitialized_move_loop length ptr_add app] in *.
    erewrite bind_Ret; cycle 1.
    { apply on_throw_Ret. unfold construct_move.
      erewrite bind_Ret; [|by apply read_under].
      erewrite bind_Ret; [|by apply call_nothrow].
      erewrite bind_Ret; [|by apply set_cell_at].
      by apply set_cell_under. }
    snoc spre; snoc dpre.
    rewrite IH; try (rewrite length_app; simpl; lia).
    + do 2 f_equal. lia.
    + lia.
Qed.

Lemma assign_move_down o h n b pre z x post i :
  nothrow E → i = length pre →
  assign_move E (Ptr b (S i)) (Ptr b i)
    (World o (<[b := pre ++ Some x :: Some z :: post]> h) n)
  = (Ret tt, World o (<[b := pre ++ Some (moved_from E x) :: Some x :: post]> h) (S n)).
Proof.
  intros HE ->. unfold assign_move.
  erewrite bind_Ret; [|by apply read_at].
  erewrite bind_Ret; cycle 1.
  { rewrite (snoc_app pre (Some x)). apply read_at. rewrite length_app. simpl. lia. }
  rewrite <- (snoc_app pre (Some x)).
  erewrite bind_Ret; [|by apply call_nothrow].
  erewrite bind_Ret; cycle 1.
  { rewrite (snoc_app pre (Some x)). apply set_cell_at. rewrite length_app. simpl. lia. }
  rewrite <- (snoc_app pre (Some x)).
  by apply set_cell_at.
Qed.

Lemma dent_snoc c xs x : dent c (xs ++ [x]) = dent (Some (moved_from E x)) xs.
Proof. unfold dent. by destruct xs. Qed.

Lemma dent_live z xs : ∃ z', dent (Some z) xs = Some z'.
Proof. unfold dent. destruct (head xs); by eexists. Qed.

Lemma move_backward_loop_run o h n b pre z xs post i :
  nothrow E → i = length pre + length xs →
  move_backward_loop E (Ptr b i) (length xs) (Ptr b (S i))
    (World o (<[b := pre ++ (Some <$> xs) ++ Some z :: post]> h) n)
  = (Ret tt,
     World o (<[b := pre ++ dent (Some z) xs :: (Some <$> xs) ++ post]> h)
             (n + length xs)).
Proof.
  intros HE. revert n z post i.
  induction xs as [|x xs IH] using rev_ind; intros n z post i ->.
  - simpl. by rewrite Nat.add_0_r.
  - rewrite dent_snoc, fmap_app, length_app. simpl.
    rewrite !Nat.add_1_r, Nat.add_succ_r.
    cbn [move_backward_loop ptr_pred].
    erewrite bind_Ret; [|done]. erewrite bind_Ret; [|done].
    erewrite bind_Ret; cycle 1.
    { rewrite <- !app_assoc. simpl. rewrite app_assoc.
      apply assign_move_down; [done|]. by rewrite length_app, length_fmap. }
    rewrite <- app_assoc.
    rewrite IH; [|done]. rewrite <- !app_assoc. simpl.
    do 2 f_equal. lia.
Qed.

(** *** Objects and allocation *)

Lemma load_at o h n this V :
  o !! this = Some V → load this (World o h n) = (Ret V, World o h n).
Proof. unfold load. simpl. by intros ->. Qed.

Lemma data_at o h n this V :
  o !! this = Some V → data this (World o h n) = (Ret (data_ V), World o h n).
Proof. intros H. unfold data. by erewrite bind_Ret; [|by apply load_at]. Qed.

Lemma Size_at o h n this V :
  o !! this = Some V → Size this (World o h n) = (Ret (size_ V), World o h n).
Proof. intros H. unfold Size. by erewrite bind_Ret; [|by apply load_at]. Qed.

Lemma Capacity_at o h n this V :
  o !! this = Some V →
  Capacity this (World o h n) = (Ret (capacity_ (data_ V)), World o h n).
Proof. intros H. unfold Capacity. by erewrite bind_Ret; [|by apply data_at]. Qed.

Lemma set_size_at o h n this V k :
  o !! this = Some V →
  set_size this k (World o h n)
  = (Ret tt, World (<[this := {| data_ := data_ V; size_ := k |}]> o) h n).
Proof. intros H. unfold set_size. by erewrite bind_Ret; [|by apply load_at]. Qed.

Lemma RawMemory_Swap_local_at o h n this V r :
  o !! this = Some V →
  RawMemory_Swap_local this r (World o h n)
  = (Ret (data_ V), World (<[this := {| data_ := r; size_ := size_ V |}]> o) h n).
Proof. intros H. unfold RawMemory_Swap_local. by erewrite bind_Ret; [|by apply load_at]. Qed.

Lemma fresh_block h : h !! fresh (dom h) = None.
Proof. apply not_elem_of_dom, is_fresh. Qed.

Lemma RawMemory_ctor_run o h n k :
  k ≠ 0 →
  RawMemory_ctor k (World o h n)
  = (Ret {| buffer_ := Ptr (fresh (dom h)) 0; capacity_ := k |},
     World o (<[fresh (dom h) := replicate k None]> h) n).
Proof.
  intros Hk. unfold RawMemory_ctor, bind, Allocate. simpl.
  by rewrite decide_False.
Qed.

Lemma Deallocate_at o h n b cells :
  h !! b = Some cells →
  Deallocate (Ptr b 0) (World o h n) = (Ret tt, World o (delete b h) n).
Proof. unfold Deallocate. simpl. by intros ->. Qed.

Lemma begin_at o h n this b cap s :
  o !! this = Some {| data_ := {| buffer_ := Ptr b 0; capacity_ := cap |}; size_ := s |} →
  0 < cap →
  begin this (World o h n) = (Ret (Ptr b 0), World o h n).
Proof.
  intros H Hc. unfold begin.
  erewrite bind_Ret; [|by apply Capacity_at]. simpl.
  rewrite decide_False by lia.
  erewrite bind_Ret; [|by apply data_at]. done.
Qed.

Lemma end_at o h n this b cap s :
  o !! this = Some {| data_ := {| buffer_ := Ptr b 0; capacity_ := cap |}; size_ := s |} →
  0 < cap → s ≤ cap →
  end_ this (World o h n) = (Ret (Ptr b s), World o h n).
Proof.
  intros H Hc Hs. unfold end_.
  erewrite bind_Ret; [|by apply Capacity_at]. simpl.
  rewrite decide_False by lia.
  erewrite bind_Ret; [|by apply data_at].
  erewrite bind_Ret; [|by apply Size_at]. simpl.
  unfold RawMemory_at, bind, assert. simpl.
  destruct (s <=? cap) eqn:Hle; [done|]. apply Nat.leb_gt in Hle. lia.
Qed.

Lemma begin_null o h n this s :
  o !! this = Some {| data_ := {| buffer_ := nullptr; capacity_ := 0 |}; size_ := s |} →
  begin this (World o h n) = (Ret nullptr, World o h n).
Proof.
  intros H. unfold begin.
  erewrite bind_Ret; [|by apply Capacity_at]. done.
Qed.

Lemma end_null o h n this s :
  o !! this = Some {| data_ := {| buffer_ := nullptr; capacity_ := 0 |}; size_ := s |} →
  end_ this (World o h n) = (Ret nullptr, World o h n).
Proof.
  intros H. unfold end_.
  erewrite bind_Ret; [|by apply Capacity_at]. done.
Qed.

(** *** Relocation *)

Lemma length_relocated xs : length (relocated xs) = length xs.
Proof. unfold relocated. destruct (_ || _); by rewrite ?length_fmap. Qed.

Lemma relocation_run o h n bs bd spre spost dpre dpost xs mid so do_ k :
  nothrow E → bs ≠ bd →
  h !! bs = Some (spre ++ (Some <$> xs) ++ spost) →
  so = length spre → do_ = length dpre → length mid = length xs →
  k = length xs →
  (if nothrow_move_constructible E || negb (copy_constructible E)
   then uninitialized_move_n E (Ptr bs so) k (Ptr bd do_)
   else uninitialized_copy_n E (Ptr bs so) k (Ptr bd do_))
    (World o (<[bd := dpre ++ mid ++ dpost]> h) n)
  = (Ret tt,
     World o (<[bd := dpre ++ (Some <$> xs) ++ dpost]>
               (<[bs := spre ++ (Some <$> relocated xs) ++ spost]> h))
             (n + length xs)).
Proof.
  intros HE Hb Hh -> -> Hm ->. unfold relocated. destruct (_ || _).
  - unfold uninitialized_move_n. rewrite <- (insert_id h bs _ Hh) at 1.
    apply uninitialized_move_loop_run; try done; lia.
  - unfold uninitialized_copy_n. rewrite (insert_id h bs _ Hh).
    apply (uninitialized_copy_loop_run _ _ _ _ _ spre spost); try done; lia.
Qed.

(** *** [Reserve] *)

Lemma Reserve_noop w this p l rest n :
  holds w this p l rest → n ≤ length l + length rest →
  Reserve E this n w = (Ret tt, w).
Proof.
  intros [HV _] Hn. destruct w as [o h nn]. simpl in HV. unfold Reserve.
  erewrite bind_Ret; [|by apply Capacity_at]. simpl.
  by rewrite decide_True.
Qed.

Lemma Reserve_grow w this p l rest n :
  nothrow E → holds w this p l rest → length l + length rest < n →
  ∃ w' B,
    Reserve E this n w = (Ret tt, w') ∧
    holds w' this (Ptr B 0) l (replicate (n - length l) None) ∧
    nops w' = nops w + length l.
Proof.
  intros HE [HV Hp] Hn. destruct w as [o h nn]. simpl in HV, Hp.
  set (B := fresh (dom h)).
  assert (h !! B = None) as HB by apply fresh_block.
  unfold Reserve.
  erewrite bind_Ret; [|by apply Capacity_at]. simpl.
  rewrite decide_False by lia.
  erewrite bind_Ret; [|apply RawMemory_ctor_run; lia]. fold B.
  destruct p as [|b off].
  - destruct Hp as [-> ->]. simpl in *.
    erewrite bind_Ret; cycle 1.
    { apply on_throw_Ret.
      erewrite bind_Ret; [|by apply data_at].
      erewrite bind_Ret; [|by apply Size_at]. simpl.
      by destruct (_ || _). }
    erewrite bind_Ret; [|by apply RawMemory_Swap_local_at]. simpl.
    eexists _, B. split; [done|]. split; [|simpl; lia].
    split; simpl.
    + rewrite lookup_insert_eq, length_replicate. do 3 f_equal. lia.
    + rewrite lookup_insert_eq, length_replicate, Nat.sub_0_r.
      repeat split; try done.
  - destruct Hp as (-> & Hc & Hb).
    assert (b ≠ B) as HbB by (intros ->; congruence).
    assert (replicate n (@None T)
            = [] ++ replicate (length l) None ++ replicate (n - length l) None) as Hrep.
    { simpl. rewrite <- replicate_add. f_equal. lia. }
    erewrite bind_Ret; cycle 1.
    { apply on_throw_Ret.
      erewrite bind_Ret; [|by apply data_at].
      erewrite bind_Ret; [|by apply Size_at]. simpl.
      unfold GetAddress. simpl.
      erewrite bind_Ret; cycle 1.
      { rewrite Hrep. apply (relocation_run _ _ _ _ _ [] rest); try done.
        by rewrite length_replicate. }
      rewrite insert_insert_ne by done.
      apply (destroy_n_at _ _ _ _ [] (Some <$> relocated l) rest); [done|].
      by rewrite length_fmap, length_relocated. }
    erewrite bind_Ret; [|by apply RawMemory_Swap_local_at].
    unfold RawMemory_dtor. cbn [data_ buffer_].
    erewrite Deallocate_at; [|by apply lookup_insert_eq].
    eexists _, B. split; [done|]. split; [|done].
    split; simpl.
    + rewrite lookup_insert_eq, length_replicate. do 3 f_equal. lia.
    + rewrite lookup_delete_ne, lookup_insert_ne, lookup_insert_eq by done.
      rewrite length_replicate. repeat split; try done. lia.
Qed.

(** *** [EmplaceShared], capacity exhausted *)

Lemma destroy_n_front o h n b mid post k :
  k = length mid →
  destroy_n (Ptr b 0) k (World o (<[b := mid ++ post]> h) n)
  = (Ret tt, World o (<[b := replicate k None ++ post]> h) n).
Proof. intros ->. by apply (destroy_n_at _ _ _ _ []). Qed.

Lemma construct_args_at o h n b pre c post i a :
  nothrow E → i = length pre →
  construct_args E (Ptr b i) a (World o (<[b := pre ++ c :: post]> h) n)
  = (Ret tt, World o (<[b := pre ++ Some (args_value a) :: post]> h) (S n)).
Proof.
  intros HE ->. destruct a; cbn [construct_args args_value];
    (erewrite bind_Ret; [|by apply call_nothrow]); by apply set_cell_at.
Qed.

Lemma construct_temp_run o h n a :
  nothrow E →
  construct_temp E a (World o h n) = (Ret (args_value a), World o h (S n)).
Proof.
  intros HE. destruct a; cbn [construct_temp args_value];
    (erewrite bind_Ret; [|by apply call_nothrow]); done.
Qed.

Lemma distance_run (w : world T) b i j :
  i ≤ j → distance (Ptr b i) (Ptr b j) w = (Ret (j - i), w).
Proof. intros Hij. unfold distance. by rewrite decide_True. Qed.

Lemma EmplaceShared_first w this a :
  nothrow E → holds w this nullptr [] [] →
  ∃ w' B,
    EmplaceShared E this nullptr a w = (Ret (Ptr B 0), w') ∧
    holds w' this (Ptr B 0) [args_value a] [] ∧
    nops w' = S (nops w).
Proof.
  intros HE [HV _]. destruct w as [o h nn]. simpl in HV.
  set (B := fresh (dom h)).
  unfold EmplaceShared.
  rewrite ?bind_assoc; erewrite bind_Ret; [|by apply Size_at].
  rewrite ?bind_assoc; erewrite bind_Ret; [|by apply Capacity_at]. cbn [size_ data_ capacity_].
  rewrite !decide_True by done.
  rewrite ?bind_assoc; erewrite bind_Ret; [|by apply RawMemory_ctor_run]. fold B.
  rewrite ?bind_assoc; erewrite bind_Ret; cycle 1.
  { apply on_throw_Ret. unfold cbegin.
    rewrite ?bind_assoc; erewrite bind_Ret; [|by eapply begin_null].
    rewrite ?bind_assoc; erewrite bind_Ret; [|done]. cbn [GetAddress buffer_ ptr_add Nat.add].
    rewrite ?bind_assoc; erewrite bind_Ret; [|by apply (construct_args_at _ _ _ _ [] None [])].
    rewrite ?bind_assoc; erewrite bind_Ret; cycle 1.
    { apply on_throw_Ret.
      rewrite ?bind_assoc; erewrite bind_Ret; [|by eapply begin_null].
      rewrite ?bind_assoc; erewrite bind_Ret; [|by eapply begin_null].
      rewrite ?bind_assoc; erewrite bind_Ret; [|done]. by destruct (_ || _). }
    rewrite ?bind_assoc; erewrite bind_Ret; cycle 1.
    { apply on_throw_Ret. unfold cend.
      rewrite ?bind_assoc; erewrite bind_Ret; [|by eapply end_null].
      rewrite ?bind_assoc; erewrite bind_Ret; [|done].
      rewrite ?bind_assoc; erewrite bind_Ret; [|by eapply begin_null].
      rewrite ?bind_assoc; erewrite bind_Ret; [|done]. by destruct (_ || _). }
    rewrite ?bind_assoc; erewrite bind_Ret; [|by eapply begin_null].
    rewrite ?bind_assoc; erewrite bind_Ret; [|by apply Size_at]. done. }
  rewrite ?bind_assoc; erewrite bind_Ret; [|by apply RawMemory_Swap_local_at].
  rewrite ?bind_assoc; erewrite bind_Ret; [|done]. cbn [size_].
  rewrite ?bind_assoc; erewrite bind_Ret; [|done].
  rewrite ?bind_assoc; erewrite bind_Ret; [|by apply Size_at, lookup_insert_eq].
  rewrite ?bind_assoc; erewrite bind_Ret; [|by apply set_size_at, lookup_insert_eq].
  eexists _, B. split; [done|]. split; [|done].
  split; simpl.
  - by rewrite insert_insert_eq, lookup_insert_eq.
  - rewrite lookup_insert_eq. repeat split; try done. lia.
Qed.

Lemma EmplaceShared_grow w this b l1 l2 a :
  nothrow E → holds w this (Ptr b 0) (l1 ++ l2) [] →
  ∃ w' B,
    EmplaceShared E this (Ptr b (length l1)) a w = (Ret (Ptr B (length l1)), w') ∧
    holds w' this (Ptr B 0) (l1 ++ args_value a :: l2)
          (replicate (length (l1 ++ l2) - 1) None) ∧
    nops w' = S (nops w + length (l1 ++ l2)).
Proof.
  intros HE [HV (_ & Hc & Hb)]. destruct w as [o h nn]. simpl in HV, Hb.
  rewrite app_nil_r in Hb. simpl in Hc, HV.
  rewrite Nat.add_0_r in HV, Hc.
  set (s := length (l1 ++ l2)) in *.
  assert (s = length l1 + length l2) as Hs by (unfold s; by rewrite length_app).
  set (B := fresh (dom h)).
  assert (h !! B = None) as HB by apply fresh_block.
  assert (b ≠ B) as HbB by (intros ->; congruence).
  unfold EmplaceShared.
  rewrite ?bind_assoc; erewrite bind_Ret; [|by apply Size_at].
  rewrite ?bind_assoc; erewrite bind_Ret; [|by apply Capacity_at]. cbn [size_ data_ capacity_].
  rewrite decide_True by done. rewrite decide_False by lia.
  rewrite ?bind_assoc; erewrite bind_Ret; [|apply RawMemory_ctor_run; lia]. fold B.
  assert (replicate (s * 2) (@None T)
          = replicate (length l1) None ++ None ::
            replicate (length l2) None ++ replicate (s - 1) None) as ->.
  { change (None :: ?k) with (replicate 1 (@None T) ++ k).
    rewrite <- !replicate_add. f_equal. lia. }
  rewrite ?bind_assoc; erewrite bind_Ret; cycle 1.
  { apply on_throw_Ret. unfold cbegin, cend.
    rewrite ?bind_assoc; erewrite bind_Ret; [|by eapply begin_at].
    rewrite ?bind_assoc; erewrite bind_Ret; [|apply distance_run; lia].
    rewrite Nat.sub_0_r. cbn [GetAddress buffer_ ptr_add Nat.add].
    rewrite ?bind_assoc; erewrite bind_Ret; [|apply construct_args_at; [done|by rewrite length_replicate]].
    rewrite ?bind_assoc; erewrite bind_Ret; cycle 1.
    { apply on_throw_Ret.
      rewrite ?bind_assoc; erewrite bind_Ret; [|by eapply begin_at].
      rewrite ?bind_assoc; erewrite bind_Ret; [|by eapply begin_at].
      rewrite ?bind_assoc; erewrite bind_Ret; [|apply distance_run; lia].
      rewrite Nat.sub_0_r.
      apply relocation_run with
        (spre := []) (spost := Some <$> l2) (xs := l1) (dpre := []); try done.
      - by rewrite Hb, fmap_app.
      - by rewrite length_replicate. }
    rewrite ?bind_assoc; erewrite bind_Ret; cycle 1.
    { apply on_throw_Ret.
      rewrite ?bind_assoc; erewrite bind_Ret; [|by eapply end_at].
      rewrite ?bind_assoc; erewrite bind_Ret; [|apply distance_run; lia].
      rewrite ?bind_assoc; erewrite bind_Ret; [|by eapply begin_at].
      rewrite ?bind_assoc; erewrite bind_Ret; [|apply distance_run; lia].
      rewrite Nat.sub_0_r. cbn [ptr_add Nat.add].
      rewrite (snoc_app (Some <$> l1)).
      apply relocation_run with
        (spre := Some <$> relocated l1) (spost := []) (xs := l2)
        (dpre := (Some <$> l1) ++ [Some (args_value a)]); try done.
      - by rewrite lookup_insert_eq, app_nil_r.
      - by rewrite length_fmap, length_relocated.
      - rewrite length_app, length_fmap. simpl. lia.
      - by rewrite length_replicate.
      - lia. }
    rewrite ?bind_assoc; erewrite bind_Ret; [|by eapply begin_at].
    rewrite ?bind_assoc; erewrite bind_Ret; [|by apply Size_at]. cbn [size_].
    rewrite ?bind_assoc; erewrite bind_Ret; cycle 1.
    { rewrite insert_insert_ne by done.
      rewrite app_assoc. apply destroy_n_front.
      rewrite length_app, !length_fmap, !length_relocated. lia. }
    done. }
  rewrite ?bind_assoc; erewrite bind_Ret; [|by apply RawMemory_Swap_local_at].
  rewrite ?bind_assoc; erewrite bind_Ret; cycle 1.
  { unfold RawMemory_dtor. cbn [data_ buffer_].
    by eapply Deallocate_at, lookup_insert_eq. }
  rewrite ?bind_assoc; erewrite bind_Ret; [|done].
  rewrite ?bind_assoc; erewrite bind_Ret; [|by apply Size_at, lookup_insert_eq].
  rewrite ?bind_assoc; erewrite bind_Ret; [|by apply set_size_at, lookup_insert_eq].
  eexists _, B. split; [done|]. split; [|simpl; lia].
  split; simpl.
  - rewrite insert_insert_eq, lookup_insert_eq.
    rewrite length_app, length_replicate. simpl. do 3 f_equal; lia.
  - rewrite lookup_delete_ne, lookup_insert_ne, lookup_insert_eq by done.
    repeat split; try done.
    + rewrite length_app. simpl. lia.
    + rewrite fmap_app, fmap_cons, <- !app_assoc. done.
Qed.

(** *** [EmplaceShared], capacity available *)

Lemma EmplaceShared_end w this b l c rest a :
  nothrow E → holds w this (Ptr b 0) l (c :: rest) →
  ∃ w',
    EmplaceShared E this (Ptr b (length l)) a w = (Ret (Ptr b (length l)), w') ∧
    holds w' this (Ptr b 0) (l ++ [args_value a]) rest ∧
    nops w' = S (nops w).
Proof.
  intros HE [HV (_ & Hc & Hb)]. destruct w as [o h nn]. simpl in HV, Hb.
  cbn [length] in HV.
  rewrite <- (insert_id h b _ Hb).
  unfold EmplaceShared.
  rewrite ?bind_assoc; erewrite bind_Ret; [|by apply Size_at].
  rewrite ?bind_assoc; erewrite bind_Ret; [|by apply Capacity_at].
  cbn [size_ data_ capacity_].
  rewrite decide_False by lia. unfold cend.
  rewrite ?bind_assoc; erewrite bind_Ret; [|eapply end_at; [done|lia|lia]].
  rewrite decide_True by done.
  rewrite ?bind_assoc; erewrite bind_Ret; [|by apply data_at].
  rewrite ?bind_assoc; erewrite bind_Ret; [|by apply Size_at].
  cbn [GetAddress size_ data_ buffer_ ptr_add Nat.add].
  rewrite ?bind_assoc; erewrite bind_Ret;
    [|apply construct_args_at; [done|by rewrite length_fmap]].
  rewrite ?bind_assoc; erewrite bind_Ret; [|done].
  rewrite ?bind_assoc; erewrite bind_Ret; [|by apply Size_at].
  rewrite ?bind_assoc; erewrite bind_Ret; [|by apply set_size_at].
  eexists. split; [done|]. split; [|done].
  split; simpl.
  - rewrite lookup_insert_eq, length_app. simpl. do 3 f_equal; lia.
  - rewrite lookup_insert_eq. repeat split; try done.
    + rewrite length_app. simpl. lia.
    + by rewrite fmap_app, <- app_assoc.
Qed.

Lemma construct_move_up o h n b pre c x post i :
  nothrow E → i = length pre →
  construct_move E (Ptr b (S i)) (Ptr b i)
    (World o (<[b := pre ++ Some x :: c :: post]> h) n)
  = (Ret tt, World o (<[b := pre ++ Some (moved_from E x) :: Some x :: post]> h) (S n)).
Proof.
  intros HE ->. unfold construct_move.
  erewrite bind_Ret; [|by apply read_at].
  erewrite bind_Ret; [|by apply call_nothrow].
  erewrite bind_Ret; cycle 1.
  { rewrite (snoc_app pre (Some x)). apply set_cell_at. rewrite length_app. simpl. lia. }
  rewrite <- (snoc_app pre (Some x)).
  by apply set_cell_at.
Qed.

Lemma assign_temp_at o h n b pre z post i v :
  nothrow E → i = length pre →
  assign_temp E (Ptr b i) v (World o (<[b := pre ++ Some z :: post]> h) n)
  = (Ret tt, World o (<[b := pre ++ Some v :: post]> h) (S n)).
Proof.
  intros HE ->. unfold assign_temp.
  erewrite bind_Ret; [|by apply read_at].
  erewrite bind_Ret; [|by apply call_nothrow]. by apply set_cell_at.
Qed.

Lemma EmplaceShared_middle w this b l1 xs y c rest a :
  nothrow E → holds w this (Ptr b 0) (l1 ++ xs ++ [y]) (c :: rest) →
  ∃ w',
    EmplaceShared E this (Ptr b (length l1)) a w = (Ret (Ptr b (length l1)), w') ∧
    holds w' this (Ptr b 0) (l1 ++ args_value a :: xs ++ [y]) rest ∧
    nops w' = nops w + length xs + 3.
Proof.
  intros HE [HV (_ & Hc & Hb)]. destruct w as [o h nn]. simpl in HV, Hb.
  cbn [length] in HV.
  rewrite <- (insert_id h b _ Hb).
  assert (length (l1 ++ xs ++ [y]) = S (length l1 + length xs)) as Hlen.
  { rewrite !length_app. simpl. lia. }
  rewrite Hlen in HV.
  unfold EmplaceShared.
  rewrite ?bind_assoc; erewrite bind_Ret; [|by apply Size_at].
  rewrite ?bind_assoc; erewrite bind_Ret; [|by apply Capacity_at].
  cbn [size_ data_ capacity_].
  rewrite decide_False by lia. unfold cend.
  rewrite ?bind_assoc; erewrite bind_Ret; [|eapply end_at; [done|lia|lia]].
  rewrite decide_False by (intros [=]; lia).
  rewrite ?bind_assoc; erewrite bind_Ret; [|by apply construct_temp_run].
  rewrite ?bind_assoc; erewrite bind_Ret; [|by apply Size_at].
  cbn [size_]. rewrite decide_True by lia.
  rewrite ?bind_assoc; erewrite bind_Ret; [|eapply end_at; [done|lia|lia]].
  cbn [ptr_pred].
  rewrite ?bind_assoc; erewrite bind_Ret; [|done].
  rewrite !fmap_app, <- !app_assoc. cbn [fmap list_fmap app].
  rewrite ?bind_assoc; erewrite bind_Ret; cycle 1.
  { rewrite (app_assoc (Some <$> l1)). apply construct_move_up; [exact HE|].
    by rewrite length_app, !length_fmap. }
  rewrite <- app_assoc.
  rewrite ?bind_assoc; erewrite bind_Ret; [|by apply Size_at].
  cbn [size_].
  rewrite ?bind_assoc;
    erewrite bind_Ret with
      (w' := World o (<[b := (Some <$> l1) ++ dent (Some (moved_from E y)) xs ::
                              (Some <$> xs) ++ Some y :: rest]> h)
                     (S (S nn) + length xs)); cycle 1.
  { case_decide as H1.
    - rewrite ?bind_assoc; erewrite bind_Ret; [|eapply end_at; [done|lia|lia]].
      cbn [ptr_pred].
      rewrite ?bind_assoc; erewrite bind_Ret; [|done].
      unfold move_backward.
      rewrite ?bind_assoc; erewrite bind_Ret; [|apply distance_run; lia].
      replace (length l1 + length xs - length l1) with (length xs) by lia.
      apply move_backward_loop_run; [done|]. by rewrite length_fmap.
    - assert (xs = []) as -> by (destruct xs; [done|simpl in H1; lia]).
      simpl. by rewrite Nat.add_0_r. }
  destruct (dent_live (moved_from E y) xs) as [z' ->].
  rewrite ?bind_assoc; erewrite bind_Ret;
    [|apply assign_temp_at; [done|by rewrite length_fmap]].
  rewrite ?bind_assoc; erewrite bind_Ret; [|done].
  rewrite ?bind_assoc; erewrite bind_Ret; [|by apply Size_at].
  rewrite ?bind_assoc; erewrite bind_Ret; [|by apply set_size_at].
  eexists. split; [done|]. split; [|simpl; lia].
  split; simpl.
  - rewrite lookup_insert_eq, !length_app. simpl. rewrite length_app. simpl.
    do 3 f_equal; lia.
  - rewrite lookup_insert_eq. repeat split; try done.
    + rewrite length_app. simpl. lia.
    + rewrite !fmap_app, fmap_cons, !fmap_app. simpl.
      rewrite <- !app_assoc. simpl. by rewrite <- ?app_assoc.
Qed.

(** *** [EmplaceShared] at any position of any vector *)

Lemma EmplaceShared_run w this p l1 l2 rest a :
  nothrow E → holds w this p (l1 ++ l2) rest →
  ∃ w' p' rest',
    EmplaceShared E this (position p (length l1)) a w
      = (Ret (position p' (length l1)), w') ∧
    holds w' this p' (l1 ++ args_value a :: l2) rest' ∧
    (rest = [] → length (l1 ++ args_value a :: l2) + length rest'
                 = grown (length (l1 ++ l2))) ∧
    (rest ≠ [] → p' = p ∧ length rest = S (length rest')).
Proof.
  intros HE H. destruct rest as [|c rest].
  - destruct p as [|b off].
    + assert (l1 ++ l2 = []) as Hl by (destruct H as [_ [? _]]; done).
      apply app_eq_nil in Hl as [-> ->].
      destruct (EmplaceShared_first w this a HE H) as (w' & B & Hrun & Hh & _).
      exists w', (Ptr B 0), []. split; [exact Hrun|]. split; [exact Hh|].
      split; done.
    + assert (off = 0) as -> by (destruct H as [_ [? _]]; done).
      destruct (EmplaceShared_grow w this b l1 l2 a HE H) as (w' & B & Hrun & Hh & _).
      exists w', (Ptr B 0), (replicate (length (l1 ++ l2) - 1) None).
      split; [exact Hrun|]. split; [exact Hh|]. split; [|done].
      intros _. destruct H as [_ (_ & Hc & _)].
      rewrite length_replicate. unfold grown.
      rewrite !length_app in *. simpl in *.
      rewrite decide_False by lia. lia.
  - destruct p as [|b off]; [destruct H as [_ [_ ?]]; done|].
    assert (off = 0) as -> by (destruct H as [_ [? _]]; done).
    destruct l2 as [|y xs _] using rev_ind.
    + rewrite app_nil_r in H.
      destruct (EmplaceShared_end w this b l1 c rest a HE H) as (w' & Hrun & Hh & _).
      exists w', (Ptr b 0), rest. split; [exact Hrun|]. split; [exact Hh|].
      split; done.
    + destruct (EmplaceShared_middle w this b l1 xs y c rest a HE H)
        as (w' & Hrun & Hh & _).
      exists w', (Ptr b 0), rest. split; [exact Hrun|]. split; [exact Hh|].
      split; done.
Qed.

(** *** [Erase] *)

Lemma Erase_last w this b l1 x rest :
  holds w this (Ptr b 0) (l1 ++ [x]) rest →
  ∃ w',
    Erase E this (Ptr b (length l1)) w = (Ret (Ptr b (length l1)), w') ∧
    holds w' this (Ptr b 0) l1 (None :: rest) ∧
    nops w' = nops w.
Proof.
  intros [HV (_ & Hc & Hb)]. destruct w as [o h nn]. simpl in HV, Hb.
  rewrite <- (insert_id h b _ Hb).
  assert (length (l1 ++ [x]) = S (length l1)) as Hlen.
  { rewrite !length_app. simpl. lia. }
  rewrite Hlen in HV.
  rewrite fmap_app, <- !app_assoc. cbn [app fmap list_fmap].
  unfold Erase.
  erewrite noexcept_Ret; cycle 1.
  { unfold destroy_at.
    rewrite ?bind_assoc; erewrite bind_Ret;
      [|apply set_cell_at; by rewrite length_fmap].
    rewrite ?bind_assoc; erewrite bind_Ret; [|eapply end_at; [done|lia|lia]].
    unfold std_move. cbn [ptr_add]. rewrite Nat.add_1_r.
    rewrite ?bind_assoc; erewrite bind_Ret; [|apply distance_run; lia].
    rewrite Nat.sub_diag. cbn [move_loop].
    rewrite ?bind_assoc; erewrite bind_Ret; [|done].
    rewrite ?bind_assoc; erewrite bind_Ret; [|by apply Size_at].
    cbn [size_].
    rewrite ?bind_assoc; erewrite bind_Ret; [|by apply set_size_at].
    unfold cbegin.
    rewrite ?bind_assoc; erewrite bind_Ret;
      [|eapply begin_at; [by apply lookup_insert_eq|lia]].
    rewrite ?bind_assoc; erewrite bind_Ret;
      [|eapply begin_at; [by apply lookup_insert_eq|lia]].
    rewrite ?bind_assoc; erewrite bind_Ret; [|apply distance_run; lia].
    rewrite Nat.sub_0_r. done. }
  eexists. split; [done|]. split; [|done].
  split; simpl.
  - rewrite lookup_insert_eq. do 3 f_equal. simpl. lia.
  - rewrite lookup_insert_eq. repeat split; try done. simpl. lia.
Qed.


(** *** [Resize] *)

Lemma holds_inv w this p l rest :
  holds w this p l rest →
  ∃ o h n, w = World o h n ∧
    o !! this = Some {| data_ := {| buffer_ := p; capacity_ := length l + length rest |};
                        size_ := length l |} ∧
    match p with
    | nullptr => l = [] ∧ rest = []
    | Ptr b off => off = 0 ∧ 0 < length l + length rest ∧
                   h = <[b := (Some <$> l) ++ rest]> h
    end.
Proof.
  intros [HV Hp]. destruct w as [o h n]. exists o, h, n.
  split; [done|]. split; [done|].
  destruct p as [|b off]; [done|]. destruct Hp as (-> & Hc & Hb).
  repeat split; try done. simpl in Hb. symmetry. by apply insert_id.
Qed.

Lemma Resize_shrink w this p l1 l2 rest :
  holds w this p (l1 ++ l2) rest → l2 ≠ [] →
  ∃ w',
    Resize E this (length l1) w = (Ret tt, w') ∧
    holds w' this p l1 (replicate (length l2) None ++ rest) ∧
    nops w' = nops w.
Proof.
  intros H Hl2. apply holds_inv in H as (o & h & n & -> & HV & Hp).
  assert (0 < length l2) as Hlen by (destruct l2; [done|simpl; lia]).
  rewrite length_app in HV.
  destruct p as [|b off].
  { destruct Hp as [Hl _]. apply app_eq_nil in Hl as [_ ->]. done. }
  destruct Hp as (-> & Hc & Hh). rewrite Hh. clear Hh.
  unfold Resize.
  rewrite ?bind_assoc; erewrite bind_Ret; [|by apply Size_at]. cbn [size_].
  rewrite decide_False by lia. rewrite decide_True by lia.
  rewrite ?bind_assoc; erewrite bind_Ret; [|by apply data_at].
  cbn [GetAddress data_ buffer_ ptr_add Nat.add].
  rewrite fmap_app, <- app_assoc.
  rewrite ?bind_assoc; erewrite bind_Ret; cycle 1.
  { apply destroy_n_at; rewrite ?length_fmap; lia. }
  erewrite set_size_at; [|done].
  eexists. split; [done|]. split; [|done].
  split; simpl.
  - rewrite lookup_insert_eq, length_app, length_replicate.
    do 3 f_equal. lia.
  - rewrite lookup_insert_eq. repeat split; try done.
    + rewrite length_app, length_replicate. lia.
    + by replace (length l1 + length l2 - length l1) with (length l2) by lia.
Qed.

Lemma Resize_extend w this p l rest n :
  nothrow E → holds w this p l rest → length l < n →
  ∃ w' p' rest',
    Resize E this n w = (Ret tt, w') ∧
    holds w' this p' (l ++ replicate (n - length l) (value_init E)) rest' ∧
    n + length rest' = (length l + length rest) `max` n.
Proof.
  intros HE H Hn.
  assert (∃ w1 p1 mid rest1,
            Reserve E this n w = (Ret tt, w1) ∧
            holds w1 this p1 l (mid ++ rest1) ∧
            length mid = n - length l ∧
            n + length rest1 = (length l + length rest) `max` n)
    as (w1 & p1 & mid & rest1 & HR & H1 & Hmid & Hcap).
  { destruct (decide (n ≤ length l + length rest)) as [Hle|Hgt].
    - exists w, p, (take (n - length l) rest), (drop (n - length l) rest).
      split; [by eapply Reserve_noop|]. rewrite take_drop.
      split; [done|]. rewrite length_take, length_drop. lia.
    - destruct (Reserve_grow w this p l rest n HE H) as (w1 & B & HR & H1 & _); [lia|].
      exists w1, (Ptr B 0), (replicate (n - length l) None), [].
      rewrite app_nil_r, length_replicate. simpl.
      split; [exact HR|]. split; [exact H1|]. lia. }
  pose proof H as [HV _].
  apply holds_inv in H1 as (o & h & nn & -> & HV1 & Hp).
  destruct p1 as [|b off].
  { destruct Hp as [-> Hm]. apply app_eq_nil in Hm as [-> ->]. simpl in *. lia. }
  destruct Hp as (-> & Hc & Hh). rewrite Hh in HR. clear Hh.
  unfold Resize.
  destruct w as [o0 h0 n0]. simpl in HV.
  rewrite ?bind_assoc; erewrite bind_Ret; [|by apply Size_at]. cbn [size_].
  rewrite decide_False by lia. rewrite decide_False by lia.
  rewrite ?bind_assoc; erewrite bind_Ret; [|exact HR].
  rewrite ?bind_assoc; erewrite bind_Ret; [|by apply data_at].
  rewrite ?bind_assoc; erewrite bind_Ret; [|by apply Size_at].
  cbn [GetAddress data_ buffer_ size_ ptr_add Nat.add].
  rewrite ?bind_assoc; erewrite bind_Ret; cycle 1.
  { unfold uninitialized_value_construct_n.
    apply uninitialized_value_construct_loop_run;
      [exact HE|by rewrite length_fmap; lia|done]. }
  erewrite set_size_at; [|done].
  eexists _, (Ptr b 0), rest1. split; [done|]. split; [|done].
  split; simpl.
  - rewrite lookup_insert_eq, !length_app, length_replicate.
    do 3 f_equal; lia.
  - rewrite lookup_insert_eq. repeat split; try done.
    + rewrite length_app, length_replicate. lia.
    + by rewrite fmap_app, fmap_replicate, <- app_assoc.
Qed.

(** *** Move construction and move assignment *)

Ltac lookups :=
  repeat (rewrite lookup_insert_eq || rewrite lookup_insert_ne by done); try done.

Lemma set_buffer_at o h n this V p :
  o !! this = Some V →
  set_buffer this p (World o h n)
  = (Ret tt,
     World (<[this := {| data_ := {| buffer_ := p; capacity_ := capacity_ (data_ V) |};
                         size_ := size_ V |}]> o) h n).
Proof. intros H. unfold set_buffer. by erewrite bind_Ret; [|by apply load_at]. Qed.

Lemma set_capacity_at o h n this V k :
  o !! this = Some V →
  set_capacity this k (World o h n)
  = (Ret tt,
     World (<[this := {| data_ := {| buffer_ := buffer_ (data_ V); capacity_ := k |};
                         size_ := size_ V |}]> o) h n).
Proof. intros H. unfold set_capacity. by erewrite bind_Ret; [|by apply load_at]. Qed.

Lemma move_body_distinct o h n this rhs Vt Vr :
  this ≠ rhs → o !! this = Some Vt → o !! rhs = Some Vr →
  (RawMemory_move_assign this rhs ;;
   s <- Size rhs ;; set_size this s ;; set_size rhs 0) (World o h n)
  = (Ret tt, World (<[rhs := empty_Vector]> (<[this := Vr]> o)) h n).
Proof.
  intros Hne Ht Hr.
  erewrite bind_Ret; cycle 1.
  { unfold RawMemory_move_assign. apply noexcept_Ret.
    rewrite ?bind_assoc; erewrite bind_Ret; [|by apply data_at].
    rewrite ?bind_assoc; erewrite bind_Ret; [|by apply set_buffer_at].
    rewrite ?bind_assoc; erewrite bind_Ret;
      [|apply data_at; lookups].
    rewrite ?bind_assoc; erewrite bind_Ret;
      [|by apply set_capacity_at, lookup_insert_eq].
    rewrite ?bind_assoc; erewrite bind_Ret;
      [|apply set_buffer_at; lookups].
    by apply set_capacity_at, lookup_insert_eq. }
  rewrite ?bind_assoc; erewrite bind_Ret; [|by apply Size_at, lookup_insert_eq].
  rewrite ?bind_assoc; erewrite bind_Ret;
    [|apply set_size_at; lookups].
  erewrite set_size_at; [|lookups].
  simpl. do 2 f_equal. destruct Vr as [[pr cr] sr]. simpl.
  apply map_eq. intros i.
  destruct (decide (i = rhs)) as [->|]; [by lookups|].
  destruct (decide (i = this)) as [->|]; by lookups.
Qed.

Lemma move_assign_distinct o h n this rhs Vt Vr :
  this ≠ rhs → o !! this = Some Vt → o !! rhs = Some Vr →
  move_assign this rhs (World o h n)
  = (Ret tt, World (<[rhs := empty_Vector]> (<[this := Vr]> o)) h n).
Proof.
  intros. unfold move_assign. apply noexcept_Ret. by eapply move_body_distinct.
Qed.

Lemma Vector_move_distinct o h n this other Vr :
  this ≠ other → o !! other = Some Vr →
  Vector_move this other (World o h n)
  = (Ret tt, World (<[other := empty_Vector]> (<[this := Vr]> o)) h n).
Proof.
  intros Hne Hr. unfold Vector_move. apply noexcept_Ret.
  erewrite bind_Ret; [|done].
  erewrite move_body_distinct;
    [|done|by apply lookup_insert_eq|lookups].
  by rewrite insert_insert_eq.
Qed.

Lemma move_assign_self o h n this V :
  o !! this = Some V →
  move_assign this this (World o h n)
  = (Ret tt, World (<[this := empty_Vector]> o) h n).
Proof.
  intros Ht. unfold move_assign. apply noexcept_Ret.
  erewrite bind_Ret; cycle 1.
  { unfold RawMemory_move_assign. apply noexcept_Ret.
    rewrite ?bind_assoc; erewrite bind_Ret; [|by apply data_at].
    rewrite ?bind_assoc; erewrite bind_Ret; [|by apply set_buffer_at].
    rewrite ?bind_assoc; erewrite bind_Ret;
      [|by apply data_at, lookup_insert_eq].
    rewrite ?bind_assoc; erewrite bind_Ret;
      [|by apply set_capacity_at, lookup_insert_eq].
    rewrite ?bind_assoc; erewrite bind_Ret;
      [|by apply set_buffer_at, lookup_insert_eq].
    by apply set_capacity_at, lookup_insert_eq. }
  rewrite ?bind_assoc; erewrite bind_Ret; [|by apply Size_at, lookup_insert_eq].
  rewrite ?bind_assoc; erewrite bind_Ret;
    [|by apply set_size_at, lookup_insert_eq].
  erewrite set_size_at; [|by apply lookup_insert_eq].
  simpl. by rewrite !insert_insert_eq.
Qed.

(** *** Copy assignment without reallocation *)

Lemma Vector_at_run o h n this p cap s i :
  o !! this = Some {| data_ := {| buffer_ := p; capacity_ := cap |}; size_ := s |} →
  i < s → s ≤ cap →
  Vector_at this i (World o h n) = (Ret (ptr_add p i), World o h n).
Proof.
  intros H Hi Hs. unfold Vector_at.
  rewrite ?bind_assoc; erewrite bind_Ret; [|by apply Size_at]. cbn [size_].
  unfold assert at 1. unfold bind at 1.
  destruct (i <? s) eqn:Hlt; [|apply Nat.ltb_ge in Hlt; lia].
  rewrite ?bind_assoc; erewrite bind_Ret; [|by apply data_at].
  unfold RawMemory_at, bind, assert. cbn [data_ capacity_ buffer_].
  destruct (i <=? cap) eqn:Hle; [done|]. apply Nat.leb_gt in Hle. lia.
Qed.

Lemma RawMemory_at_run (w : world T) r i :
  i ≤ capacity_ r → RawMemory_at r i w = (Ret (ptr_add (buffer_ r) i), w).
Proof.
  intros Hi. unfold RawMemory_at, bind, assert.
  destruct (i <=? capacity_ r) eqn:Hle; [done|]. apply Nat.leb_gt in Hle. lia.
Qed.

Lemma assign_copy_run o h n bs bd spre x spost dpre z dpost i j :
  nothrow E → bs ≠ bd →
  h !! bs = Some (spre ++ Some x :: spost) →
  i = length spre → j = length dpre →
  assign_copy E (Ptr bd j) (Ptr bs i) (World o (<[bd := dpre ++ Some z :: dpost]> h) n)
  = (Ret tt, World o (<[bd := dpre ++ Some x :: dpost]> h) (S n)).
Proof.
  intros HE Hb Hh -> ->. rewrite <- (insert_id h bs _ Hh).
  unfold assign_copy.
  erewrite bind_Ret; [|by apply read_under].
  erewrite bind_Ret; [|by apply read_at].
  erewrite bind_Ret; [|by apply call_nothrow].
  by apply set_cell_at.
Qed.

Lemma assign_loop_run o h n this rhs bd bs capd caps sd ss
      dpre dpost spre spost xs mid i :
  nothrow E →
  o !! this = Some {| data_ := {| buffer_ := Ptr bd 0; capacity_ := capd |}; size_ := sd |} →
  o !! rhs = Some {| data_ := {| buffer_ := Ptr bs 0; capacity_ := caps |}; size_ := ss |} →
  bs ≠ bd →
  h !! bs = Some (spre ++ (Some <$> xs) ++ spost) →
  i = length spre → i = length dpre → length mid = length xs →
  i + length xs ≤ capd → i + length xs ≤ ss → ss ≤ caps →
  assign_loop E this rhs i (length xs)
    (World o (<[bd := dpre ++ (Some <$> mid) ++ dpost]> h) n)
  = (Ret tt, World o (<[bd := dpre ++ (Some <$> xs) ++ dpost]> h) (n + length xs)).
Proof.
  intros HE Ht Hr Hb. revert n spre dpre mid i.
  induction xs as [|x xs IH]; intros n spre dpre mid i Hh Hs Hd Hm Hc1 Hc2 Hc3.
  - destruct mid; [|done]. simpl. by rewrite Nat.add_0_r.
  - destruct mid as [|c mid]; [done|]. rewrite !fmap_cons in *.
    cbn [assign_loop length app] in *.
    rewrite ?bind_assoc; erewrite bind_Ret; [|by apply data_at].
    rewrite ?bind_assoc; erewrite bind_Ret;
      [|apply RawMemory_at_run; cbn [data_ capacity_]; lia].
    rewrite ?bind_assoc; erewrite bind_Ret;
      [|eapply Vector_at_run; [done|lia|lia]].
    cbn [data_ buffer_ ptr_add Nat.add].
    rewrite ?bind_assoc; erewrite bind_Ret;
      [|by eapply assign_copy_run].
    snoc dpre.
    rewrite (IH _ (spre ++ [Some x]) _ mid (S i));
      rewrite ?length_app; simpl; try lia.
    + do 2 f_equal. lia.
    + by rewrite <- app_assoc.
Qed.

Lemma assign_prefix o h n this rhs b capd sd pr xs lr2 restr mid dpost :
  nothrow E →
  o !! this = Some {| data_ := {| buffer_ := Ptr b 0; capacity_ := capd |}; size_ := sd |} →
  beside o h rhs pr (xs ++ lr2) restr b →
  length mid = length xs → length xs ≤ capd →
  assign_loop E this rhs 0 (length xs) (World o (<[b := (Some <$> mid) ++ dpost]> h) n)
  = (Ret tt, World o (<[b := (Some <$> xs) ++ dpost]> h) (n + length xs)).
Proof.
  intros HE Ht [Hr Hp] Hm Hc. destruct pr as [|br off].
  - destruct Hp as [Hl _]. apply app_eq_nil in Hl as [-> _].
    destruct mid; [|done]. simpl. by rewrite Nat.add_0_r.
  - destruct Hp as (-> & Hb & Hh).
    eapply (assign_loop_run) with
      (dpre := []) (spre := []) (spost := (Some <$> lr2) ++ restr);
      try done; simpl; rewrite ?length_app; try lia.
    by rewrite Hh, fmap_app, <- app_assoc.
Qed.

Lemma copy_suffix o h n b pr lr1 xs restr dpre mid dpost :
  nothrow E →
  (match pr with
   | nullptr => lr1 ++ xs = [] ∧ restr = []
   | Ptr br off => off = 0 ∧ br ≠ b ∧ h !! br = Some ((Some <$> lr1 ++ xs) ++ restr)
   end) →
  length dpre = length lr1 → length mid = length xs →
  uninitialized_copy_n E (ptr_add pr (length lr1)) (length xs) (Ptr b (length lr1))
    (World o (<[b := dpre ++ mid ++ dpost]> h) n)
  = (Ret tt, World o (<[b := dpre ++ (Some <$> xs) ++ dpost]> h) (n + length xs)).
Proof.
  intros HE Hp Hd Hm. destruct pr as [|br off].
  - destruct Hp as [Hl _]. apply app_eq_nil in Hl as [_ ->].
    destruct mid; [|done]. simpl. by rewrite Nat.add_0_r.
  - destruct Hp as (-> & Hb & Hh). unfold uninitialized_copy_n. simpl.
    apply uninitialized_copy_loop_run with
      (spre := Some <$> lr1) (spost := restr);
      try done; rewrite ?length_fmap; try lia.
    by rewrite Hh, fmap_app, <- app_assoc.
Qed.

Lemma copy_assign_in_place w this rhs p l rest pr lr restr :
  nothrow E → this ≠ rhs →
  holds w this p l rest → holds w rhs pr lr restr → separate p pr →
  length lr ≤ length l + length rest →
  ∃ w' rest',
    copy_assign E this rhs w = (Ret tt, w') ∧
    holds w' this p lr rest' ∧
    length lr + length rest' = length l + length rest ∧
    holds w' rhs pr lr restr ∧
    rest' = replicate (length l - length lr) None ++ drop (length lr - length l) rest ∧
    nops w' = nops w + length lr.
Proof.
  intros HE Hne Ht [HVr Hpr] Hsep Hfit.
  apply holds_inv in Ht as (o & h & n & -> & HVt & Hp).
  simpl in HVr, Hpr.
  unfold copy_assign. rewrite decide_True by done.
  rewrite ?bind_assoc; erewrite bind_Ret; [|by apply Size_at].
  rewrite ?bind_assoc; erewrite bind_Ret; [|by apply Capacity_at].
  cbn [size_ data_ capacity_].
  rewrite decide_False by lia.
  rewrite ?bind_assoc; erewrite bind_Ret; [|by apply Size_at].
  rewrite ?bind_assoc; erewrite bind_Ret; [|by apply Size_at].
  cbn [size_].
  destruct p as [|b off].
  - destruct Hp as [-> ->]. simpl in Hfit.
    assert (lr = []) as -> by (destruct lr; [done|simpl in Hfit; lia]).
    simpl.
    rewrite ?bind_assoc; erewrite bind_Ret; [|done].
    rewrite ?bind_assoc; erewrite bind_Ret; [|by apply data_at].
    rewrite ?bind_assoc; erewrite bind_Ret; [|by apply data_at].
    rewrite ?bind_assoc; erewrite bind_Ret; [|done].
    rewrite ?bind_assoc; erewrite bind_Ret; [|by apply Size_at].
    erewrite set_size_at; [|done].
    eexists _, []. split; [done|]. split.
    { split; simpl; [by rewrite lookup_insert_eq|done]. }
    split; [done|].
    split; [split; simpl; [by rewrite lookup_insert_ne|done]|].
    split; [done|simpl; lia].
  - destruct Hp as (-> & Hc & Hh).
    assert (beside o h rhs pr lr restr b) as Hbes.
    { split; [done|]. destruct pr as [|br offr]; [done|].
      destruct Hpr as (-> & _ & Hhr). simpl in Hsep. repeat split; done. }
    assert (match pr with
            | nullptr => True
            | Ptr br _ => br ≠ b ∧ h !! br = Some ((Some <$> lr) ++ restr)
            end) as Hfr.
    { destruct Hbes as [_ Hbes]. destruct pr; [done|]. by destruct Hbes as (_ & ? & ?). }
    rewrite Hh. clear Hh.
    case_decide as Hcase.
    + (* the source is shorter: assign, then destroy the excess *)
      assert (length l = length (take (length lr) l) + length (drop (length lr) l))
        as Hl by (rewrite <- length_app; by rewrite take_drop).
      rewrite <- (take_drop (length lr) l) in HVt |- *.
      set (la := take (length lr) l) in *. set (lb := drop (length lr) l) in *.
      assert (length la = length lr) as Hla by (unfold la; rewrite length_take; lia).
      rewrite fmap_app, <- app_assoc.
      rewrite ?bind_assoc; erewrite bind_Ret; cycle 1.
      { eapply assign_prefix with (lr2 := []); try done.
        - by rewrite app_nil_r.
        - rewrite length_app. lia. }
      rewrite ?bind_assoc; erewrite bind_Ret; [|by apply data_at].
      cbn [GetAddress data_ buffer_ ptr_add Nat.add].
      rewrite ?bind_assoc; erewrite bind_Ret; cycle 1.
      { apply destroy_n_at; rewrite length_fmap; [done|].
        rewrite length_app. lia. }
      rewrite ?bind_assoc; erewrite bind_Ret; [|by apply Size_at].
      erewrite set_size_at; [|done].
      eexists _, (replicate (length lb) None ++ rest).
      split.
      { do 4 f_equal; rewrite ?length_app; lia. }
      split.
      { split; simpl.
        - rewrite lookup_insert_eq, !length_app, length_replicate.
          do 3 f_equal. lia.
        - rewrite lookup_insert_eq. repeat split; try done.
          + rewrite length_app, length_replicate. lia.
          + by replace (length (la ++ lb) - length lr) with (length lb)
              by (rewrite length_app; lia). }
      split; [rewrite !length_app, length_replicate; lia|].
      split.
      { split; simpl; [by rewrite lookup_insert_ne|].
        destruct pr as [|br offr]; [done|].
        destruct Hpr as (-> & Hcr & _), Hfr as [Hbr Hhr].
        repeat split; try done. by rewrite lookup_insert_ne. }
      split; [|simpl; lia].
      replace (length (la ++ lb) - length lr) with (length lb)
        by (rewrite length_app; lia).
      replace (length lr - length (la ++ lb)) with 0
        by (rewrite length_app; lia).
      done.
    + (* the source is at least as long: assign, then construct the rest *)
      rewrite <- (take_drop (length l) lr) in Hbes.
      set (lra := take (length l) lr) in *. set (lrb := drop (length l) lr) in *.
      assert (length lra = length l) as Hlra by (unfold lra; rewrite length_take; lia).
      assert (length lr = length lra + length lrb) as Hlr.
      { rewrite <- (take_drop (length l) lr) at 1. by rewrite length_app. }
      rewrite <- (take_drop (length lrb) rest).
      set (mid := take (length lrb) rest). set (rest' := drop (length lrb) rest).
      assert (length mid = length lrb) as Hmid by (unfold mid; rewrite length_take; lia).
      assert (length rest = length mid + length rest') as Hrest.
      { rewrite <- (take_drop (length lrb) rest) at 1. by rewrite length_app. }
      rewrite <- Hlra.
      rewrite ?bind_assoc; erewrite bind_Ret; cycle 1.
      { eapply assign_prefix; try done. lia. }
      rewrite ?bind_assoc; erewrite bind_Ret; [|by apply data_at].
      rewrite ?bind_assoc; erewrite bind_Ret; [|by apply data_at].
      cbn [GetAddress data_ buffer_ ptr_add Nat.add].
      replace (length lr - length lra) with (length lrb) by lia.
      rewrite ?bind_assoc; erewrite bind_Ret; cycle 1.
      { apply copy_suffix with (restr := restr); try done.
        - destruct Hbes as [_ Hbes]. destruct pr as [|br offr]; [done|].
          destruct Hbes as (? & ? & ?). done.
        - by rewrite length_fmap. }
      rewrite ?bind_assoc; erewrite bind_Ret; [|by apply Size_at].
      erewrite set_size_at; [|done].
      eexists _, rest'.
      split; [done|].
      split.
      { split; simpl.
        - rewrite lookup_insert_eq. do 3 f_equal. lia.
        - rewrite lookup_insert_eq. repeat split; try done; [lia|].
          rewrite <- (take_drop (length l) lr) at 1. fold lra lrb.
          by rewrite fmap_app, <- app_assoc. }
      split; [rewrite length_app; lia|].
      split.
      { split; simpl; [by rewrite lookup_insert_ne|].
        destruct pr as [|br offr]; [done|].
        destruct Hpr as (-> & Hcr & _), Hfr as [Hbr Hhr].
        repeat split; try done. by rewrite lookup_insert_ne. }
      split; [|simpl; lia].
      replace (length lra - length lr) with 0 by lia.
      replace (length lr - length lra) with (length lrb) by lia.
      rewrite drop_app_length'; done.
Qed.

(** *** Where a computation writes, and whether it can throw *)

Lemma confined_bind {A C} B (m : M T A) (k : A → M T C) :
  confined B m → (∀ a, confined B (k a)) → confined B (bind m k).
Proof.
  intros Hm Hk w r w'. unfold bind.
  destruct (m w) as [[a| | |] w1] eqn:Hmw; intros Hr;
    try (injection Hr as <- <-; by eapply Hm).
  destruct (Hm _ _ _ Hmw) as [Ho Hh], (Hk a _ _ _ Hr) as [Ho' Hh'].
  split; [congruence|]. intros b Hb. rewrite Hh', Hh; done.
Qed.

Lemma confined_on_throw {A} B (m : M T A) hdl :
  confined B m → confined B hdl → confined B (on_throw m hdl).
Proof.
  intros Hm Hh w r w'. unfold on_throw.
  destruct (m w) as [[a| | |] w1] eqn:Hmw; intros Hr;
    try (injection Hr as <- <-; by eapply Hm).
  assert (confined B (hdl ;; @throw T A)) as Hc.
  { apply confined_bind; [done|]. intros _ w2 r2 w2' [= <- <-]. done. }
  destruct (Hm _ _ _ Hmw) as [Ho Hh1], (Hc _ _ _ Hr) as [Ho' Hh'].
  split; [congruence|]. intros b Hb. rewrite Hh', Hh1; done.
Qed.

Lemma confined_noexcept {A} B (m : M T A) :
  confined B m → confined B (noexcept m).
Proof.
  intros Hm w r w'. unfold noexcept.
  destruct (m w) as [[a| | |] w1] eqn:Hmw; intros [= <- <-]; by eapply Hm.
Qed.

Lemma quiet_confined {A} B (m : M T A) : quiet m → confined B m.
Proof. intros Hm w r w' Hr. destruct (Hm _ _ _ Hr) as [? ->]. done. Qed.

Lemma quiet_bind {A C} (m : M T A) (k : A → M T C) :
  quiet m → (∀ a, quiet (k a)) → quiet (bind m k).
Proof.
  intros Hm Hk w r w'. unfold bind.
  destruct (m w) as [[a| | |] w1] eqn:Hmw; intros Hr;
    try (injection Hr as <- <-; by eapply Hm).
  destruct (Hm _ _ _ Hmw) as [Ho Hh], (Hk a _ _ _ Hr) as [Ho' Hh'].
  split; congruence.
Qed.

Lemma quiet_ret {A} (a : A) : quiet (@ret T A a).
Proof. by intros w r w' [= <- <-]. Qed.

Lemma quiet_undefined {A} : quiet (@undefined T A).
Proof. by intros w r w' [= <- <-]. Qed.

Lemma quiet_load this : quiet (load this).
Proof. intros w r w'. unfold load. by destruct (objs w !! this); intros [= <- <-]. Qed.

Lemma quiet_assert c : quiet (@assert T c).
Proof. intros w r w'. unfold assert. by destruct c; intros [= <- <-]. Qed.

Lemma quiet_data this : quiet (data this).
Proof. apply quiet_bind; [apply quiet_load|intros; apply quiet_ret]. Qed.

Lemma quiet_Size this : quiet (Size this).
Proof. apply quiet_bind; [apply quiet_load|intros; apply quiet_ret]. Qed.

Lemma quiet_Capacity this : quiet (Capacity this).
Proof. apply quiet_bind; [apply quiet_data|intros; apply quiet_ret]. Qed.

Lemma quiet_RawMemory_at r i : quiet (RawMemory_at r i).
Proof. apply quiet_bind; [apply quiet_assert|intros; apply quiet_ret]. Qed.

Lemma quiet_begin this : quiet (begin this).
Proof.
  apply quiet_bind; [apply quiet_Capacity|]. intros cap.
  case_decide; [apply quiet_ret|].
  apply quiet_bind; [apply quiet_data|]. intros. apply quiet_RawMemory_at.
Qed.

Lemma quiet_end this : quiet (end_ this).
Proof.
  apply quiet_bind; [apply quiet_Capacity|]. intros cap.
  case_decide; [apply quiet_ret|].
  apply quiet_bind; [apply quiet_data|]. intros.
  apply quiet_bind; [apply quiet_Size|]. intros. apply quiet_RawMemory_at.
Qed.

Lemma quiet_distance p q : quiet (distance p q).
Proof.
  unfold distance. destruct p, q; try apply quiet_ret; try apply quiet_undefined.
  case_decide; [apply quiet_ret|apply quiet_undefined].
Qed.

Lemma quiet_read p : quiet (read p).
Proof.
  intros w r w'. unfold read.
  by destruct (cell w p) as [[x|]|]; intros [= <- <-].
Qed.

Lemma quiet_tick k : quiet (tick E k).
Proof. intros w r w'. unfold tick. by destruct (throws E k (nops w)); intros [= <- <-]. Qed.

Lemma quiet_call k : quiet (call E k).
Proof.
  assert (∀ k, quiet (noexcept (tick E k))) as Hn.
  { intros k' w r w'. unfold noexcept.
    destruct (tick E k' w) as [[a| | |] w1] eqn:Ht; intros [= <- <-];
      by eapply quiet_tick. }
  destruct k; simpl; try apply quiet_tick.
  destruct (nothrow_move_constructible E); [apply Hn|apply quiet_tick].
Qed.

Lemma confined_set_cell B i c : confined B (set_cell (Ptr B i) c).
Proof.
  intros w r w'. unfold set_cell.
  destruct (heap w !! B) as [cells|]; [|by intros [= <- <-]].
  case_decide; intros [= <- <-]; [|done].
  split; [done|]. intros b Hb. simpl. by rewrite lookup_insert_ne.
Qed.

Lemma confined_destroy_n B i n : confined B (destroy_n (Ptr B i) n).
Proof.
  revert i. induction n as [|n IH]; intros i; simpl.
  - apply quiet_confined, quiet_ret.
  - apply confined_bind; [apply confined_set_cell|]. intros _. apply IH.
Qed.

Lemma confined_construct_copy B i src : confined B (construct_copy E (Ptr B i) src).
Proof.
  apply confined_bind; [apply quiet_confined, quiet_read|]. intros x.
  apply confined_bind; [apply quiet_confined, quiet_call|]. intros _.
  apply confined_set_cell.
Qed.

Lemma confined_construct_args B i a : confined B (construct_args E (Ptr B i) a).
Proof.
  destruct a; cbn [construct_args];
    (apply confined_bind; [apply quiet_confined, quiet_call|]);
    intros _; apply confined_set_cell.
Qed.

Lemma confined_uninitialized_copy_n B first n i :
  confined B (uninitialized_copy_n E first n (Ptr B i)).
Proof.
  unfold uninitialized_copy_n. generalize 0 as k.
  induction n as [|n IH]; intros k; simpl.
  - apply quiet_confined, quiet_ret.
  - apply confined_bind; [|intros _; apply IH].
    apply confined_on_throw;
      [apply confined_construct_copy|apply confined_destroy_n].
Qed.

Lemma no_throw_bind {A C} (m : M T A) (k : A → M T C) :
  no_throw m → (∀ a, no_throw (k a)) → no_throw (bind m k).
Proof.
  intros Hm Hk w w'. unfold bind.
  destruct (m w) as [[a| | |] w1] eqn:Hmw; try done.
  - apply Hk.
  - by apply Hm in Hmw.
Qed.

Lemma no_throw_on_throw {A} (m : M T A) hdl : no_throw m → no_throw (on_throw m hdl).
Proof.
  intros Hm w w'. unfold on_throw.
  destruct (m w) as [[a| | |] w1] eqn:Hmw; try done. by apply Hm in Hmw.
Qed.

Lemma no_throw_noexcept {A} (m : M T A) : no_throw (noexcept m).
Proof. intros w w'. unfold noexcept. by destruct (m w) as [[a| | |] w1]. Qed.

Lemma no_throw_ret {A} (a : A) : no_throw (@ret T A a).
Proof. done. Qed.

Lemma no_throw_undefined {A} : no_throw (@undefined T A).
Proof. done. Qed.

Lemma no_throw_load this : no_throw (load this).
Proof. intros w w'. unfold load. by destruct (objs w !! this). Qed.

Lemma no_throw_store this V : no_throw (store this V).
Proof. done. Qed.

Lemma no_throw_assert c : no_throw (@assert T c).
Proof. intros w w'. unfold assert. by destruct c. Qed.

Lemma no_throw_data this : no_throw (data this).
Proof. apply no_throw_bind; [apply no_throw_load|done]. Qed.

Lemma no_throw_Size this : no_throw (Size this).
Proof. apply no_throw_bind; [apply no_throw_load|done]. Qed.

Lemma no_throw_Capacity this : no_throw (Capacity this).
Proof. apply no_throw_bind; [apply no_throw_data|done]. Qed.

Lemma no_throw_RawMemory_at r i : no_throw (RawMemory_at r i).
Proof. apply no_throw_bind; [apply no_throw_assert|done]. Qed.

Lemma no_throw_begin this : no_throw (begin this).
Proof.
  apply no_throw_bind; [apply no_throw_Capacity|]. intros cap.
  case_decide; [done|].
  apply no_throw_bind; [apply no_throw_data|]. intros. apply no_throw_RawMemory_at.
Qed.

Lemma no_throw_end this : no_throw (end_ this).
Proof.
  apply no_throw_bind; [apply no_throw_Capacity|]. intros cap.
  case_decide; [done|].
  apply no_throw_bind; [apply no_throw_data|]. intros.
  apply no_throw_bind; [apply no_throw_Size|]. intros. apply no_throw_RawMemory_at.
Qed.

Lemma no_throw_distance p q : no_throw (distance p q).
Proof. unfold distance. destruct p, q; try done. by case_decide. Qed.

Lemma no_throw_read p : no_throw (read p).
Proof. intros w w'. unfold read. by destruct (cell w p) as [[x|]|]. Qed.

Lemma no_throw_set_cell p c : no_throw (set_cell p c).
Proof.
  intros w w'. unfold set_cell. destruct p as [|b i]; [done|].
  destruct (heap w !! b); [|done]. by case_decide.
Qed.

Lemma no_throw_destroy_n p n : no_throw (destroy_n p n).
Proof.
  revert p. induction n as [|n IH]; intros p; simpl; [done|].
  apply no_throw_bind; [apply no_throw_set_cell|]. intros _. apply IH.
Qed.

Lemma no_throw_Deallocate p : no_throw (Deallocate p).
Proof.
  intros w w'. unfold Deallocate. destruct p as [|b [|i]]; try done.
  by destruct (heap w !! b).
Qed.

Lemma no_throw_set_size this n : no_throw (set_size this n).
Proof. apply no_throw_bind; [apply no_throw_load|intros; apply no_throw_store]. Qed.

Lemma no_throw_RawMemory_Swap_local this r : no_throw (RawMemory_Swap_local this r).
Proof.
  apply no_throw_bind; [apply no_throw_load|]. intros V.
  apply no_throw_bind; [apply no_throw_store|done].
Qed.

(** With [is_nothrow_move_constructible], moving elements cannot throw. *)
Lemma no_throw_construct_move p src :
  nothrow_move_constructible E = true → no_throw (construct_move E p src).
Proof.
  intros HE. apply no_throw_bind; [apply no_throw_read|]. intros x.
  apply no_throw_bind.
  { simpl. rewrite HE. apply no_throw_noexcept. }
  intros _. apply no_throw_bind; [apply no_throw_set_cell|].
  intros _. apply no_throw_set_cell.
Qed.

Lemma no_throw_uninitialized_move_n first n result :
  nothrow_move_constructible E = true →
  no_throw (uninitialized_move_n E first n result).
Proof.
  intros HE. unfold uninitialized_move_n. generalize 0 as k.
  induction n as [|n IH]; intros k; simpl; [done|].
  apply no_throw_bind; [|intros _; apply IH].
  by apply no_throw_on_throw, no_throw_construct_move.
Qed.

Lemma throw_confined_bind {A C} B (m : M T A) (k : A → M T C) :
  confined B m → (∀ a, throw_confined B (k a)) → throw_confined B (bind m k).
Proof.
  intros Hm Hk w w'. unfold bind.
  destruct (m w) as [[a| | |] w1] eqn:Hmw; intros Hr; try done.
  - destruct (Hm _ _ _ Hmw) as [Ho Hh], (Hk a _ _ Hr) as [Ho' Hh'].
    split; [congruence|]. intros b Hb. rewrite Hh', Hh; done.
  - injection Hr as <-. by eapply Hm.
Qed.

Lemma confined_throw_confined {A} B (m : M T A) : confined B m → throw_confined B m.
Proof. intros Hm w w' Hr. by eapply Hm. Qed.

Lemma no_throw_throw_confined {A} B (m : M T A) : no_throw m → throw_confined B m.
Proof. intros Hm w w' Hr. by apply Hm in Hr. Qed.

(** *** The strong guarantee of the reallocating paths *)

Ltac solve_no_throw :=
  repeat first
    [ apply no_throw_ret
    | apply no_throw_begin | apply no_throw_end | apply no_throw_distance
    | apply no_throw_Size | apply no_throw_set_size | apply no_throw_data
    | apply no_throw_destroy_n | apply no_throw_set_cell
    | apply no_throw_Deallocate | apply no_throw_RawMemory_Swap_local
    | by apply no_throw_uninitialized_move_n
    | apply no_throw_on_throw
    | apply no_throw_bind; [|intro] ].

Ltac solve_confined :=
  repeat first
    [ apply confined_uninitialized_copy_n | apply confined_construct_args
    | apply confined_destroy_n | apply confined_set_cell
    | apply quiet_confined; first
        [ apply quiet_begin | apply quiet_end | apply quiet_distance
        | apply quiet_Size | apply quiet_data | apply quiet_ret ]
    | apply confined_on_throw
    | apply confined_bind; [|intro] ].

(** Unwinding through [~RawMemory] of the scratch block [B] after an
    exception that touched nothing but [B] puts the heap back. *)
Lemma unwind_restores {A} o h nn B cells cap (body : M T A) w' :
  h !! B = None → throw_confined B body →
  on_throw body (RawMemory_dtor {| buffer_ := Ptr B 0; capacity_ := cap |})
    (World o (<[B := cells]> h) nn) = (Throw, w') →
  objs w' = o ∧ heap w' = h.
Proof.
  intros HB Hbody. unfold on_throw.
  destruct (body _) as [[a| | |] w3] eqn:Hb; try done.
  destruct (Hbody _ _ Hb) as [Ho Hh]. simpl in Ho, Hh.
  unfold bind, RawMemory_dtor, Deallocate. simpl.
  destruct (heap w3 !! B) as [c3|] eqn:H3; [|done].
  intros [= <-]. simpl. split; [done|].
  apply map_eq. intros b. destruct (decide (b = B)) as [->|Hne].
  - by rewrite lookup_delete_eq.
  - by rewrite lookup_delete_ne, Hh, lookup_insert_ne.
Qed.

Lemma relocation_safe_cases :
  relocation_safe E →
  (nothrow_move_constructible E || negb (copy_constructible E) = true ∧
   nothrow_move_constructible E = true) ∨
  nothrow_move_constructible E || negb (copy_constructible E) = false.
Proof.
  unfold relocation_safe.
  destruct (nothrow_move_constructible E), (copy_constructible E);
    simpl; intros [?|?]; auto; discriminate.
Qed.

Lemma Reserve_strong w this n w' :
  relocation_safe E →
  Reserve E this n w = (Throw, w') → objs w' = objs w ∧ heap w' = heap w.
Proof.
  intros HT. destruct w as [o h nn]. unfold Reserve. unfold bind at 1.
  destruct (Capacity this _) as [[cap| | |] w0] eqn:Hcap;
    try (by apply no_throw_Capacity in Hcap); try done.
  assert (w0 = World o h nn) as ->.
  { revert Hcap. unfold Capacity, data, load, bind. simpl.
    by destruct (o !! this); intros [= <- <-]. }
  case_decide as Hn; [done|].
  erewrite bind_Ret; [|apply RawMemory_ctor_run; lia].
  unfold bind at 1.
  destruct (on_throw _ _ _) as [[a| | |] w2] eqn:Hot; try done.
  - intros Hr. exfalso. revert Hr.
    apply no_throw_bind; [apply no_throw_RawMemory_Swap_local|].
    intros. apply no_throw_Deallocate.
  - intros [= <-]. revert Hot. apply unwind_restores; [apply fresh_block|].
    apply throw_confined_bind; [apply quiet_confined, quiet_data|]. intros d.
    apply throw_confined_bind; [apply quiet_confined, quiet_Size|]. intros s.
    destruct (relocation_safe_cases HT) as [[-> Hmv]| ->].
    + apply no_throw_throw_confined, no_throw_bind;
        [by apply no_throw_uninitialized_move_n|].
      intros. apply no_throw_destroy_n.
    + apply throw_confined_bind; [apply confined_uninitialized_copy_n|].
      intros. apply no_throw_throw_confined, no_throw_destroy_n.
Qed.

Lemma EmplaceShared_strong w this V pos a w' :
  relocation_safe E →
  objs w !! this = Some V → size_ V = capacity_ (data_ V) →
  EmplaceShared E this pos a w = (Throw, w') → objs w' = objs w ∧ heap w' = heap w.
Proof.
  intros HT HV Hfull. destruct w as [o h nn]. simpl in HV.
  unfold EmplaceShared.
  rewrite ?bind_assoc; erewrite bind_Ret; [|by apply Size_at].
  rewrite ?bind_assoc; erewrite bind_Ret; [|by apply Capacity_at].
  rewrite decide_True by done.
  rewrite ?bind_assoc; erewrite bind_Ret;
    [|apply RawMemory_ctor_run; case_decide; lia].
  rewrite ?bind_assoc. unfold bind at 1.
  destruct (on_throw _ _ _) as [[r| | |] w2] eqn:Hot; try done.
  - intros Hr. exfalso. revert Hr. unfold RawMemory_dtor. solve_no_throw.
  - intros [= <-]. revert Hot. apply unwind_restores; [apply fresh_block|].
    cbn [GetAddress buffer_ ptr_add]. unfold cbegin, cend, destroy_at.
    apply throw_confined_bind; [solve_confined|]. intros cb.
    apply throw_confined_bind; [solve_confined|]. intros k.
    apply throw_confined_bind; [solve_confined|]. intros _.
    destruct (relocation_safe_cases HT) as [[-> Hmv]| ->].
    + apply no_throw_throw_confined. solve_no_throw.
    + apply throw_confined_bind; [solve_confined|]. intros _.
      apply throw_confined_bind; [solve_confined|]. intros _.
      apply no_throw_throw_confined. solve_no_throw.
Qed.

(** *** From [view] to the representation and back *)

Lemma holds_view w this p l rest :
  holds w this p l rest →
  view w this = Some (l, length l + length rest) ∧ buffer_of w this = Some p.
Proof.
  intros H. split.
  - apply view_holds. by exists p, rest.
  - destruct H as [HV _]. unfold buffer_of. by rewrite HV.
Qed.

Lemma view_buffer_holds w this l cap p :
  view w this = Some (l, cap) → buffer_of w this = Some p →
  ∃ rest, holds w this p l rest ∧ cap = length l + length rest.
Proof.
  intros Hv Hb. apply view_holds in Hv as (p' & rest & H & ->).
  exists rest. split; [|done].
  destruct H as [HV Hp]. unfold buffer_of in Hb. rewrite HV in Hb.
  simpl in Hb. injection Hb as <-. by split.
Qed.

Lemma view_ext w w' this :
  objs w' = objs w → heap w' = heap w → view w' this = view w this.
Proof. unfold view. by intros -> ->. Qed.

Lemma begin_holds w this p l rest :
  holds w this p l rest → begin this w = (Ret p, w).
Proof.
  intros [HV Hp]. destruct w as [o h n]. simpl in HV.
  destruct p as [|b off].
  - destruct Hp as [-> ->]. by eapply begin_null.
  - destruct Hp as (-> & Hc & _). by eapply begin_at.
Qed.

Lemma end_holds w this p l rest :
  holds w this p l rest → end_ this w = (Ret (position p (length l)), w).
Proof.
  intros [HV Hp]. destruct w as [o h n]. simpl in HV.
  destruct p as [|b off].
  - destruct Hp as [-> ->]. by eapply end_null.
  - destruct Hp as (-> & Hc & _). simpl. eapply end_at; [done|lia|lia].
Qed.

Lemma begin_view w this l cap p :
  view w this = Some (l, cap) → begin this w = (Ret p, w) →
  ∃ rest, holds w this p l rest ∧ cap = length l + length rest.
Proof.
  intros Hv Hb. apply view_holds in Hv as (p' & rest & H & ->).
  exists rest. split; [|done].
  rewrite (begin_holds w this p' l rest H) in Hb. by injection Hb as <-.
Qed.

Lemma read_holds w this b l1 x l2 rest :
  holds w this (Ptr b 0) (l1 ++ x :: l2) rest →
  read (Ptr b (length l1)) w = (Ret x, w).
Proof.
  intros [_ (_ & _ & Hb)]. unfold read, cell. rewrite Hb. simpl.
  rewrite fmap_app, fmap_cons, <- app_assoc. simpl.
  by rewrite list_lookup_middle by (by rewrite length_fmap).
Qed.

Lemma holds_nonempty_block w this p l rest :
  holds w this p l rest → 0 < length l + length rest → ∃ b, p = Ptr b 0.
Proof.
  intros [_ Hp] Hc. destruct p as [|b off].
  - destruct Hp as [-> ->]. simpl in Hc. lia.
  - destruct Hp as [-> _]. by exists b.
Qed.

Lemma PushBack_run w this p l rest v :
  nothrow E → holds w this p l rest →
  ∃ w' p' rest',
    PushBack E this v w = (Ret tt, w') ∧
    holds w' this p' (l ++ [v]) rest' ∧
    length (l ++ [v]) + length rest'
    = (if decide (length l = length l + length rest)
       then grown (length l) else length l + length rest).
Proof.
  intros HE H. unfold PushBack.
  erewrite bind_Ret; [|by eapply end_holds].
  destruct (EmplaceShared_run w this p l [] rest (ByCopy v) HE)
    as (w' & p' & rest' & Hrun & Hh & Hfull & Hroom);
    [by rewrite app_nil_r|].
  rewrite app_nil_r in Hfull.
  erewrite bind_Ret; [|exact Hrun].
  exists w', p', rest'. split; [done|]. split; [done|]. simpl in *.
  case_decide as Hd.
  - apply Hfull. destruct rest; [done|simpl in Hd; lia].
  - destruct Hroom as [_ Hr]; [intros ->; simpl in Hd; lia|].
    rewrite length_app. simpl. lia.
Qed.
(** *** A throwing copy makes the reallocating paths throw *)

Lemma call_ok k o h n :
  throws E k n = false → call E k (World o h n) = (Ret tt, World o h (S n)).
Proof.
  intros Hk. assert (tick E k (World o h n) = (Ret tt, World o h (S n))) as Ht.
  { unfold tick. simpl. by rewrite Hk. }
  destruct k; simpl; try done.
  destruct (nothrow_move_constructible E); [|done]. by apply noexcept_Ret.
Qed.

Lemma call_throws k o h n :
  k ≠ MoveCtor ∨ nothrow_move_constructible E = false →
  throws E k n = true → call E k (World o h n) = (Throw, World o h (S n)).
Proof.
  intros Hm Hk. assert (tick E k (World o h n) = (Throw, World o h (S n))) as Ht.
  { unfold tick. simpl. by rewrite Hk. }
  destruct k; simpl; try done.
  destruct Hm as [?| ->]; done.
Qed.

Lemma uninitialized_copy_loop_throws o h n bs bd spre xs1 x xs2 spost
      dpre dk m1 m2 so do_ k :
  bs ≠ bd →
  h !! bs = Some (spre ++ (Some <$> xs1 ++ x :: xs2) ++ spost) →
  so + k = length spre → do_ = length dpre → k = length dk →
  length m1 = length xs1 →
  (∀ j, j < length xs1 → throws E CopyCtor (n + j) = false) →
  throws E CopyCtor (n + length xs1) = true →
  uninitialized_copy_loop E (Ptr bs so) (Ptr bd do_) k (length (xs1 ++ x :: xs2))
    (World o (<[bd := dpre ++ dk ++ m1 ++ m2]> h) n)
  = (Throw,
     World o (<[bd := dpre ++ replicate (k + length xs1) None ++ m2]> h)
             (S (n + length xs1))).
Proof.
  intros Hb Hh. rewrite <- (insert_id h bs _ Hh). clear Hh.
  revert n spre dk m1 k.
  induction xs1 as [|y xs1 IH]; intros n spre dk m1 k Hs Hd Hk Hm Hquiet Hthrow.
  - destruct m1; [|done]. simpl in *.
    cbn [uninitialized_copy_loop].
    unfold bind at 1. unfold on_throw at 1. unfold construct_copy.
    erewrite bind_Ret; [|by apply read_under].
    unfold bind at 1. rewrite call_throws; [|by left|by rewrite Nat.add_0_r in Hthrow].
    unfold bind at 1.
    rewrite (destroy_n_at _ _ _ _ dpre dk); [|done|done].
    by rewrite !Nat.add_0_r.
  - destruct m1 as [|c m1]; [done|]. simpl in Hm.
    cbn [app length]. rewrite fmap_cons.
    cbn [uninitialized_copy_loop length ptr_add app] in *.
    erewrite bind_Ret; cycle 1.
    { apply on_throw_Ret. unfold construct_copy.
      erewrite bind_Ret; [|by apply read_under].
      erewrite bind_Ret; [|apply call_ok; rewrite <- (Nat.add_0_r n); apply Hquiet; lia].
      rewrite (app_assoc dpre). apply set_cell_at. rewrite length_app. lia. }
    rewrite <- app_assoc.
    rewrite (snoc_app spre), (snoc_app dk).
    rewrite (IH (S n) (spre ++ [Some y]) (dk ++ [Some y]) m1 (S k));
      rewrite ?length_app; simpl; try lia.
    + rewrite !Nat.add_succ_r. done.
    + intros j Hj. rewrite <- Nat.add_succ_r. apply Hquiet. lia.
    + by rewrite <- Nat.add_succ_r.
Qed.

(** When relocation copies and the copy of the element after [xs1] is
    the first to throw, [Reserve] throws, and all that has changed is the
    count of element operations. *)
Lemma Reserve_copy_throws (w : world T) this p xs1 x xs2 rest n :
  nothrow_move_constructible E || negb (copy_constructible E) = false →
  holds w this p (xs1 ++ x :: xs2) rest →
  length (xs1 ++ x :: xs2) + length rest < n →
  (∀ j, j < length xs1 → throws E CopyCtor (nops w + j) = false) →
  throws E CopyCtor (nops w + length xs1) = true →
  Reserve E this n w
  = (Throw, World (objs w) (heap w) (S (nops w + length xs1))).
Proof.
  intros Hmode H Hn Hquiet Hthrow.
  destruct (holds_nonempty_block _ _ _ _ _ H) as [b ->].
  { rewrite length_app. simpl. lia. }
  destruct H as [HV (_ & Hc & Hb)]. destruct w as [o h nn]. simpl in *.
  set (B := fresh (dom h)).
  assert (h !! B = None) as HB by apply fresh_block.
  assert (b ≠ B) as HbB by (intros ->; congruence).
  unfold Reserve.
  erewrite bind_Ret; [|by apply Capacity_at]. simpl.
  rewrite decide_False by lia.
  erewrite bind_Ret; [|apply RawMemory_ctor_run; lia]. fold B.
  unfold bind at 1. unfold on_throw at 1.
  erewrite bind_Ret; [|by apply data_at].
  erewrite bind_Ret; [|by apply Size_at].
  rewrite Hmode. cbn [GetAddress data_ buffer_ size_].
  unfold uninitialized_copy_n. unfold bind at 1.
  assert (replicate n (@None T)
          = [] ++ [] ++ replicate (length xs1) None ++
            replicate (n - length xs1) None) as ->.
  { simpl. rewrite <- replicate_add. f_equal.
    rewrite length_app in Hn. lia. }
  erewrite (uninitialized_copy_loop_throws _ _ _ _ _ [] xs1 x xs2 rest);
    try done; [|by rewrite length_replicate].
  unfold bind, RawMemory_dtor. simpl.
  rewrite lookup_insert_eq. unfold throw.
  by rewrite delete_insert_id.
Qed.

Lemma uninitialized_copy_loop_ok o h n bs bd spre spost dpre dpost xs mid so do_ k :
  bs ≠ bd →
  h !! bs = Some (spre ++ (Some <$> xs) ++ spost) →
  so + k = length spre → do_ + k = length dpre → length mid = length xs →
  (∀ j, j < length xs → throws E CopyCtor (n + j) = false) →
  uninitialized_copy_loop E (Ptr bs so) (Ptr bd do_) k (length xs)
    (World o (<[bd := dpre ++ mid ++ dpost]> h) n)
  = (Ret tt, World o (<[bd := dpre ++ (Some <$> xs) ++ dpost]> h) (n + length xs)).
Proof.
  intros Hb Hh. rewrite <- (insert_id h bs _ Hh). clear Hh.
  revert n spre dpre mid k.
  induction xs as [|x xs IH]; intros n spre dpre mid k Hs Hd Hm Hquiet.
  - destruct mid; [|done]. simpl. by rewrite Nat.add_0_r.
  - destruct mid as [|c mid]; [done|]. rewrite fmap_cons.
    cbn [uninitialized_copy_loop length ptr_add app] in *.
    erewrite bind_Ret; cycle 1.
    { apply on_throw_Ret. unfold construct_copy.
      erewrite bind_Ret; [|by apply read_under].
      erewrite bind_Ret; [|apply call_ok; rewrite <- (Nat.add_0_r n); apply Hquiet; lia].
      by apply set_cell_at. }
    rewrite (snoc_app spre (Some x) (_ ++ spost)),
      (snoc_app dpre (Some x) (mid ++ dpost)),
      (snoc_app dpre (Some x) ((Some <$> xs) ++ dpost)).
    rewrite IH; try (rewrite length_app; simpl; lia).
    + by rewrite Nat.add_succ_r.
    + lia.
    + intros j Hj. simpl. rewrite <- Nat.add_succ_r. apply Hquiet. lia.
Qed.

Lemma construct_args_ok o h n b pre c post i a :
  throws E (arg_op a) n = false → i = length pre →
  construct_args E (Ptr b i) a (World o (<[b := pre ++ c :: post]> h) n)
  = (Ret tt, World o (<[b := pre ++ Some (args_value a) :: post]> h) (S n)).
Proof.
  intros Ha ->. destruct a; cbn [construct_args args_value arg_op] in *;
    (erewrite bind_Ret; [|by apply call_ok]); by apply set_cell_at.
Qed.

Lemma construct_args_throws o h n p a :
  nothrow_move_constructible E = false →
  throws E (arg_op a) n = true →
  construct_args E p a (World o h n) = (Throw, World o h (S n)).
Proof.
  intros Hm Ha. destruct a; cbn [construct_args arg_op] in *;
    unfold bind; rewrite call_throws; auto.
Qed.

Lemma unwind_scratch {A} (body : M T A) o h n n' B cells cells' cap :
  h !! B = None →
  body (World o (<[B := cells]> h) n) = (Throw, World o (<[B := cells']> h) n') →
  on_throw body (RawMemory_dtor {| buffer_ := Ptr B 0; capacity_ := cap |})
    (World o (<[B := cells]> h) n)
  = (Throw, World o h n').
Proof.
  intros HB Hbody. unfold on_throw. rewrite Hbody.
  unfold bind, RawMemory_dtor, Deallocate, throw. simpl.
  rewrite lookup_insert_eq. by rewrite delete_insert_id.
Qed.

(** When relocation copies and operation [i] of the reallocating branch
    is the first to throw, [EmplaceShared] throws, and all that has
    changed is the count of element operations. *)
Lemma EmplaceShared_copy_throws (w : world T) this p l1 l2 a i :
  nothrow_move_constructible E || negb (copy_constructible E) = false →
  holds w this p (l1 ++ l2) [] →
  i ≤ length (l1 ++ l2) →
  (∀ j, j < i → throws E (nth_op a j) (nops w + j) = false) →
  throws E (nth_op a i) (nops w + i) = true →
  EmplaceShared E this (position p (length l1)) a w
  = (Throw, World (objs w) (heap w) (S (nops w + i))).
Proof.
  intros Hmode H Hi Hquiet Hthrow.
  assert (nothrow_move_constructible E = false) as Hnm.
  { by destruct (nothrow_move_constructible E). }
  pose proof H as [HV Hp]. destruct w as [o h nn]. simpl in HV, Hquiet, Hthrow |- *.
  rewrite Nat.add_0_r in HV.
  set (s := length (l1 ++ l2)) in *.
  assert (s = length l1 + length l2) as Hs by (unfold s; by rewrite length_app).
  set (cap' := if decide (s = 0) then 1 else s * 2).
  assert (s < cap') as Hcap' by (unfold cap'; case_decide; lia).
  set (B := fresh (dom h)).
  assert (h !! B = None) as HB by apply fresh_block.
  unfold EmplaceShared.
  rewrite ?bind_assoc; erewrite bind_Ret; [|by apply Size_at].
  rewrite ?bind_assoc; erewrite bind_Ret; [|by apply Capacity_at].
  cbn [size_ data_ capacity_].
  rewrite decide_True by done. fold cap'.
  rewrite ?bind_assoc; erewrite bind_Ret; [|apply RawMemory_ctor_run; lia].
  fold B. rewrite ?bind_assoc. unfold bind at 1.
  assert (replicate cap' (@None T)
          = replicate (length l1) None ++ None ::
            replicate (cap' - length l1 - 1) None) as Hcells.
  { change (None :: ?k) with (replicate 1 (@None T) ++ k).
    rewrite <- !replicate_add. f_equal. lia. }
  unfold cbegin, cend. cbn [GetAddress buffer_ ptr_add Nat.add].
  destruct (decide (i = 0)) as [->|Hi0].
  { (* the construction of the new element throws *)
    erewrite unwind_scratch. 2: exact HB. 2: {
      destruct p as [|b off].
      - destruct Hp as [Hl _]. apply app_eq_nil in Hl as [-> ->].
        subst s. simpl in HV.
        erewrite bind_Ret; [|by eapply begin_null].
        erewrite bind_Ret; [|done].
        unfold bind at 1. rewrite construct_args_throws; [done|done|].
        unfold nth_op in Hthrow. rewrite decide_True in Hthrow by done.
        by rewrite Nat.add_0_r in Hthrow.
      - destruct Hp as (-> & Hc & _). simpl in Hc.
        erewrite bind_Ret; [|eapply begin_at; [done|lia]].
        erewrite bind_Ret; [|apply distance_run; lia].
        unfold bind at 1. rewrite construct_args_throws; [done|done|].
        unfold nth_op in Hthrow. rewrite decide_True in Hthrow by done.
        by rewrite Nat.add_0_r in Hthrow. }
    by rewrite Nat.add_0_r. }
  destruct (holds_nonempty_block _ _ _ _ _ H) as [b ->]; [fold s; lia|].
  destruct Hp as (_ & _ & Hb). simpl in Hb. rewrite app_nil_r in Hb.
  assert (b ≠ B) as HbB by (intros ->; congruence).
  assert (throws E (arg_op a) nn = false) as Ha.
  { specialize (Hquiet 0). rewrite Nat.add_0_r in Hquiet. apply Hquiet. lia. }
  assert (∀ j, 0 < j → j < i → throws E CopyCtor (nn + j) = false) as Hq.
  { intros j Hj0 Hj. specialize (Hquiet j Hj). unfold nth_op in Hquiet.
    by rewrite decide_False in Hquiet by lia. }
  unfold nth_op in Hthrow. rewrite decide_False in Hthrow by done.
  rewrite Hcells. simpl.
  destruct (decide (i ≤ length l1)) as [Hpre|Hsuf].
  - (* a copy of the prefix throws *)
    assert (∃ xs1 x xs2, l1 = xs1 ++ x :: xs2 ∧ S (length xs1) = i)
      as (xs1 & x & xs2 & Hl1 & Hx).
    { exists (take (i - 1) l1).
      destruct (drop (i - 1) l1) as [|x xs2] eqn:Hd.
      - apply (f_equal length) in Hd. rewrite length_drop in Hd. simpl in Hd. lia.
      - exists x, xs2. split.
        + by rewrite <- Hd, take_drop.
        + rewrite length_take. lia. }
    erewrite unwind_scratch. 2: exact HB. 1: by rewrite <- Hx, Nat.add_succ_r.
    erewrite bind_Ret; [|eapply begin_at; [done|lia]].
    erewrite bind_Ret; [|apply distance_run; lia].
    rewrite Nat.sub_0_r.
    erewrite bind_Ret; [|apply construct_args_ok; [done|by rewrite length_replicate]].
    unfold bind at 1. unfold on_throw at 1.
    erewrite bind_Ret; [|eapply begin_at; [done|lia]].
    erewrite bind_Ret; [|eapply begin_at; [done|lia]].
    erewrite bind_Ret; [|apply distance_run; lia].
    rewrite Nat.sub_0_r, Hmode. unfold uninitialized_copy_n.
    assert (replicate (length l1) (@None T)
            = replicate (length xs1) None ++ replicate (length l1 - length xs1) None)
      as Hrep.
    { rewrite <- replicate_add. f_equal. rewrite Hl1, length_app. lia. }
    rewrite Hrep at 1. rewrite <- app_assoc.
    rewrite Hl1 at 1.
    assert (uninitialized_copy_loop E (Ptr b 0) (Ptr B 0) 0 (length (xs1 ++ x :: xs2))
              (World o (<[B := replicate (length xs1) None ++
                               replicate (length l1 - length xs1) None ++
                               Some (args_value a) ::
                               replicate (cap' - length l1 - 1) None]> h) (S nn))
            = (Throw,
               World o (<[B := replicate (length xs1) None ++
                               replicate (length l1 - length xs1) None ++
                               Some (args_value a) ::
                               replicate (cap' - length l1 - 1) None]> h)
                       (S (S nn + length xs1)))) as Hloop.
    { apply (uninitialized_copy_loop_throws o h (S nn) b B [] xs1 x xs2
               (Some <$> l2) [] [] (replicate (length xs1) None)); try done.
      - rewrite Hb, Hl1. simpl. by rewrite !fmap_app, <- !app_assoc.
      - by rewrite length_replicate.
      - intros j Hj. replace (S nn + j) with (nn + S j) by lia. apply Hq; lia.
      - by replace (S nn + length xs1) with (nn + i) by lia. }
    rewrite Hloop.
    unfold bind, destroy_at, throw.
    rewrite app_assoc, <- Hrep.
    rewrite set_cell_at by (by rewrite length_replicate).
    do 2 f_equal.
  - (* a copy of the suffix throws *)
    assert (∃ ys1 y ys2, l2 = ys1 ++ y :: ys2 ∧ S (length l1 + length ys1) = i)
      as (ys1 & y & ys2 & Hl2 & Hy).
    { exists (take (i - 1 - length l1) l2).
      destruct (drop (i - 1 - length l1) l2) as [|y ys2] eqn:Hd.
      - apply (f_equal length) in Hd. rewrite length_drop in Hd. simpl in Hd. lia.
      - exists y, ys2. split.
        + by rewrite <- Hd, take_drop.
        + rewrite length_take. lia. }
    erewrite unwind_scratch. 2: exact HB.
    1: by rewrite <- Hy, !Nat.add_succ_r, Nat.add_assoc.
    erewrite bind_Ret; [|eapply begin_at; [done|lia]].
    erewrite bind_Ret; [|apply distance_run; lia].
    rewrite Nat.sub_0_r.
    erewrite bind_Ret; [|apply construct_args_ok; [done|by rewrite length_replicate]].
    erewrite bind_Ret; cycle 1.
    { apply on_throw_Ret.
      erewrite bind_Ret; [|eapply begin_at; [done|lia]].
      erewrite bind_Ret; [|eapply begin_at; [done|lia]].
      erewrite bind_Ret; [|apply distance_run; lia].
      rewrite Nat.sub_0_r, Hmode. unfold uninitialized_copy_n.
      apply (uninitialized_copy_loop_ok _ _ _ _ _ [] (Some <$> l2) []); try done.
      - by rewrite Hb, fmap_app.
      - by rewrite length_replicate.
      - intros j Hj. replace (S nn + j) with (nn + S j) by lia. apply Hq; lia. }
    unfold bind at 1. unfold on_throw at 1.
    erewrite bind_Ret; [|eapply end_at; [done|lia|lia]].
    erewrite bind_Ret; [|apply distance_run; lia].
    erewrite bind_Ret; [|eapply begin_at; [done|lia]].
    erewrite bind_Ret; [|apply distance_run; lia].
    rewrite Nat.sub_0_r, Hmode. unfold uninitialized_copy_n.
    replace (s - length l1) with (length l2) by lia.
    assert (replicate (cap' - length l1 - 1) (@None T)
            = replicate (length ys1) None ++
              replicate (cap' - length l1 - 1 - length ys1) None) as Hrep.
    { rewrite <- replicate_add. f_equal. rewrite Hl2, length_app in Hs.
      simpl in Hs. lia. }
    rewrite Hrep. rewrite Hl2 at 1.
    assert (uninitialized_copy_loop E (Ptr b (length l1)) (Ptr B (length l1 + 1)) 0
              (length (ys1 ++ y :: ys2))
              (World o (<[B := [] ++ (Some <$> l1) ++ Some (args_value a) ::
                               replicate (length ys1) None ++
                               replicate (cap' - length l1 - 1 - length ys1) None]> h)
                       (S nn + length l1))
            = (Throw,
               World o (<[B := (Some <$> l1) ++ Some (args_value a) ::
                               replicate (length ys1) None ++
                               replicate (cap' - length l1 - 1 - length ys1) None]> h)
                       (S (S nn + length l1 + length ys1)))) as Hloop.
    { simpl. rewrite (snoc_app (Some <$> l1) (Some (args_value a))).
      apply (uninitialized_copy_loop_throws o h (S (nn + length l1)) b B
               (Some <$> l1) ys1 y ys2 [] ((Some <$> l1) ++ [Some (args_value a)])
               [] (replicate (length ys1) None)); try done.
      - rewrite Hb, Hl2. by rewrite !fmap_app, <- !app_assoc, app_nil_r.
      - by rewrite length_fmap.
      - rewrite length_app, length_fmap. simpl. lia.
      - by rewrite length_replicate.
      - intros j Hj. replace (S (nn + length l1) + j) with (nn + S (length l1 + j))
          by lia. apply Hq; lia.
      - by replace (S (nn + length l1) + length ys1) with (nn + i) by lia. }
    rewrite Hloop.
    rewrite ?bind_assoc.
    erewrite bind_Ret; [|eapply begin_at; [done|lia]].
    rewrite ?bind_assoc.
    erewrite bind_Ret; [|apply distance_run; lia].
    rewrite Nat.sub_0_r.
    rewrite ?bind_assoc.
    erewrite bind_Ret; [|apply destroy_n_front; by rewrite length_fmap].
    unfold destroy_at. rewrite ?bind_assoc.
    erewrite bind_Ret; [|apply set_cell_at; by rewrite length_replicate].
    unfold throw. do 2 f_equal.
Qed.


(** *** One statement at a time *)

(** Run the first statement of a sequence with the lemma [tac] proves. *)
Ltac step tac := rewrite ?bind_assoc; erewrite bind_Ret; [|tac].

Lemma holds_view_cap w this p l rest cap :
  holds w this p l rest → cap = length l + length rest →
  view w this = Some (l, cap).
Proof. intros H ->. by apply holds_view in H as [-> _]. Qed.

(** *** Construction and destruction *)

Lemma RawMemory_ctor_zero o h n :
  RawMemory_ctor 0 (World o h n)
  = (Ret {| buffer_ := nullptr; capacity_ := 0 |}, World o h n).
Proof. reflexivity. Qed.

Lemma store_at o h n this V :
  store this V (World o h n) = (Ret tt, World (<[this := V]> o) h n).
Proof. reflexivity. Qed.

Lemma Vector_sized_run o h n this k :
  nothrow E → k ≠ 0 →
  Vector_sized E this k (World o h n)
  = (Ret tt,
     World (<[this := {| data_ := {| buffer_ := Ptr (fresh (dom h)) 0; capacity_ := k |};
                         size_ := k |}]> o)
           (<[fresh (dom h) := Some <$> replicate k (value_init E)]> h)
           (n + k)).
Proof.
  intros HE Hk. unfold Vector_sized.
  step ltac:(by apply RawMemory_ctor_run).
  step ltac:(apply store_at).
  apply on_throw_Ret. unfold uninitialized_value_construct_n, GetAddress. cbn [buffer_].
  pose proof (uninitialized_value_construct_loop_run
                (<[this := {| data_ := {| buffer_ := Ptr (fresh (dom h)) 0; capacity_ := k |};
                              size_ := k |}]> o)
                h n (fresh (dom h)) [] (replicate k None) [] 0 0 k HE) as Hrun.
  simpl in Hrun. rewrite !app_nil_r in Hrun.
  rewrite Hrun; [|done|by rewrite length_replicate].
  by rewrite fmap_replicate.
Qed.

Lemma Vector_sized_zero o h n this :
  Vector_sized E this 0 (World o h n)
  = (Ret tt, World (<[this := empty_Vector]> o) h n).
Proof. reflexivity. Qed.

Lemma Vector_copy_run o h n this other b lo resto :
  nothrow E → this ≠ other → lo ≠ [] →
  holds (World o h n) other (Ptr b 0) lo resto →
  Vector_copy E this other (World o h n)
  = (Ret tt,
     World (<[this := {| data_ := {| buffer_ := Ptr (fresh (dom h)) 0;
                                     capacity_ := length lo |};
                         size_ := length lo |}]> o)
           (<[fresh (dom h) := Some <$> lo]> h)
           (n + length lo)).
Proof.
  intros HE Hne Hlo [HV (_ & _ & Hb)]. simpl in HV, Hb.
  set (B := fresh (dom h)).
  assert (h !! B = None) as HB by apply fresh_block.
  assert (b ≠ B) as HbB by (intros ->; congruence).
  assert (length lo ≠ 0) as Hlen by (destruct lo; simpl; [done|lia]).
  unfold Vector_copy.
  step ltac:(by apply Size_at). cbn [size_].
  step ltac:(by apply RawMemory_ctor_run). fold B.
  step ltac:(apply store_at).
  apply on_throw_Ret.
  step ltac:(by apply data_at; rewrite lookup_insert_ne).
  step ltac:(by apply Size_at; rewrite lookup_insert_ne).
  unfold uninitialized_copy_n, GetAddress. cbn [data_ buffer_ size_].
  pose proof (uninitialized_copy_loop_run
                (<[this := {| data_ := {| buffer_ := Ptr B 0; capacity_ := length lo |};
                              size_ := length lo |}]> o)
                h n b B [] resto [] [] lo (replicate (length lo) None) 0 0 0 HE HbB)
    as Hrun.
  simpl in Hrun. rewrite !app_nil_r in Hrun.
  apply Hrun; try done. by rewrite length_replicate.
Qed.

Lemma Vector_copy_empty o h n this other po resto :
  holds (World o h n) other po [] resto →
  Vector_copy E this other (World o h n)
  = (Ret tt, World (<[this := empty_Vector]> o) h n).
Proof.
  intros [HV _]. simpl in HV. unfold Vector_copy.
  step ltac:(by apply Size_at). cbn [size_ length].
  step ltac:(apply RawMemory_ctor_zero).
  step ltac:(apply store_at).
  destruct (decide (this = other)) as [->|Hne].
  - apply on_throw_Ret.
    step ltac:(by apply data_at; rewrite lookup_insert_eq).
    step ltac:(by apply Size_at; rewrite lookup_insert_eq).
    done.
  - apply on_throw_Ret.
    step ltac:(by apply data_at; rewrite lookup_insert_ne).
    step ltac:(by apply Size_at; rewrite lookup_insert_ne).
    done.
Qed.

Lemma Vector_dtor_block o h n this b l rest :
  holds (World o h n) this (Ptr b 0) l rest →
  Vector_dtor this (World o h n) = (Ret tt, World (delete this o) (delete b h) n).
Proof.
  intros H. apply holds_inv in H as (o' & h' & n' & [= <- <- <-] & HV & _ & _ & Hh).
  unfold Vector_dtor.
  step ltac:(by apply data_at).
  step ltac:(by apply Size_at).
  cbn [GetAddress data_ buffer_ size_].
  rewrite Hh.
  step ltac:(by apply destroy_n_front; rewrite length_fmap).
  unfold RawMemory_dtor. cbn [buffer_].
  step ltac:(eapply Deallocate_at, lookup_insert_eq).
  unfold remove. cbn [objs heap nops].
  by rewrite delete_insert_eq, <- Hh.
Qed.

Lemma Vector_dtor_null o h n this :
  o !! this = Some empty_Vector →
  Vector_dtor this (World o h n) = (Ret tt, World (delete this o) h n).
Proof.
  intros HV. unfold Vector_dtor.
  step ltac:(by apply data_at).
  step ltac:(by apply Size_at).
  reflexivity.
Qed.

(** *** [Swap] *)

Lemma RawMemory_Swap_distinct o h n this other Vt Vo :
  this ≠ other → o !! this = Some Vt → o !! other = Some Vo →
  RawMemory_Swap this other (World o h n)
  = (Ret tt,
     World (<[other := {| data_ := data_ Vt; size_ := size_ Vo |}]>
              (<[this := {| data_ := data_ Vo; size_ := size_ Vt |}]> o)) h n).
Proof.
  intros Hne Ht Ho. unfold RawMemory_Swap. apply noexcept_Ret.
  step ltac:(by apply data_at).
  step ltac:(by apply data_at).
  step ltac:(by apply set_buffer_at).
  step ltac:(by apply set_buffer_at; rewrite lookup_insert_ne).
  step ltac:(by apply data_at; rewrite lookup_insert_ne, lookup_insert_eq).
  step ltac:(by apply data_at; rewrite lookup_insert_eq).
  step ltac:(by apply set_capacity_at; rewrite lookup_insert_ne, lookup_insert_eq).
  erewrite set_capacity_at; [|by rewrite lookup_insert_ne, lookup_insert_eq].
  cbn [data_ buffer_ capacity_ size_].
  f_equal. f_equal. destruct Vt as [[bt ct] st], Vo as [[bo co] so]. simpl.
  apply map_eq. intros i.
  destruct (decide (i = other)) as [->|Hio]; [by lookups|].
  destruct (decide (i = this)) as [->|Hit]; by lookups.
Qed.

Lemma Swap_distinct o h n this other Vt Vo :
  this ≠ other → o !! this = Some Vt → o !! other = Some Vo →
  Swap this other (World o h n)
  = (Ret tt, World (<[other := Vt]> (<[this := Vo]> o)) h n).
Proof.
  intros Hne Ht Ho. unfold Swap. apply noexcept_Ret.
  step ltac:(by apply RawMemory_Swap_distinct).
  step ltac:(by apply Size_at; rewrite lookup_insert_ne, lookup_insert_eq).
  step ltac:(by apply Size_at; rewrite lookup_insert_eq).
  step ltac:(by apply set_size_at; rewrite lookup_insert_ne, lookup_insert_eq).
  erewrite set_size_at; [|by rewrite lookup_insert_ne, lookup_insert_eq].
  cbn [data_ size_].
  f_equal. f_equal. destruct Vt as [dt st], Vo as [do_ so]. simpl.
  apply map_eq. intros i.
  destruct (decide (i = other)) as [->|Hio]; [by lookups|].
  destruct (decide (i = this)) as [->|Hit]; by lookups.
Qed.

Lemma Swap_self o h n this V :
  o !! this = Some V → Swap this this (World o h n) = (Ret tt, World o h n).
Proof.
  intros Ht. unfold Swap. apply noexcept_Ret.
  assert (RawMemory_Swap this this (World o h n) = (Ret tt, World o h n)) as Hraw.
  { unfold RawMemory_Swap. apply noexcept_Ret.
    step ltac:(by apply data_at).
    step ltac:(by apply data_at).
    step ltac:(by apply set_buffer_at).
    step ltac:(by apply set_buffer_at; rewrite lookup_insert_eq).
    step ltac:(by apply data_at; rewrite lookup_insert_eq).
    step ltac:(by apply data_at; rewrite lookup_insert_eq).
    step ltac:(by apply set_capacity_at; rewrite lookup_insert_eq).
    erewrite set_capacity_at; [|by rewrite lookup_insert_eq].
    cbn [data_ buffer_ capacity_ size_].
    rewrite !insert_insert_eq. destruct V as [[bt ct] st]. simpl.
    by rewrite insert_id. }
  step ltac:(exact Hraw).
  step ltac:(by apply Size_at).
  step ltac:(by apply Size_at).
  step ltac:(by apply set_size_at).
  erewrite set_size_at; [|by rewrite lookup_insert_eq].
  cbn [data_ size_]. rewrite insert_insert_eq. destruct V as [dt st]. simpl.
  by rewrite insert_id.
Qed.

(** *** [PopBack] *)

Lemma PopBack_run w this p l x rest :
  holds w this p (l ++ [x]) rest →
  ∃ w',
    PopBack this w = (Ret tt, w') ∧
    holds w' this p l (None :: rest) ∧
    nops w' = nops w ∧
    (∀ i, i ≠ this → objs w' !! i = objs w !! i).
Proof.
  intros H. apply holds_inv in H as (o & h & n & -> & HV & Hp).
  rewrite length_app in HV. simpl in HV.
  destruct p as [|b off].
  { destruct Hp as [Hl _]. by destruct l. }
  destruct Hp as (-> & Hc & Hh). rewrite Hh. clear Hh.
  unfold PopBack.
  eexists. split.
  { apply noexcept_Ret.
    step ltac:(by apply data_at).
    step ltac:(by apply Size_at).
    cbn [size_]. rewrite Nat.add_1_r.
    cbn [GetAddress data_ buffer_ ptr_add Nat.add].
    rewrite fmap_app, <- app_assoc.
    step ltac:(apply (destroy_n_at _ _ _ _ (Some <$> l) (Some <$> [x]) rest);
               [by rewrite length_fmap|done]).
    by apply set_size_at. }
  split; [|split; [done|]].
  - split; simpl.
    + rewrite lookup_insert_eq. do 3 f_equal. simpl. lia.
    + rewrite lookup_insert_eq. repeat split; try done.
      rewrite length_app in Hc. simpl in *. lia.
  - intros i Hi. simpl. by rewrite lookup_insert_ne.
Qed.

Lemma PopBack_empty w this p rest :
  holds w this p [] rest → PopBack this w = (Undefined, w).
Proof.
  intros [HV _]. destruct w as [o h n]. simpl in HV.
  unfold PopBack, noexcept.
  rewrite ?bind_assoc. erewrite bind_Ret; [|by apply data_at].
  erewrite bind_Ret; [|by apply Size_at]. done.
Qed.

(** *** Copy assignment with reallocation *)

Lemma alloca_at o h n :
  @alloca T (World o h n) = (Ret (fresh (dom o)), World o h n).
Proof. reflexivity. Qed.

Lemma fresh_object o : o !! fresh (dom o) = None.
Proof. apply not_elem_of_dom, is_fresh. Qed.

Lemma copy_assign_realloc w this rhs p l rest pr lr restr :
  nothrow E → this ≠ rhs →
  holds w this p l rest → holds w rhs pr lr restr → separate p pr →
  length l + length rest < length lr →
  ∃ w' B,
    copy_assign E this rhs w = (Ret tt, w') ∧
    holds w' this (Ptr B 0) lr [] ∧
    holds w' rhs pr lr restr ∧
    heap w !! B = None ∧
    (∀ i, i ≠ this → objs w' !! i = objs w !! i) ∧
    (∀ b', Ptr b' 0 ≠ p → b' ≠ B → heap w' !! b' = heap w !! b') ∧
    (∀ b, p = Ptr b 0 → heap w' !! b = None) ∧
    nops w' = nops w + length lr.
Proof.
  intros HE Hne H Hr Hsep Hlen.
  destruct w as [o h n].
  pose proof H as [HV Hp]. pose proof Hr as [HVr Hpr]. simpl in HV, HVr, Hp, Hpr.
  assert (lr ≠ []) as Hlr by (intros ->; simpl in Hlen; lia).
  destruct (holds_nonempty_block _ _ _ _ _ Hr) as [br ->]; [lia|].
  destruct Hpr as (_ & _ & Hbr).
  set (c := fresh (dom o)).
  assert (o !! c = None) as Hc by apply fresh_object.
  assert (c ≠ this) as Hct by (intros Heq; rewrite Heq in Hc; congruence).
  assert (c ≠ rhs) as Hcr by (intros Heq; rewrite Heq in Hc; congruence).
  set (B := fresh (dom h)).
  assert (h !! B = None) as HB by apply fresh_block.
  assert (br ≠ B) as HbrB by (intros ->; congruence).
  set (Vt := {| data_ := {| buffer_ := p; capacity_ := length l + length rest |};
                size_ := length l |}) in *.
  set (Vc := {| data_ := {| buffer_ := Ptr B 0; capacity_ := length lr |};
                size_ := length lr |}).
  set (o2 := <[c := Vt]> (<[this := Vc]> (<[c := Vc]> o))).
  assert (∃ h3,
            Vector_dtor c (World o2 (<[B := Some <$> lr]> h) (n + length lr))
            = (Ret tt, World (delete c o2) h3 (n + length lr)) ∧
            h3 !! B = Some (Some <$> lr) ∧
            (∀ b', Ptr b' 0 ≠ p → b' ≠ B → h3 !! b' = h !! b') ∧
            (∀ b, p = Ptr b 0 → h3 !! b = None))
    as (h3 & Hdtor & H3B & H3o & H3b).
  { destruct p as [|b off].
    - destruct Hp as [-> ->]. exists (<[B := Some <$> lr]> h). split.
      + apply Vector_dtor_null. unfold o2. by rewrite lookup_insert_eq.
      + split; [by rewrite lookup_insert_eq|]. split; [|done].
        intros b' _ Hb'. by rewrite lookup_insert_ne.
    - destruct Hp as (-> & Hcap & Hb).
      assert (b ≠ B) as HbB by (intros ->; congruence).
      exists (delete b (<[B := Some <$> lr]> h)). split.
      + apply (Vector_dtor_block _ _ _ _ _ l rest). split; simpl.
        * unfold o2. by rewrite lookup_insert_eq.
        * by rewrite lookup_insert_ne.
      + split; [by rewrite lookup_delete_ne, lookup_insert_eq|]. split.
        * intros b' Hb' Hb'B.
          rewrite lookup_delete_ne by congruence. by rewrite lookup_insert_ne.
        * intros b0 [= <-]. by rewrite lookup_delete_eq. }
  assert ((delete c o2) !! this = Some Vc) as H2t.
  { unfold o2. by rewrite lookup_delete_ne, lookup_insert_ne, lookup_insert_eq. }
  assert ((delete c o2) !! rhs = o !! rhs) as H2r.
  { unfold o2. rewrite lookup_delete_ne by done. by lookups. }
  eexists _, B. split.
  { unfold copy_assign. rewrite decide_True by done.
    step ltac:(by apply Size_at). cbn [size_].
    step ltac:(by apply Capacity_at). cbn [data_ capacity_].
    rewrite decide_True by done.
    step ltac:(apply alloca_at). fold c.
    step ltac:(by apply (Vector_copy_run _ _ _ _ _ br lr restr)).
    fold B. fold Vc.
    step ltac:(apply (Swap_distinct _ _ _ this c Vt Vc); by lookups).
    fold o2.
    step ltac:(exact Hdtor).
    step ltac:(apply Size_at; rewrite H2r; exact HVr). cbn [size_].
    by apply set_size_at. }
  cbn [objs heap nops data_ size_].
  split; [|split; [|split; [done|split; [|split; [|split]]]]]; try done.
  - split; simpl; [rewrite lookup_insert_eq; unfold Vc; simpl; do 3 f_equal; lia|].
    rewrite app_nil_r. repeat split; try done.
    simpl. lia.
  - split; simpl.
    + by rewrite lookup_insert_ne, H2r.
    + repeat split; try done; [lia|].
      rewrite H3o; [done| |done]. intros [= <-]. simpl in Hsep. done.
  - intros i Hi. rewrite lookup_insert_ne by done.
    destruct (decide (i = c)) as [->|Hic].
    + by rewrite lookup_delete_eq, Hc.
    + unfold o2. rewrite lookup_delete_ne by done. by lookups.
Qed.

(** *** Where the storage goes when it is reallocated *)

Lemma Reserve_grow_heap w this p l rest n :
  nothrow E → holds w this p l rest → length l + length rest < n →
  ∃ w' B,
    Reserve E this n w = (Ret tt, w') ∧
    holds w' this (Ptr B 0) l (replicate (n - length l) None) ∧
    heap w !! B = None ∧
    (∀ i, i ≠ this → objs w' !! i = objs w !! i) ∧
    (∀ b', Ptr b' 0 ≠ p → b' ≠ B → heap w' !! b' = heap w !! b') ∧
    (∀ b, p = Ptr b 0 → heap w' !! b = None) ∧
    nops w' = nops w + length l.

Proof.
  intros HE [HV Hp] Hn. destruct w as [o h nn]. simpl in HV, Hp.
  set (B := fresh (dom h)).
  assert (h !! B = None) as HB by apply fresh_block.
  unfold Reserve.
  erewrite bind_Ret; [|by apply Capacity_at]. simpl.
  rewrite decide_False by lia.
  erewrite bind_Ret; [|apply RawMemory_ctor_run; lia]. fold B.
  destruct p as [|b off].
  - destruct Hp as [-> ->]. simpl in *.
    erewrite bind_Ret; cycle 1.
    { apply on_throw_Ret.
      erewrite bind_Ret; [|by apply data_at].
      erewrite bind_Ret; [|by apply Size_at]. simpl.
      by destruct (_ || _). }
    erewrite bind_Ret; [|by apply RawMemory_Swap_local_at]. simpl.
    eexists _, B. split; [done|].
    split; [|split; [done|split; [|split; [|split; [done|simpl; lia]]]]].
    + split; simpl.
      * rewrite lookup_insert_eq, length_replicate. do 3 f_equal. lia.
      * rewrite lookup_insert_eq, length_replicate, Nat.sub_0_r.
        repeat split; try done.
    + intros i Hi. simpl. by rewrite lookup_insert_ne.
    + intros b' _ Hb'. simpl. by rewrite lookup_insert_ne.
  - destruct Hp as (-> & Hc & Hb).
    assert (b ≠ B) as HbB by (intros ->; congruence).
    assert (replicate n (@None T)
            = [] ++ replicate (length l) None ++ replicate (n - length l) None) as Hrep.
    { simpl. rewrite <- replicate_add. f_equal. lia. }
    erewrite bind_Ret; cycle 1.
    { apply on_throw_Ret.
      erewrite bind_Ret; [|by apply data_at].
      erewrite bind_Ret; [|by apply Size_at]. simpl.
      unfold GetAddress. simpl.
      erewrite bind_Ret; cycle 1.
      { rewrite Hrep. apply (relocation_run _ _ _ _ _ [] rest); try done.
        by rewrite length_replicate. }
      rewrite insert_insert_ne by done.
      apply (destroy_n_at _ _ _ _ [] (Some <$> relocated l) rest); [done|].
      by rewrite length_fmap, length_relocated. }
    erewrite bind_Ret; [|by apply RawMemory_Swap_local_at].
    unfold RawMemory_dtor. cbn [data_ buffer_].
    erewrite Deallocate_at; [|by apply lookup_insert_eq].
    eexists _, B. split; [done|].
    split; [|split; [done|split; [|split; [|split; [|done]]]]].
    + split; simpl.
      * rewrite lookup_insert_eq, length_replicate. do 3 f_equal. lia.
      * rewrite lookup_delete_ne, lookup_insert_ne, lookup_insert_eq by done.
        rewrite length_replicate. repeat split; try done. lia.
    + intros i Hi. simpl. by rewrite lookup_insert_ne.
    + intros b' Hb' Hb'B. simpl.
      rewrite lookup_delete_ne by congruence.
      by rewrite !lookup_insert_ne by congruence.
    + intros b0 [= <-]. simpl. by rewrite lookup_delete_eq.
Qed.

Lemma EmplaceShared_first_heap w this a :
  nothrow E → holds w this nullptr [] [] →
  ∃ w' B,
    EmplaceShared E this nullptr a w = (Ret (Ptr B 0), w') ∧
    holds w' this (Ptr B 0) [args_value a] [] ∧
    heap w !! B = None ∧
    (∀ i, i ≠ this → objs w' !! i = objs w !! i) ∧
    (∀ b', b' ≠ B → heap w' !! b' = heap w !! b') ∧
    nops w' = S (nops w).
Proof.
  intros HE [HV _]. destruct w as [o h nn]. simpl in HV.
  set (B := fresh (dom h)).
  unfold EmplaceShared.
  rewrite ?bind_assoc; erewrite bind_Ret; [|by apply Size_at].
  rewrite ?bind_assoc; erewrite bind_Ret; [|by apply Capacity_at]. cbn [size_ data_ capacity_].
  rewrite !decide_True by done.
  rewrite ?bind_assoc; erewrite bind_Ret; [|by apply RawMemory_ctor_run]. fold B.
  rewrite ?bind_assoc; erewrite bind_Ret; cycle 1.
  { apply on_throw_Ret. unfold cbegin.
    rewrite ?bind_assoc; erewrite bind_Ret; [|by eapply begin_null].
    rewrite ?bind_assoc; erewrite bind_Ret; [|done]. cbn [GetAddress buffer_ ptr_add Nat.add].
    rewrite ?bind_assoc; erewrite bind_Ret; [|by apply (construct_args_at _ _ _ _ [] None [])].
    rewrite ?bind_assoc; erewrite bind_Ret; cycle 1.
    { apply on_throw_Ret.
      rewrite ?bind_assoc; erewrite bind_Ret; [|by eapply begin_null].
      rewrite ?bind_assoc; erewrite bind_Ret; [|by eapply begin_null].
      rewrite ?bind_assoc; erewrite bind_Ret; [|done]. by destruct (_ || _). }
    rewrite ?bind_assoc; erewrite bind_Ret; cycle 1.
    { apply on_throw_Ret. unfold cend.
      rewrite ?bind_assoc; erewrite bind_Ret; [|by eapply end_null].
      rewrite ?bind_assoc; erewrite bind_Ret; [|done].
      rewrite ?bind_assoc; erewrite bind_Ret; [|by eapply begin_null].
      rewrite ?bind_assoc; erewrite bind_Ret; [|done]. by destruct (_ || _). }
    rewrite ?bind_assoc; erewrite bind_Ret; [|by eapply begin_null].
    rewrite ?bind_assoc; erewrite bind_Ret; [|by apply Size_at]. done. }
  rewrite ?bind_assoc; erewrite bind_Ret; [|by apply RawMemory_Swap_local_at].
  rewrite ?bind_assoc; erewrite bind_Ret; [|done]. cbn [size_].
  rewrite ?bind_assoc; erewrite bind_Ret; [|done].
  rewrite ?bind_assoc; erewrite bind_Ret; [|by apply Size_at, lookup_insert_eq].
  rewrite ?bind_assoc; erewrite bind_Ret; [|by apply set_size_at, lookup_insert_eq].
  eexists _, B. split; [done|].
  split; [|split; [apply fresh_block|split; [|split; [|done]]]].
  - split; simpl.
    + by rewrite insert_insert_eq, lookup_insert_eq.
    + rewrite lookup_insert_eq. repeat split; try done. lia.
  - intros i Hi. simpl. by rewrite !lookup_insert_ne.
  - intros b' Hb'. simpl. by rewrite lookup_insert_ne.
Qed.

Lemma EmplaceShared_grow_heap w this b l1 l2 a :
  nothrow E → holds w this (Ptr b 0) (l1 ++ l2) [] →
  ∃ w' B,
    EmplaceShared E this (Ptr b (length l1)) a w = (Ret (Ptr B (length l1)), w') ∧
    holds w' this (Ptr B 0) (l1 ++ args_value a :: l2)
          (replicate (length (l1 ++ l2) - 1) None) ∧
    heap w !! B = None ∧
    (∀ i, i ≠ this → objs w' !! i = objs w !! i) ∧
    (∀ b', b' ≠ b → b' ≠ B → heap w' !! b' = heap w !! b') ∧
    heap w' !! b = None ∧
    nops w' = S (nops w + length (l1 ++ l2)).
Proof.
  intros HE [HV (_ & Hc & Hb)]. destruct w as [o h nn]. simpl in HV, Hb.
  rewrite app_nil_r in Hb. simpl in Hc, HV.
  rewrite Nat.add_0_r in HV, Hc.
  set (s := length (l1 ++ l2)) in *.
  assert (s = length l1 + length l2) as Hs by (unfold s; by rewrite length_app).
  set (B := fresh (dom h)).
  assert (h !! B = None) as HB by apply fresh_block.
  assert (b ≠ B) as HbB by (intros ->; congruence).
  unfold EmplaceShared.
  rewrite ?bind_assoc; erewrite bind_Ret; [|by apply Size_at].
  rewrite ?bind_assoc; erewrite bind_Ret; [|by apply Capacity_at]. cbn [size_ data_ capacity_].
  rewrite decide_True by done. rewrite decide_False by lia.
  rewrite ?bind_assoc; erewrite bind_Ret; [|apply RawMemory_ctor_run; lia]. fold B.
  assert (replicate (s * 2) (@None T)
          = replicate (length l1) None ++ None ::
            replicate (length l2) None ++ replicate (s - 1) None) as ->.
  { change (None :: ?k) with (replicate 1 (@None T) ++ k).
    rewrite <- !replicate_add. f_equal. lia. }
  rewrite ?bind_assoc; erewrite bind_Ret; cycle 1.
  { apply on_throw_Ret. unfold cbegin, cend.
    rewrite ?bind_assoc; erewrite bind_Ret; [|by eapply begin_at].
    rewrite ?bind_assoc; erewrite bind_Ret; [|apply distance_run; lia].
    rewrite Nat.sub_0_r. cbn [GetAddress buffer_ ptr_add Nat.add].
    rewrite ?bind_assoc; erewrite bind_Ret; [|apply construct_args_at; [done|by rewrite length_replicate]].
    rewrite ?bind_assoc; erewrite bind_Ret; cycle 1.
    { apply on_throw_Ret.
      rewrite ?bind_assoc; erewrite bind_Ret; [|by eapply begin_at].
      rewrite ?bind_assoc; erewrite bind_Ret; [|by eapply begin_at].
      rewrite ?bind_assoc; erewrite bind_Ret; [|apply distance_run; lia].
      rewrite Nat.sub_0_r.
      apply relocation_run with
        (spre := []) (spost := Some <$> l2) (xs := l1) (dpre := []); try done.
      - by rewrite Hb, fmap_app.
      - by rewrite length_replicate. }
    rewrite ?bind_assoc; erewrite bind_Ret; cycle 1.
    { apply on_throw_Ret.
      rewrite ?bind_assoc; erewrite bind_Ret; [|by eapply end_at].
      rewrite ?bind_assoc; erewrite bind_Ret; [|apply distance_run; lia].
      rewrite ?bind_assoc; erewrite bind_Ret; [|by eapply begin_at].
      rewrite ?bind_assoc; erewrite bind_Ret; [|apply distance_run; lia].
      rewrite Nat.sub_0_r. cbn [ptr_add Nat.add].
      rewrite (snoc_app (Some <$> l1)).
      apply relocation_run with
        (spre := Some <$> relocated l1) (spost := []) (xs := l2)
        (dpre := (Some <$> l1) ++ [Some (args_value a)]); try done.
      - by rewrite lookup_insert_eq, app_nil_r.
      - by rewrite length_fmap, length_relocated.
      - rewrite length_app, length_fmap. simpl. lia.
      - by rewrite length_replicate.
      - lia. }
    rewrite ?bind_assoc; erewrite bind_Ret; [|by eapply begin_at].
    rewrite ?bind_assoc; erewrite bind_Ret; [|by apply Size_at]. cbn [size_].
    rewrite ?bind_assoc; erewrite bind_Ret; cycle 1.
    { rewrite insert_insert_ne by done.
      rewrite app_assoc. apply destroy_n_front.
      rewrite length_app, !length_fmap, !length_relocated. lia. }
    done. }
  rewrite ?bind_assoc; erewrite bind_Ret; [|by apply RawMemory_Swap_local_at].
  rewrite ?bind_assoc; erewrite bind_Ret; cycle 1.
  { unfold RawMemory_dtor. cbn [data_ buffer_].
    by eapply Deallocate_at, lookup_insert_eq. }
  rewrite ?bind_assoc; erewrite bind_Ret; [|done].
  rewrite ?bind_assoc; erewrite bind_Ret; [|by apply Size_at, lookup_insert_eq].
  rewrite ?bind_assoc; erewrite bind_Ret; [|by apply set_size_at, lookup_insert_eq].
  eexists _, B. split; [done|].
  split; [|split; [done|split; [|split; [|split; [|simpl; lia]]]]].
  - split; simpl.
    + rewrite insert_insert_eq, lookup_insert_eq.
      rewrite length_app, length_replicate. simpl. do 3 f_equal; lia.
    + rewrite lookup_delete_ne, lookup_insert_ne, lookup_insert_eq by done.
      repeat split; try done.
      * rewrite length_app. simpl. lia.
      * rewrite fmap_app, fmap_cons, <- !app_assoc. done.
  - intros i Hi. simpl. by rewrite !lookup_insert_ne.
  - intros b' Hb' Hb'B. simpl.
    rewrite lookup_delete_ne by done. by rewrite !lookup_insert_ne by done.
  - simpl. by rewrite lookup_delete_eq.
Qed.

Lemma EmplaceShared_full_heap w this p l1 l2 a :
  nothrow E → holds w this p (l1 ++ l2) [] →
  ∃ w' B rest',
    EmplaceShared E this (position p (length l1)) a w = (Ret (Ptr B (length l1)), w') ∧
    holds w' this (Ptr B 0) (l1 ++ args_value a :: l2) rest' ∧
    length (l1 ++ args_value a :: l2) + length rest' = grown (length (l1 ++ l2)) ∧
    heap w !! B = None ∧
    (∀ i, i ≠ this → objs w' !! i = objs w !! i) ∧
    (∀ b', Ptr b' 0 ≠ p → b' ≠ B → heap w' !! b' = heap w !! b') ∧
    (∀ b, p = Ptr b 0 → heap w' !! b = None) ∧
    nops w' = S (nops w + length (l1 ++ l2)).
Proof.
  intros HE H. destruct p as [|b off].
  - assert (l1 ++ l2 = []) as Hl by (destruct H as [_ [? _]]; done).
    apply app_eq_nil in Hl as [-> ->].
    destruct (EmplaceShared_first_heap w this a HE H)
      as (w' & B & Hrun & Hh & HB & Ho & Hhp & Hn).
    exists w', B, []. split; [exact Hrun|]. split; [exact Hh|].
    split; [done|]. split; [done|]. split; [done|].
    split; [intros b' _; apply Hhp|]. split; [done|]. simpl. lia.
  - assert (off = 0) as -> by (destruct H as [_ [? _]]; done).
    destruct (EmplaceShared_grow_heap w this b l1 l2 a HE H)
      as (w' & B & Hrun & Hh & HB & Ho & Hhp & Hold & Hn).
    exists w', B, (replicate (length (l1 ++ l2) - 1) None).
    split; [exact Hrun|]. split; [exact Hh|]. split.
    { destruct H as [_ (_ & Hc & _)].
      rewrite length_replicate. unfold grown.
      rewrite !length_app in *. simpl in *.
      rewrite decide_False by lia. lia. }
    split; [done|]. split; [done|]. split.
    { intros b' Hb'. apply Hhp. congruence. }
    split; [|done]. by intros b0 [= <-].
Qed.


(** *** Appending *)

Lemma EmplaceBack_room w this p l c rest a :
  nothrow E → holds w this p l (c :: rest) →
  ∃ w',
    EmplaceBack E this a w = (Ret (position p (length l)), w') ∧
    holds w' this p (l ++ [args_value a]) rest ∧
    nops w' = S (nops w).
Proof.
  intros HE H. unfold EmplaceBack.
  step ltac:(by eapply end_holds).
  destruct (holds_nonempty_block _ _ _ _ _ H) as [b ->]; [simpl; lia|].
  apply (EmplaceShared_end w this b l c rest a HE H).
Qed.

Lemma EmplaceBack_full w this p l a :
  nothrow E → holds w this p l [] →
  ∃ w' B rest',
    EmplaceBack E this a w = (Ret (Ptr B (length l)), w') ∧
    holds w' this (Ptr B 0) (l ++ [args_value a]) rest' ∧
    length (l ++ [args_value a]) + length rest' = grown (length l) ∧
    heap w !! B = None ∧
    (∀ i, i ≠ this → objs w' !! i = objs w !! i) ∧
    (∀ b', Ptr b' 0 ≠ p → b' ≠ B → heap w' !! b' = heap w !! b') ∧
    (∀ b, p = Ptr b 0 → heap w' !! b = None) ∧
    nops w' = S (nops w + length l).
Proof.
  intros HE H. unfold EmplaceBack.
  step ltac:(by eapply end_holds).
  destruct (EmplaceShared_full_heap w this p l [] a HE) as (w' & B & rest' & H');
    [by rewrite app_nil_r|].
  rewrite app_nil_r in H'. by exists w', B, rest'.
Qed.

Lemma EmplaceBack_run w this p l rest a :
  nothrow E → holds w this p l rest →
  ∃ w' p' rest',
    EmplaceBack E this a w = (Ret (position p' (length l)), w') ∧
    holds w' this p' (l ++ [args_value a]) rest' ∧
    length (l ++ [args_value a]) + length rest'
    = (if decide (rest = []) then grown (length l) else length l + length rest) ∧
    nops w' = (if decide (rest = []) then S (nops w + length l) else S (nops w)) ∧
    (rest ≠ [] → p' = p).
Proof.
  intros HE H. destruct rest as [|c rest].
  - destruct (EmplaceBack_full w this p l a HE H)
      as (w' & B & rest' & Hrun & H' & Hcap & _ & _ & _ & _ & Hn).
    exists w', (Ptr B 0), rest'. rewrite !decide_True by done.
    split; [exact Hrun|]. split; [exact H'|]. done.
  - destruct (EmplaceBack_room w this p l c rest a HE H) as (w' & Hrun & H' & Hn).
    exists w', p, rest. rewrite !decide_False by done.
    split; [exact Hrun|]. split; [exact H'|].
    split; [rewrite length_app; simpl; lia|]. done.
Qed.

Lemma PushBack_EmplaceBack this v w :
  PushBack E this v w = (EmplaceBack E this (ByCopy v) ;; ret tt) w.
Proof. unfold PushBack, EmplaceBack. by rewrite bind_assoc. Qed.

Lemma PushBack_rvalue_EmplaceBack this v w :
  PushBack_rvalue E this v w = (EmplaceBack E this (ByMove v) ;; ret tt) w.
Proof. unfold PushBack_rvalue, EmplaceBack. by rewrite bind_assoc. Qed.

Lemma PushBack_cost w this p l rest v :
  nothrow E → holds w this p l rest →
  ∃ w' p' rest',
    PushBack E this v w = (Ret tt, w') ∧
    holds w' this p' (l ++ [v]) rest' ∧
    length (l ++ [v]) + length rest'
    = (if decide (rest = []) then grown (length l) else length l + length rest) ∧
    nops w' = (if decide (rest = []) then S (nops w + length l) else S (nops w)) ∧
    (rest ≠ [] → p' = p).
Proof.
  intros HE H.
  destruct (EmplaceBack_run w this p l rest (ByCopy v) HE H)
    as (w' & p' & rest' & Hrun & H').
  exists w', p', rest'. split; [|exact H'].
  rewrite PushBack_EmplaceBack. by erewrite bind_Ret.
Qed.

Lemma push_all_room w this p l vs rest :
  nothrow E → holds w this p l rest → length vs ≤ length rest →
  ∃ w',
    push_all E this vs w = (Ret tt, w') ∧
    holds w' this p (l ++ vs) (drop (length vs) rest) ∧
    nops w' = nops w + length vs.
Proof.
  intros HE. revert w l rest.
  induction vs as [|v vs IH]; intros w l rest H Hlen.
  - exists w. rewrite app_nil_r, drop_0. split; [done|]. split; [done|]. simpl. lia.
  - destruct rest as [|c rest]; [simpl in Hlen; lia|].
    destruct (EmplaceBack_room w this p l c rest (ByCopy v) HE H)
      as (w1 & Hrun & H1 & Hn).
    destruct (IH w1 (l ++ [v]) rest H1) as (w' & Hrun' & H' & Hn').
    { simpl in Hlen. lia. }
    exists w'. split.
    { cbn [push_all]. rewrite bind_assoc || idtac.
      erewrite bind_Ret; [exact Hrun'|].
      rewrite PushBack_EmplaceBack. by erewrite bind_Ret. }
    rewrite <- app_assoc in H'. split; [exact H'|]. simpl. lia.
Qed.

(** *** Exceptions that leave no trace *)

Lemma inert_bind {A C} (m : M T A) (k : A → M T C) :
  inert m → (∀ a, inert (k a)) → inert (bind m k).
Proof.
  intros Hm Hk w r w'. unfold bind.
  destruct (m w) as [[a| | |] w1] eqn:Hmw; intros Hr;
    try (injection Hr as <- <-; by eapply Hm).
  rewrite (Hk a _ _ _ Hr). by eapply Hm.
Qed.

Lemma inert_ret {A} (a : A) : inert (@ret T A a).
Proof. by intros w r w' [= <- <-]. Qed.

Lemma inert_load this : inert (load this).
Proof. intros w r w'. unfold load. by destruct (objs w !! this); intros [= <- <-]. Qed.

Lemma inert_assert c : inert (@assert T c).
Proof. intros w r w'. unfold assert. by destruct c; intros [= <- <-]. Qed.

Lemma inert_Size this : inert (Size this).
Proof. apply inert_bind; [apply inert_load|intros; apply inert_ret]. Qed.

Lemma inert_data this : inert (data this).
Proof. apply inert_bind; [apply inert_load|intros; apply inert_ret]. Qed.

Lemma inert_Capacity this : inert (Capacity this).
Proof. apply inert_bind; [apply inert_data|intros; apply inert_ret]. Qed.

Lemma inert_RawMemory_at r i : inert (RawMemory_at r i).
Proof. apply inert_bind; [apply inert_assert|intros; apply inert_ret]. Qed.

Lemma inert_begin this : inert (begin this).
Proof.
  apply inert_bind; [apply inert_Capacity|]. intros cap.
  case_decide; [apply inert_ret|].
  apply inert_bind; [apply inert_data|]. intros. apply inert_RawMemory_at.
Qed.

Lemma inert_end this : inert (end_ this).
Proof.
  apply inert_bind; [apply inert_Capacity|]. intros cap.
  case_decide; [apply inert_ret|].
  apply inert_bind; [apply inert_data|]. intros.
  apply inert_bind; [apply inert_Size|]. intros. apply inert_RawMemory_at.
Qed.

Lemma throw_quiet_bind {A C} (m : M T A) (k : A → M T C) :
  quiet m → (∀ a, throw_quiet (k a)) → throw_quiet (bind m k).
Proof.
  intros Hm Hk w w'. unfold bind.
  destruct (m w) as [[a| | |] w1] eqn:Hmw; intros Hr; try done.
  - destruct (Hm _ _ _ Hmw) as [Ho Hh], (Hk a _ _ Hr) as [Ho' Hh'].
    split; congruence.
  - injection Hr as <-. by eapply Hm.
Qed.

Lemma throw_quiet_first {A C} (m : M T A) (k : A → M T C) :
  throw_quiet m → (∀ a, no_throw (k a)) → throw_quiet (bind m k).
Proof.
  intros Hm Hk w w'. unfold bind.
  destruct (m w) as [[a| | |] w1] eqn:Hmw; intros Hr; try done.
  - by apply Hk in Hr.
  - injection Hr as <-. by apply Hm.
Qed.

Lemma no_throw_throw_quiet {A} (m : M T A) : no_throw m → throw_quiet m.
Proof. intros Hm w w' Hr. by apply Hm in Hr. Qed.

Lemma throw_quiet_construct_args p a : throw_quiet (construct_args E p a).
Proof.
  destruct a; cbn [construct_args];
    (apply throw_quiet_bind; [apply quiet_call|]);
    intros _; apply no_throw_throw_quiet, no_throw_set_cell.
Qed.

Lemma EmplaceShared_no_object w this pos a :
  objs w !! this = None → EmplaceShared E this pos a w = (Undefined, w).
Proof.
  intros HV. unfold EmplaceShared, Size, load, bind. by rewrite HV.
Qed.

(** Appending either reallocates, where the strong guarantee of the
    reallocating path applies, or constructs one element in the first free
    slot and does nothing else that can throw. *)
Lemma EmplaceBack_strong w this a w' :
  relocation_safe E →
  EmplaceBack E this a w = (Throw, w') → objs w' = objs w ∧ heap w' = heap w.
Proof.
  intros HT. unfold EmplaceBack. unfold bind at 1.
  destruct (end_ this w) as [[e| | |] w0] eqn:He;
    try (by apply no_throw_end in He); try done.
  assert (w0 = w) as -> by (by eapply inert_end).
  destruct (objs w !! this) as [V|] eqn:HV;
    [|by rewrite EmplaceShared_no_object].
  destruct (decide (size_ V = capacity_ (data_ V))) as [Hfull|Hroom].
  { by apply (EmplaceShared_strong w this V). }
  destruct w as [o h nn]. simpl in HV.
  unfold EmplaceShared.
  step ltac:(by apply Size_at).
  step ltac:(by apply Capacity_at).
  rewrite decide_False by done. unfold cend.
  step ltac:(exact He).
  rewrite decide_True by done.
  apply throw_quiet_first; [|intros; solve_no_throw].
  apply throw_quiet_bind; [apply quiet_data|]. intros d.
  apply throw_quiet_bind; [apply quiet_Size|]. intros s.
  apply throw_quiet_first; [apply throw_quiet_construct_args|].
  intros. apply no_throw_ret.
Qed.

Lemma confined_construct_value B i : confined B (construct_value E (Ptr B i)).
Proof.
  apply confined_bind; [apply quiet_confined, quiet_call|]. intros _.
  apply confined_set_cell.
Qed.

Lemma confined_uninitialized_value_construct_n B n i :
  confined B (uninitialized_value_construct_n E (Ptr B i) n).
Proof.
  unfold uninitialized_value_construct_n. generalize 0 as k.
  induction n as [|n IH]; intros k; simpl.
  - apply quiet_confined, quiet_ret.
  - apply confined_bind; [|intros _; apply IH].
    apply confined_on_throw;
      [apply confined_construct_value|apply confined_destroy_n].
Qed.

(** Unwinding out of a constructor body: the member [data_] releases the
    block [B] and the object never comes to be. *)
Lemma unwind_member {A} o h nn B cells cap this (body : M T A) w' :
  h !! B = None → throw_confined B body →
  on_throw body
    (RawMemory_dtor {| buffer_ := Ptr B 0; capacity_ := cap |} ;; remove this)
    (World o (<[B := cells]> h) nn) = (Throw, w') →
  objs w' = delete this o ∧ heap w' = h.
Proof.
  intros HB Hbody. unfold on_throw.
  destruct (body _) as [[a| | |] w3] eqn:Hb; try done.
  destruct (Hbody _ _ Hb) as [Ho Hh]. simpl in Ho, Hh.
  unfold bind, RawMemory_dtor, Deallocate, remove. simpl.
  destruct (heap w3 !! B) as [c3|] eqn:H3; [|done].
  intros [= <-]. simpl. split; [by rewrite Ho|].
  apply map_eq. intros b. destruct (decide (b = B)) as [->|Hne].
  - by rewrite lookup_delete_eq.
  - by rewrite lookup_delete_ne, Hh, lookup_insert_ne.
Qed.

Lemma Vector_sized_throws w this n w' :
  Vector_sized E this n w = (Throw, w') →
  objs w' = delete this (objs w) ∧ heap w' = heap w.
Proof.
  destruct w as [o h nn]. destruct (decide (n = 0)) as [->|Hn].
  { by rewrite Vector_sized_zero. }
  unfold Vector_sized.
  step ltac:(by apply RawMemory_ctor_run).
  step ltac:(apply store_at).
  intros Hr. apply unwind_member in Hr as [-> ->].
  - simpl. by rewrite delete_insert_eq.
  - apply fresh_block.
  - apply confined_throw_confined, confined_uninitialized_value_construct_n.
Qed.

Lemma Vector_copy_throws w this other w' :
  this ≠ other →
  Vector_copy E this other w = (Throw, w') →
  objs w' = delete this (objs w) ∧ heap w' = heap w.
Proof.
  intros Hne. destruct w as [o h nn].
  destruct (o !! other) as [Vo|] eqn:HVo; cycle 1.
  { unfold Vector_copy, Size, load, bind. simpl. by rewrite HVo. }
  unfold Vector_copy.
  step ltac:(by apply Size_at).
  destruct (decide (size_ Vo = 0)) as [Hz|Hn].
  - rewrite Hz.
    step ltac:(apply RawMemory_ctor_zero).
    step ltac:(apply store_at).
    erewrite on_throw_Ret; [done|].
    step ltac:(by apply data_at; rewrite lookup_insert_ne).
    step ltac:(by apply Size_at; rewrite lookup_insert_ne).
    rewrite Hz. reflexivity.
  - step ltac:(by apply RawMemory_ctor_run).
    step ltac:(apply store_at).
    intros Hr. apply unwind_member in Hr as [-> ->].
    + simpl. by rewrite delete_insert_eq.
    + apply fresh_block.
    + apply throw_confined_bind; [apply quiet_confined, quiet_data|]. intros od.
      apply throw_confined_bind; [apply quiet_confined, quiet_Size|]. intros m.
      apply confined_throw_confined, confined_uninitialized_copy_n.
Qed.

Lemma no_throw_remove this : no_throw (@remove T this).
Proof. done. Qed.

Lemma no_throw_Vector_dtor this : no_throw (@Vector_dtor T this).
Proof.
  unfold Vector_dtor, RawMemory_dtor.
  apply no_throw_bind; [apply no_throw_data|]. intros d.
  apply no_throw_bind; [apply no_throw_Size|]. intros s.
  apply no_throw_bind; [apply no_throw_destroy_n|]. intros _.
  apply no_throw_bind; [apply no_throw_Deallocate|]. intros _.
  apply no_throw_remove.
Qed.

(** Copy assignment that has to reallocate builds the copy aside and
    swaps: an exception can only come out of the copy constructor, which
    cleans up after itself. *)
Lemma copy_assign_realloc_strong w this rhs Vt Vr w' :
  objs w !! this = Some Vt → objs w !! rhs = Some Vr →
  capacity_ (data_ Vt) < size_ Vr →
  copy_assign E this rhs w = (Throw, w') → objs w' = objs w ∧ heap w' = heap w.
Proof.
  intros HVt HVr Hlt. destruct w as [o h nn]. simpl in HVt, HVr.
  unfold copy_assign. case_decide as Hne; [|done].
  step ltac:(by apply Size_at).
  step ltac:(by apply Capacity_at).
  rewrite decide_True by done.
  step ltac:(apply alloca_at).
  set (c := fresh (dom o)).
  assert (o !! c = None) as Hc by apply fresh_object.
  assert (c ≠ rhs) as Hcr by (intros Heq; rewrite Heq in Hc; congruence).
  rewrite ?bind_assoc. unfold bind at 1.
  destruct (Vector_copy E c rhs _) as [[[]| | |] w1] eqn:Hcopy; try done.
  - intros Hr. exfalso. revert Hr.
    apply no_throw_bind.
    { apply no_throw_bind; [apply no_throw_noexcept|].
      intros _. apply no_throw_Vector_dtor. }
    intros _. apply no_throw_bind; [apply no_throw_Size|]. intros rs.
    apply no_throw_set_size.
  - intros [= <-]. apply Vector_copy_throws in Hcopy as [-> ->]; [|done].
    simpl. by rewrite delete_id.
Qed.

(** *** What no exception can change *)

Lemma steady_bind {A C} (m : M T A) (k : A → M T C) :
  steady m → (∀ a, steady (k a)) → steady (bind m k).
Proof.
  intros Hm Hk w r w'. unfold bind.
  destruct (m w) as [[a| | |] w1] eqn:Hmw; intros Hr;
    try (injection Hr as <- <-; by eapply Hm).
  destruct (Hm _ _ _ Hmw) as [Ho Hh], (Hk a _ _ _ Hr) as [Ho' Hh'].
  split; congruence.
Qed.

Lemma steady_on_throw {A} (m : M T A) hdl :
  steady m → steady hdl → steady (on_throw m hdl).
Proof.
  intros Hm Hh w r w'. unfold on_throw.
  destruct (m w) as [[a| | |] w1] eqn:Hmw; intros Hr;
    try (injection Hr as <- <-; by eapply Hm).
  assert (steady (hdl ;; @throw T A)) as Hc.
  { apply steady_bind; [done|]. intros _ w2 r2 w2' [= <- <-]. done. }
  destruct (Hm _ _ _ Hmw) as [Ho Hh1], (Hc _ _ _ Hr) as [Ho' Hh'].
  split; congruence.
Qed.

Lemma quiet_steady {A} (m : M T A) : quiet m → steady m.
Proof. intros Hm w r w' Hr. destruct (Hm _ _ _ Hr) as [-> ->]. done. Qed.

Lemma steady_throw_steady {A} (m : M T A) : steady m → throw_steady m.
Proof. intros Hm w w' Hr. by eapply Hm. Qed.

Lemma no_throw_throw_steady {A} (m : M T A) : no_throw m → throw_steady m.
Proof. intros Hm w w' Hr. by apply Hm in Hr. Qed.

Lemma throw_steady_bind {A C} (m : M T A) (k : A → M T C) :
  steady m → (∀ a, throw_steady (k a)) → throw_steady (bind m k).
Proof.
  intros Hm Hk w w'. unfold bind.
  destruct (m w) as [[a| | |] w1] eqn:Hmw; intros Hr; try done.
  - destruct (Hm _ _ _ Hmw) as [Ho Hh], (Hk a _ _ Hr) as [Ho' Hh'].
    split; congruence.
  - injection Hr as <-. by eapply Hm.
Qed.

Lemma throw_steady_first {A C} (m : M T A) (k : A → M T C) :
  throw_steady m → (∀ a, no_throw (k a)) → throw_steady (bind m k).
Proof.
  intros Hm Hk w w'. unfold bind.
  destruct (m w) as [[a| | |] w1] eqn:Hmw; intros Hr; try done.
  - by apply Hk in Hr.
  - injection Hr as <-. by apply Hm.
Qed.

Lemma steady_set_cell p c : steady (set_cell p c).
Proof.
  intros w r w'. unfold set_cell. destruct p as [|b i]; [by intros [= <- <-]|].
  destruct (heap w !! b) as [cells|] eqn:Hb; [|by intros [= <- <-]].
  case_decide; intros [= <- <-]; [|done].
  split; [done|]. simpl. by apply dom_insert_lookup_L.
Qed.

Lemma steady_destroy_n p n : steady (destroy_n p n).
Proof.
  revert p. induction n as [|n IH]; intros p; simpl.
  - apply quiet_steady, quiet_ret.
  - apply steady_bind; [apply steady_set_cell|]. intros _. apply IH.
Qed.

Lemma quiet_ptr_pred p : quiet (@ptr_pred T p).
Proof. destruct p as [|b [|i]]; simpl; first [apply quiet_undefined|apply quiet_ret]. Qed.

Ltac solve_steady :=
  repeat first
    [ apply steady_destroy_n | apply steady_set_cell
    | apply quiet_steady; first
        [ apply quiet_begin | apply quiet_end | apply quiet_distance
        | apply quiet_Size | apply quiet_data | apply quiet_ret
        | apply quiet_read | apply quiet_call | apply quiet_ptr_pred
        | apply quiet_undefined ]
    | apply steady_on_throw
    | apply steady_bind; [|intro] ].

Lemma steady_construct_value p : steady (construct_value E p).
Proof. unfold construct_value. solve_steady. Qed.

Lemma steady_construct_copy p src : steady (construct_copy E p src).
Proof. unfold construct_copy. solve_steady. Qed.

Lemma steady_construct_move p src : steady (construct_move E p src).
Proof. unfold construct_move. solve_steady. Qed.

Lemma steady_assign_move p src : steady (assign_move E p src).
Proof. unfold assign_move. solve_steady. Qed.

Lemma steady_construct_args p a : steady (construct_args E p a).
Proof. destruct a; cbn [construct_args]; solve_steady. Qed.

Lemma steady_construct_temp a : steady (construct_temp E a).
Proof. destruct a; cbn [construct_temp]; solve_steady. Qed.

Lemma steady_assign_temp p v : steady (assign_temp E p v).
Proof. unfold assign_temp. solve_steady. Qed.

Lemma steady_uninitialized_copy_n first n result :
  steady (uninitialized_copy_n E first n result).
Proof.
  unfold uninitialized_copy_n. generalize 0 as k.
  induction n as [|n IH]; intros k; simpl.
  - apply quiet_steady, quiet_ret.
  - apply steady_bind; [|intros _; apply IH].
    apply steady_on_throw; [apply steady_construct_copy|apply steady_destroy_n].
Qed.

Lemma steady_uninitialized_move_n first n result :
  steady (uninitialized_move_n E first n result).
Proof.
  unfold uninitialized_move_n. generalize 0 as k.
  induction n as [|n IH]; intros k; simpl.
  - apply quiet_steady, quiet_ret.
  - apply steady_bind; [|intros _; apply IH].
    apply steady_on_throw; [apply steady_construct_move|apply steady_destroy_n].
Qed.

Lemma steady_relocate first n result :
  steady (if nothrow_move_constructible E || negb (copy_constructible E)
          then uninitialized_move_n E first n result
          else uninitialized_copy_n E first n result).
Proof.
  destruct (_ || _);
    [apply steady_uninitialized_move_n|apply steady_uninitialized_copy_n].
Qed.

Lemma steady_move_backward first last d_last :
  steady (move_backward E first last d_last).
Proof.
  unfold move_backward. apply steady_bind; [apply quiet_steady, quiet_distance|].
  intros n. revert last d_last. induction n as [|n IH]; intros last d_last; simpl.
  - apply quiet_steady, quiet_ret.
  - apply steady_bind; [apply quiet_steady, quiet_ptr_pred|]. intros last'.
    apply steady_bind; [apply quiet_steady, quiet_ptr_pred|]. intros d_last'.
    apply steady_bind; [apply steady_assign_move|]. intros _. apply IH.
Qed.

(** Unwinding through [~RawMemory] of the scratch block [B] after an
    exception out of a steady body leaves the blocks there were. *)
Lemma unwind_steady {A} o h nn B cells cap (body : M T A) w' :
  h !! B = None → throw_steady body →
  on_throw body (RawMemory_dtor {| buffer_ := Ptr B 0; capacity_ := cap |})
    (World o (<[B := cells]> h) nn) = (Throw, w') →
  objs w' = o ∧ dom (heap w') = dom h.
Proof.
  intros HB Hbody. unfold on_throw.
  destruct (body _) as [[a| | |] w3] eqn:Hb; try done.
  destruct (Hbody _ _ Hb) as [Ho Hh]. simpl in Ho, Hh.
  unfold bind, RawMemory_dtor, Deallocate. simpl.
  destruct (heap w3 !! B) as [c3|] eqn:H3; [|done].
  intros [= <-]. simpl. split; [done|].
  rewrite dom_delete_L, Hh, dom_insert_L.
  apply not_elem_of_dom in HB.
  rewrite difference_union_distr_l_L, difference_diag_L, union_empty_l_L.
  by apply difference_disjoint_L, disjoint_singleton_r.
Qed.

Lemma Reserve_throw_steady this n : throw_steady (Reserve E this n).
Proof.
  intros [o h nn] w'. unfold Reserve. unfold bind at 1.
  destruct (Capacity this _) as [[cap| | |] w0] eqn:Hcap;
    try (by apply no_throw_Capacity in Hcap); try done.
  assert (w0 = World o h nn) as -> by (by eapply inert_Capacity).
  case_decide as Hn; [done|].
  erewrite bind_Ret; [|apply RawMemory_ctor_run; lia].
  unfold bind at 1.
  destruct (on_throw _ _ _) as [[a| | |] w2] eqn:Hot; try done.
  - intros Hr. exfalso. revert Hr.
    apply no_throw_bind; [apply no_throw_RawMemory_Swap_local|].
    intros. apply no_throw_Deallocate.
  - intros [= <-]. revert Hot. apply unwind_steady; [apply fresh_block|].
    apply steady_throw_steady.
    apply steady_bind; [apply quiet_steady, quiet_data|]. intros d.
    apply steady_bind; [apply quiet_steady, quiet_Size|]. intros s.
    apply steady_bind; [apply steady_relocate|]. intros _.
    apply steady_destroy_n.
Qed.

Lemma EmplaceShared_throw_steady this pos a : throw_steady (EmplaceShared E this pos a).
Proof.
  intros [o h nn] w'.
  destruct (o !! this) as [V|] eqn:HV;
    [|by rewrite EmplaceShared_no_object].
  unfold EmplaceShared.
  step ltac:(by apply Size_at).
  step ltac:(by apply Capacity_at).
  case_decide as Hfull.
  - step ltac:(apply RawMemory_ctor_run; case_decide; lia).
    rewrite ?bind_assoc. unfold bind at 1.
    destruct (on_throw _ _ _) as [[r| | |] w2] eqn:Hot; try done.
    + intros Hr. exfalso. revert Hr. unfold RawMemory_dtor. solve_no_throw.
    + intros [= <-]. revert Hot. apply unwind_steady; [apply fresh_block|].
      apply steady_throw_steady.
      unfold cbegin, cend, destroy_at.
      apply steady_bind; [apply quiet_steady, quiet_begin|]. intros cb.
      apply steady_bind; [apply quiet_steady, quiet_distance|]. intros k.
      apply steady_bind; [apply steady_construct_args|]. intros _.
      apply steady_bind.
      { apply steady_on_throw; [|apply steady_set_cell].
        apply steady_bind; [apply quiet_steady, quiet_begin|]. intros b.
        apply steady_bind; [apply quiet_steady, quiet_begin|]. intros cb'.
        apply steady_bind; [apply quiet_steady, quiet_distance|]. intros k'.
        destruct (_ || _);
          [apply steady_uninitialized_move_n|apply steady_uninitialized_copy_n]. }
      intros _. apply steady_bind.
      { apply steady_on_throw.
        - apply steady_bind; [apply quiet_steady, quiet_end|]. intros ce.
          apply steady_bind; [apply quiet_steady, quiet_distance|]. intros m.
          apply steady_bind; [apply quiet_steady, quiet_begin|]. intros cb'.
          apply steady_bind; [apply quiet_steady, quiet_distance|]. intros k'.
          apply steady_relocate.
        - solve_steady. }
      intros _. solve_steady.
  - apply throw_steady_first; [|intros; solve_no_throw].
    apply steady_throw_steady. unfold cend.
    apply steady_bind; [apply quiet_steady, quiet_end|]. intros ce.
    case_decide.
    + apply steady_bind; [apply quiet_steady, quiet_data|]. intros d.
      apply steady_bind; [apply quiet_steady, quiet_Size|]. intros s.
      apply steady_bind; [apply steady_construct_args|]. intros _.
      apply quiet_steady, quiet_ret.
    + apply steady_bind; [apply steady_construct_temp|]. intros temp.
      apply steady_bind; [apply quiet_steady, quiet_Size|]. intros s.
      apply steady_bind.
      { case_decide; [|apply quiet_steady, quiet_ret].
        apply steady_bind; [apply quiet_steady, quiet_end|]. intros e.
        apply steady_bind; [apply quiet_steady, quiet_ptr_pred|]. intros e1.
        apply steady_bind; [apply steady_construct_move|]. intros _.
        apply steady_bind; [apply quiet_steady, quiet_Size|]. intros s'.
        case_decide; [|apply quiet_steady, quiet_ret].
        apply steady_bind; [apply quiet_steady, quiet_end|]. intros e'.
        apply steady_bind; [apply quiet_steady, quiet_ptr_pred|]. intros e1'.
        apply steady_move_backward. }
      intros _.
      apply steady_bind; [apply steady_assign_temp|]. intros _.
      apply quiet_steady, quiet_ret.
Qed.

(** *** Erasing where there is no element *)

Lemma Erase_end w this p l rest :
  holds w this p l rest →
  ∃ w', Erase E this (position p (length l)) w = (Undefined, w').
Proof.
  intros H. apply holds_inv in H as (o & h & n & -> & HV & Hp).
  unfold Erase. destruct p as [|b off].
  { eexists. by apply noexcept_Undefined, bind_Undefined. }
  destruct Hp as (-> & Hc & Hh). rewrite Hh. clear Hh. simpl.
  destruct rest as [|c rest].
  - eexists. apply noexcept_Undefined, bind_Undefined.
    unfold destroy_at, set_cell. simpl. rewrite lookup_insert_eq.
    rewrite decide_False; [done|]. rewrite app_nil_r, length_fmap. lia.
  - eexists. apply noexcept_Undefined. unfold destroy_at.
    step ltac:(apply set_cell_at; by rewrite length_fmap).
    step ltac:(eapply end_at; [done|simpl; lia|simpl; lia]).
    apply bind_Undefined. unfold std_move. apply bind_Undefined.
    unfold distance. rewrite decide_False by lia. done.
Qed.

(** *** Writing behind the elements only *)

Lemma behind_refl B i w : behind B i w w.
Proof. split; [done|]. split; [done|]. intros cells ?. by exists cells. Qed.

Lemma behind_trans B i w w1 w' : behind B i w w1 → behind B i w1 w' → behind B i w w'.
Proof.
  intros (Ho & Hh & Hc) (Ho' & Hh' & Hc').
  split; [congruence|]. split.
  - intros b Hb. rewrite Hh', Hh; done.
  - intros cells Hcells.
    destruct (Hc cells Hcells) as (cells1 & H1 & Hl1 & Ht1).
    destruct (Hc' cells1 H1) as (cells2 & H2 & Hl2 & Ht2).
    exists cells2. split; [done|]. split; congruence.
Qed.

Lemma tail_confined_bind {A C} B i (m : M T A) (k : A → M T C) :
  tail_confined B i m → (∀ a, tail_confined B i (k a)) → tail_confined B i (bind m k).
Proof.
  intros Hm Hk w r w'. unfold bind.
  destruct (m w) as [[a| | |] w1] eqn:Hmw; intros Hr;
    try (injection Hr as <- <-; by eapply Hm).
  eapply behind_trans; [by eapply Hm|by eapply Hk].
Qed.

Lemma tail_confined_on_throw {A} B i (m : M T A) hdl :
  tail_confined B i m → tail_confined B i hdl → tail_confined B i (on_throw m hdl).
Proof.
  intros Hm Hh w r w'. unfold on_throw.
  destruct (m w) as [[a| | |] w1] eqn:Hmw; intros Hr;
    try (injection Hr as <- <-; by eapply Hm).
  assert (tail_confined B i (hdl ;; @throw T A)) as Hc.
  { apply tail_confined_bind; [done|]. intros _ w2 r2 w2' [= <- <-].
    apply behind_refl. }
  eapply behind_trans; [by eapply Hm|by eapply Hc].
Qed.

Lemma quiet_tail_confined {A} B i (m : M T A) : quiet m → tail_confined B i m.
Proof.
  intros Hm w r w' Hr. destruct (Hm _ _ _ Hr) as [Ho Hh].
  split; [done|]. rewrite Hh. split; [done|]. intros cells ?. by exists cells.
Qed.

Lemma tail_confined_set_cell B i j c :
  i ≤ j → tail_confined B i (set_cell (Ptr B j) c).
Proof.
  intros Hij w r w'. unfold set_cell.
  destruct (heap w !! B) as [cells|] eqn:HB; [|intros [= <- <-]; apply behind_refl].
  case_decide; intros [= <- <-]; [|apply behind_refl].
  split; [done|]. simpl. split.
  - intros b Hb. by rewrite lookup_insert_ne.
  - intros cells' Hc'. rewrite HB in Hc'. injection Hc' as <-.
    exists (<[j := c]> cells).
    rewrite lookup_insert_eq, length_insert. split; [done|]. split; [done|].
    rewrite take_insert. by rewrite decide_False by lia.
Qed.

Lemma tail_confined_destroy_n B i j n :
  i ≤ j → tail_confined B i (destroy_n (Ptr B j) n).
Proof.
  revert j. induction n as [|n IH]; intros j Hij; simpl.
  - apply quiet_tail_confined, quiet_ret.
  - apply tail_confined_bind; [by apply tail_confined_set_cell|].
    intros _. apply IH. lia.
Qed.

Lemma tail_confined_uninitialized_value_construct_n B i j n :
  i ≤ j → tail_confined B i (uninitialized_value_construct_n E (Ptr B j) n).
Proof.
  intros Hij. unfold uninitialized_value_construct_n. generalize 0 as k.
  induction n as [|n IH]; intros k; simpl.
  - apply quiet_tail_confined, quiet_ret.
  - apply tail_confined_bind; [|intros _; apply IH].
    apply tail_confined_on_throw; [|by apply tail_confined_destroy_n].
    apply tail_confined_bind; [apply quiet_tail_confined, quiet_call|].
    intros _. apply tail_confined_set_cell. lia.
Qed.

(** Growing within the capacity constructs behind the elements; an
    exception leaves the elements and the object as they were. *)
Lemma Resize_room_strong w this p l rest n w' :
  holds w this p l rest → n ≤ length l + length rest →
  Resize E this n w = (Throw, w') →
  objs w' = objs w ∧
  (∀ b, Ptr b 0 ≠ p → heap w' !! b = heap w !! b) ∧
  ∃ rest', holds w' this p l rest' ∧ length rest' = length rest.
Proof.
  intros H Hn. pose proof H as H0.
  apply holds_inv in H as (o & h & nn & -> & HV & Hp).
  unfold Resize.
  step ltac:(by apply Size_at). cbn [size_].
  case_decide as Heq; [done|].
  case_decide as Hlt.
  { intros Hr. exfalso. revert Hr.
    apply no_throw_bind; [|intros; apply no_throw_set_size].
    apply no_throw_bind; [apply no_throw_data|]. intros; apply no_throw_destroy_n. }
  destruct p as [|b off].
  { destruct Hp as [-> ->]. simpl in *. lia. }
  destruct Hp as (-> & Hc & Hh).
  step ltac:(by eapply Reserve_noop).
  step ltac:(by apply data_at).
  step ltac:(by apply Size_at).
  cbn [GetAddress data_ buffer_ size_ ptr_add Nat.add].
  unfold bind at 1.
  destruct (uninitialized_value_construct_n _ _ _ _) as [[[]| | |] w1] eqn:Hrun; try done.
  { intros Hr. exfalso. revert Hr. apply no_throw_set_size. }
  intros [= <-].
  destruct (tail_confined_uninitialized_value_construct_n b (length l) (length l)
              (n - length l) ltac:(lia) _ _ _ Hrun) as (Ho & Hfr & Hcells).
  simpl in Ho, Hfr, Hcells.
  destruct (Hcells ((Some <$> l) ++ rest)) as (cells' & Hb' & Hlen & Htake).
  { rewrite Hh. by rewrite lookup_insert_eq. }
  split; [done|]. split.
  { intros b' Hb'b. apply Hfr. congruence. }
  exists (drop (length l) cells'). split; [split|].
  - rewrite Ho, HV. do 3 f_equal.
    rewrite length_drop, Hlen, length_app, length_fmap. lia.
  - split; [done|].
    rewrite length_drop, Hlen, length_app, length_fmap.
    split; [lia|]. rewrite Hb'. f_equal.
    rewrite <- (take_drop (length l) cells') at 1. f_equal.
    rewrite Htake. by rewrite take_app_length' by (by rewrite length_fmap).
  - rewrite length_drop, Hlen, length_app, length_fmap. lia.
Qed.

(** *** A block with fewer slots than there are elements *)

Lemma on_throw_Undefined {A} (m : M T A) hdl w w' :
  m w = (Undefined, w') → on_throw m hdl w = (Undefined, w').
Proof. unfold on_throw. by intros ->. Qed.

Lemma on_throw_Undefined_ex {A} (m : M T A) hdl w :
  (∃ w', m w = (Undefined, w')) → ∃ w', on_throw m hdl w = (Undefined, w').
Proof. intros [w' H]. exists w'. by apply on_throw_Undefined. Qed.

Lemma set_cell_outside o h n b cells c i :
  length cells ≤ i →
  set_cell (Ptr b i) c (World o (<[b := cells]> h) n)
  = (Undefined, World o (<[b := cells]> h) n).
Proof.
  intros Hi. unfold set_cell. simpl. rewrite lookup_insert_eq.
  by rewrite decide_False by lia.
Qed.

Lemma uninitialized_value_construct_loop_overrun o h n b pre mid i k m :
  nothrow E → i + k = length pre →
  ∃ w',
    uninitialized_value_construct_loop E (Ptr b i) k (length mid + S m)
      (World o (<[b := pre ++ mid]> h) n)
    = (Undefined, w').
Proof.
  intros HE. revert n pre k.
  induction mid as [|c mid IH]; intros n pre k Hi.
  - cbn [uninitialized_value_construct_loop length ptr_add Nat.add].
    eexists. apply bind_Undefined, on_throw_Undefined. unfold construct_value.
    erewrite bind_Ret; [|by apply call_nothrow].
    apply set_cell_outside. rewrite app_nil_r. lia.
  - cbn [uninitialized_value_construct_loop length ptr_add app Nat.add].
    erewrite bind_Ret; cycle 1.
    { apply on_throw_Ret. unfold construct_value.
      erewrite bind_Ret; [|by apply call_nothrow].
      by apply set_cell_at. }
    snoc pre. apply IH. rewrite length_app. simpl. lia.
Qed.

Lemma uninitialized_move_loop_overrun o h n bs bd spre spost dpre xs mid y m so do_ k :
  nothrow E → bs ≠ bd →
  so + k = length spre → do_ + k = length dpre → length mid = length xs →
  ∃ w',
    uninitialized_move_loop E (Ptr bs so) (Ptr bd do_) k (length xs + S m)
      (World o (<[bd := dpre ++ mid]>
                 (<[bs := spre ++ (Some <$> xs) ++ Some y :: spost]> h)) n)
    = (Undefined, w').
Proof.
  intros HE Hb. revert n spre dpre mid k.
  induction xs as [|x xs IH]; intros n spre dpre mid k Hs Hd Hm.
  - destruct mid; [|done].
    cbn [uninitialized_move_loop length ptr_add app Nat.add fmap list_fmap].
    eexists. apply bind_Undefined, on_throw_Undefined. unfold construct_move.
    erewrite bind_Ret; [|by apply read_under].
    erewrite bind_Ret; [|by apply call_nothrow].
    apply bind_Undefined, set_cell_outside. rewrite app_nil_r. lia.
  - destruct mid as [|c mid]; [done|]. rewrite !fmap_cons.
    cbn [uninitialized_move_loop length ptr_add app Nat.add] in *.
    erewrite bind_Ret; cycle 1.
    { apply on_throw_Ret. unfold construct_move.
      erewrite bind_Ret; [|by apply read_under].
      erewrite bind_Ret; [|by apply call_nothrow].
      erewrite bind_Ret; [|by apply set_cell_at].
      by apply set_cell_under. }
    snoc spre; snoc dpre.
    apply IH; try (rewrite length_app; simpl; lia). lia.
Qed.

Lemma uninitialized_copy_loop_overrun o h n bs bd spre spost dpre xs mid y m so do_ k :
  nothrow E → bs ≠ bd →
  h !! bs = Some (spre ++ (Some <$> xs) ++ Some y :: spost) →
  so + k = length spre → do_ + k = length dpre → length mid = length xs →
  ∃ w',
    uninitialized_copy_loop E (Ptr bs so) (Ptr bd do_) k (length xs + S m)
      (World o (<[bd := dpre ++ mid]> h) n)
    = (Undefined, w').
Proof.
  intros HE Hb Hh. rewrite <- (insert_id h bs _ Hh). clear Hh.
  revert n spre dpre mid k.
  induction xs as [|x xs IH]; intros n spre dpre mid k Hs Hd Hm.
  - destruct mid; [|done].
    cbn [uninitialized_copy_loop length ptr_add app Nat.add fmap list_fmap].
    eexists. apply bind_Undefined, on_throw_Undefined. unfold construct_copy.
    erewrite bind_Ret; [|by apply read_under].
    erewrite bind_Ret; [|by apply call_nothrow].
    apply set_cell_outside. rewrite app_nil_r. lia.
  - destruct mid as [|c mid]; [done|]. rewrite fmap_cons.
    cbn [uninitialized_copy_loop length ptr_add app Nat.add] in *.
    erewrite bind_Ret; cycle 1.
    { apply on_throw_Ret. unfold construct_copy.
      erewrite bind_Ret; [|by apply read_under].
      erewrite bind_Ret; [|by apply call_nothrow].
      by apply set_cell_at. }
    snoc spre; snoc dpre.
    apply IH; try (rewrite length_app; simpl; lia). lia.
Qed.

(** ** The allocation of the target *)

Section exact.
Context (P : Platform T).

Lemma bytes_representable n :
  Exact.representable P n → N.to_nat (Exact.bytes P n / N.pos (sizeof P)) = n.
Proof.
  unfold Exact.representable, Exact.bytes. intros H.
  rewrite N.mod_small by done. rewrite N.div_mul by done. apply Nat2N.id.
Qed.

Lemma Exact_Allocate_run n w :
  (n ≠ 0 → Exact.representable P n ∧ new_succeeds P w (Exact.bytes P n) = true) →
  Exact.Allocate P n w = Allocate n w.
Proof.
  intros H. unfold Exact.Allocate, Allocate, Exact.operator_new.
  case_decide; [done|]. destruct H as [Hr ->]; [done|].
  cbn zeta. by rewrite bytes_representable.
Qed.

Lemma Exact_Allocate_fails n w :
  n ≠ 0 → new_succeeds P w (Exact.bytes P n) = false →
  Exact.Allocate P n w = (Throw, w).
Proof.
  intros Hn H. unfold Exact.Allocate, Exact.operator_new.
  rewrite decide_False by done. by rewrite H.
Qed.

Lemma Exact_RawMemory_ctor_run n w :
  (n ≠ 0 → Exact.representable P n ∧ new_succeeds P w (Exact.bytes P n) = true) →
  Exact.RawMemory_ctor P n w = RawMemory_ctor n w.
Proof.
  intros H. unfold Exact.RawMemory_ctor, RawMemory_ctor, bind.
  by rewrite Exact_Allocate_run.
Qed.

Lemma Exact_RawMemory_ctor_fails {A} n (k : RawMemory → M T A) w :
  n ≠ 0 → new_succeeds P w (Exact.bytes P n) = false →
  bind (Exact.RawMemory_ctor P n) k w = (Throw, w).
Proof.
  intros Hn H. unfold Exact.RawMemory_ctor, bind.
  by rewrite Exact_Allocate_fails.
Qed.

Lemma Exact_Vector_sized_run this n w :
  (n ≠ 0 → Exact.representable P n ∧ new_succeeds P w (Exact.bytes P n) = true) →
  Exact.Vector_sized E P this n w = Vector_sized E this n w.
Proof.
  intros H. unfold Exact.Vector_sized, Vector_sized, bind at 1 3.
  by rewrite Exact_RawMemory_ctor_run.
Qed.

Lemma Exact_Vector_sized_fails this n w :
  n ≠ 0 → new_succeeds P w (Exact.bytes P n) = false →
  Exact.Vector_sized E P this n w = (Throw, w).
Proof. intros Hn H. by apply Exact_RawMemory_ctor_fails. Qed.

Lemma Exact_Reserve_run w this n V :
  objs w !! this = Some V →
  (capacity_ (data_ V) < n →
   Exact.representable P n ∧ new_succeeds P w (Exact.bytes P n) = true) →
  Exact.Reserve E P this n w = Reserve E this n w.
Proof.
  intros HV H. destruct w as [o h nn]. simpl in HV.
  unfold Exact.Reserve, Reserve.
  erewrite !bind_Ret; [|by apply Capacity_at..].
  case_decide; [done|].
  unfold bind at 1 4. rewrite Exact_RawMemory_ctor_run; [done|].
  intros _. apply H. lia.
Qed.

Lemma Exact_Reserve_fails w this n V :
  objs w !! this = Some V → capacity_ (data_ V) < n →
  new_succeeds P w (Exact.bytes P n) = false →
  Exact.Reserve E P this n w = (Throw, w).
Proof.
  intros HV Hn H. destruct w as [o h nn]. simpl in HV.
  unfold Exact.Reserve.
  erewrite bind_Ret; [|by apply Capacity_at].
  rewrite decide_False by lia.
  apply Exact_RawMemory_ctor_fails; [lia|done].
Qed.

Lemma Exact_Resize_run w this n V :
  objs w !! this = Some V →
  (capacity_ (data_ V) < n →
   Exact.representable P n ∧ new_succeeds P w (Exact.bytes P n) = true) →
  Exact.Resize E P this n w = Resize E this n w.
Proof.
  intros HV H. destruct w as [o h nn]. simpl in HV.
  unfold Exact.Resize, Resize.
  erewrite !bind_Ret; [|by apply Size_at..].
  case_decide; [done|]. case_decide; [done|].
  unfold bind at 1 2 6 7. by erewrite Exact_Reserve_run.
Qed.

Lemma Exact_Resize_fails w this n V :
  objs w !! this = Some V → size_ V ≤ capacity_ (data_ V) →
  capacity_ (data_ V) < n →
  new_succeeds P w (Exact.bytes P n) = false →
  Exact.Resize E P this n w = (Throw, w).
Proof.
  intros HV Hs Hn H. destruct w as [o h nn]. simpl in HV.
  unfold Exact.Resize.
  erewrite bind_Ret; [|by apply Size_at].
  rewrite decide_False by lia. rewrite decide_False by lia.
  unfold bind at 1 2. by erewrite Exact_Reserve_fails.
Qed.

Lemma Exact_RawMemory_ctor_at o h n k :
  k ≠ 0 → new_succeeds P (World o h n) (Exact.bytes P k) = true →
  Exact.RawMemory_ctor P k (World o h n)
  = (Ret {| buffer_ := Ptr (fresh (dom h)) 0; capacity_ := k |},
     World o (<[fresh (dom h) :=
                  replicate (N.to_nat (Exact.bytes P k / N.pos (sizeof P))) None]> h) n).
Proof.
  intros Hk H. unfold Exact.RawMemory_ctor, bind, Exact.Allocate, Exact.operator_new.
  rewrite decide_False by done. by rewrite H.
Qed.

(** [Reserve(n)] with an [n] whose product with [sizeof(T)] wraps to
    fewer bytes than the elements take: the relocation leaves the block. *)
Lemma Exact_Reserve_overrun w this p l rest n :
  nothrow E → holds w this p l rest → length l + length rest < n →
  new_succeeds P w (Exact.bytes P n) = true →
  N.to_nat (Exact.bytes P n / N.pos (sizeof P)) < length l →
  ∃ w', Exact.Reserve E P this n w = (Undefined, w').
Proof.
  intros HE [HV Hp] Hn Hnew Hk. destruct w as [o h nn]. simpl in HV, Hp.
  set (k := N.to_nat (Exact.bytes P n / N.pos (sizeof P))) in *.
  set (B := fresh (dom h)).
  assert (h !! B = None) as HB by apply fresh_block.
  destruct p as [|b off].
  { destruct Hp as [-> _]. simpl in Hk. lia. }
  destruct Hp as (-> & Hc & Hb).
  assert (b ≠ B) as HbB by (intros ->; congruence).
  unfold Exact.Reserve.
  erewrite bind_Ret; [|by apply Capacity_at]. cbn [data_ capacity_].
  rewrite decide_False by lia.
  erewrite bind_Ret; [|apply Exact_RawMemory_ctor_at; [lia|done]]. fold B k.
  rewrite <- (take_drop k l) in Hb, HV.
  destruct (drop k l) as [|y l2] eqn:Hdrop.
  { apply (f_equal length) in Hdrop. rewrite length_drop in Hdrop. simpl in Hdrop. lia. }
  assert (length (take k l) = k) as Htake by (rewrite length_take; lia).
  set (l1 := take k l) in *.
  rewrite fmap_app, fmap_cons, <- app_assoc in Hb. cbn [app] in Hb.
  enough (∃ w', (if nothrow_move_constructible E || negb (copy_constructible E)
                 then uninitialized_move_n E (Ptr b 0) (length (l1 ++ y :: l2)) (Ptr B 0)
                 else uninitialized_copy_n E (Ptr b 0) (length (l1 ++ y :: l2)) (Ptr B 0))
                  (World o (<[B := replicate k None]> h) nn) = (Undefined, w'))
    as [w' Hrun].
  { exists w'. apply bind_Undefined, on_throw_Undefined.
    erewrite bind_Ret; [|by apply data_at].
    erewrite bind_Ret; [|by apply Size_at]. cbn [GetAddress data_ buffer_ size_].
    by apply bind_Undefined. }
  replace (length (l1 ++ y :: l2)) with (length l1 + S (length l2))
    by (rewrite length_app; simpl; lia).
  destruct (_ || _).
  - rewrite <- (insert_id h b _ Hb).
    apply (uninitialized_move_loop_overrun _ _ _ b B [] ((Some <$> l2) ++ rest) [] l1
             (replicate k None) y); try done.
    by rewrite length_replicate.
  - apply (uninitialized_copy_loop_overrun _ _ _ b B [] ((Some <$> l2) ++ rest) [] l1
             (replicate k None) y); try done.
    by rewrite length_replicate.
Qed.

(** A product that wraps leaves room for fewer than [n] objects. *)
Lemma wrapped_slots n :
  ¬ Exact.representable P n →
  N.to_nat (Exact.bytes P n / N.pos (sizeof P)) < n.
Proof.
  unfold Exact.representable, Exact.bytes. intros Hr.
  assert (2 ^ size_bits P ≠ 0)%N as Hpow by (by apply N.pow_nonzero).
  pose proof (N.mod_lt (N.of_nat n * N.pos (sizeof P)) _ Hpow) as Hmod.
  assert (((N.of_nat n * N.pos (sizeof P)) mod 2 ^ size_bits P) / N.pos (sizeof P)
          < N.of_nat n)%N as Hlt.
  { apply N.Div0.div_lt_upper_bound. lia. }
  revert Hlt. generalize (((N.of_nat n * N.pos (sizeof P)) mod 2 ^ size_bits P)
                          / N.pos (sizeof P))%N.
  intros q Hq. lia.
Qed.

Lemma representable_0 : Exact.representable P 0.
Proof.
  unfold Exact.representable. simpl.
  assert (2 ^ size_bits P ≠ 0)%N by (by apply N.pow_nonzero). lia.
Qed.

(** [Vector(n)] with an [n] whose product with [sizeof(T)] wraps: the
    elements are constructed past the end of the block. *)
Lemma Exact_Vector_sized_overrun w this n :
  nothrow E → ¬ Exact.representable P n →
  new_succeeds P w (Exact.bytes P n) = true →
  ∃ w', Exact.Vector_sized E P this n w = (Undefined, w').
Proof.
  intros HE Hr Hnew. pose proof (wrapped_slots n Hr) as Hk.
  set (k := N.to_nat (Exact.bytes P n / N.pos (sizeof P))) in *.
  destruct w as [o h nn]. unfold Exact.Vector_sized.
  erewrite bind_Ret; [|apply Exact_RawMemory_ctor_at; [lia|done]]. fold k.
  erewrite bind_Ret; [|done].
  eapply on_throw_Undefined_ex. unfold uninitialized_value_construct_n.
  cbn [GetAddress buffer_ objs heap nops].
  destruct (uninitialized_value_construct_loop_overrun
              (<[this := {| data_ := {| buffer_ := Ptr (fresh (dom h)) 0;
                                        capacity_ := n |};
                            size_ := n |}]> o)
              h nn (fresh (dom h)) [] (replicate k None) 0 0 (n - k - 1) HE eq_refl)
    as [w' Hw'].
  rewrite length_replicate in Hw'.
  replace (k + S (n - k - 1)) with n in Hw' by lia.
  by exists w'.
Qed.

(** [Reserve(n)] with an [n] whose product with [sizeof(T)] wraps, but to
    enough bytes for the elements there are: it returns with [capacity_]
    set to [n] over a block of fewer slots. *)
Lemma Exact_Reserve_short w this p l rest n :
  nothrow E → holds w this p l rest → length l + length rest < n →
  new_succeeds P w (Exact.bytes P n) = true →
  length l ≤ N.to_nat (Exact.bytes P n / N.pos (sizeof P)) →
  ∃ o h nn B,
    Exact.Reserve E P this n w = (Ret tt, World o h nn) ∧
    o !! this = Some {| data_ := {| buffer_ := Ptr B 0; capacity_ := n |};
                        size_ := length l |} ∧
    h = <[B := (Some <$> l) ++
               replicate (N.to_nat (Exact.bytes P n / N.pos (sizeof P)) - length l)
                         None]> h.
Proof.
  intros HE [HV Hp] Hn Hnew Hk. destruct w as [o h nn]. simpl in HV, Hp.
  set (k := N.to_nat (Exact.bytes P n / N.pos (sizeof P))) in *.
  set (B := fresh (dom h)).
  assert (h !! B = None) as HB by apply fresh_block.
  unfold Exact.Reserve.
  erewrite bind_Ret; [|by apply Capacity_at]. simpl.
  rewrite decide_False by lia.
  erewrite bind_Ret; [|apply Exact_RawMemory_ctor_at; [lia|done]]. fold B k.
  destruct p as [|b off].
  - destruct Hp as [-> ->]. simpl in *.
    erewrite bind_Ret; cycle 1.
    { apply on_throw_Ret.
      erewrite bind_Ret; [|by apply data_at].
      erewrite bind_Ret; [|by apply Size_at]. simpl.
      by destruct (_ || _). }
    erewrite bind_Ret; [|by apply RawMemory_Swap_local_at]. simpl.
    eexists _, _, _, B. split; [done|].
    split; [by rewrite lookup_insert_eq|].
    rewrite Nat.sub_0_r. by rewrite insert_insert_eq.
  - destruct Hp as (-> & Hc & Hb).
    assert (b ≠ B) as HbB by (intros ->; congruence).
    assert (replicate k (@None T)
            = [] ++ replicate (length l) None ++ replicate (k - length l) None) as Hrep.
    { simpl. rewrite <- replicate_add. f_equal. lia. }
    erewrite bind_Ret; cycle 1.
    { apply on_throw_Ret.
      erewrite bind_Ret; [|by apply data_at].
      erewrite bind_Ret; [|by apply Size_at]. simpl.
      unfold GetAddress. simpl.
      erewrite bind_Ret; cycle 1.
      { rewrite Hrep. apply (relocation_run _ _ _ _ _ [] rest); try done.
        by rewrite length_replicate. }
      rewrite insert_insert_ne by done.
      apply (destroy_n_at _ _ _ _ [] (Some <$> relocated l) rest); [done|].
      by rewrite length_fmap, length_relocated. }
    erewrite bind_Ret; [|by apply RawMemory_Swap_local_at].
    unfold RawMemory_dtor. cbn [data_ buffer_].
    erewrite Deallocate_at; [|by apply lookup_insert_eq].
    eexists _, _, _, B. split; [done|].
    split; [by rewrite lookup_insert_eq|].
    rewrite delete_insert_eq. rewrite <- delete_insert_ne by done.
    rewrite insert_insert_eq. done.
Qed.

(** [Resize(n)] with an [n] whose product with [sizeof(T)] wraps. *)
Lemma Exact_Resize_overrun w this p l rest n :
  nothrow E → holds w this p l rest → length l + length rest < n →
  ¬ Exact.representable P n →
  new_succeeds P w (Exact.bytes P n) = true →
  ∃ w', Exact.Resize E P this n w = (Undefined, w').
Proof.
  intros HE H Hn Hr Hnew. pose proof (wrapped_slots n Hr) as Hk.
  pose proof H as [HV _].
  unfold Exact.Resize.
  destruct (decide (N.to_nat (Exact.bytes P n / N.pos (sizeof P)) < length l))
    as [Hlt|Hge].
  - destruct (Exact_Reserve_overrun w this p l rest n HE H Hn Hnew Hlt) as [w' Hrun].
    exists w'. destruct w as [o h nn]. simpl in HV.
    erewrite bind_Ret; [|by apply Size_at]. cbn [size_].
    rewrite decide_False by lia. rewrite decide_False by lia.
    by apply bind_Undefined, bind_Undefined.
  - destruct (Exact_Reserve_short w this p l rest n HE H Hn Hnew)
      as (o' & h' & nn' & B & Hrun & HV' & Hh'); [lia|].
    set (k := N.to_nat (Exact.bytes P n / N.pos (sizeof P))) in *.
    destruct w as [o h nn]. simpl in HV.
    erewrite bind_Ret; [|by apply Size_at]. cbn [size_].
    rewrite decide_False by lia. rewrite decide_False by lia.
    enough (∃ w', uninitialized_value_construct_n E (Ptr B (length l)) (n - length l)
                    (World o' h' nn') = (Undefined, w')) as [w' Hw'].
    { exists w'. apply bind_Undefined.
      erewrite bind_Ret; [|exact Hrun].
      erewrite bind_Ret; [|by apply data_at].
      erewrite bind_Ret; [|by apply Size_at].
      cbn [GetAddress data_ buffer_ size_ ptr_add Nat.add]. exact Hw'. }
    rewrite Hh'. unfold uninitialized_value_construct_n.
    destruct (uninitialized_value_construct_loop_overrun
                o' h' nn' B (Some <$> l) (replicate (k - length l) None)
                (length l) 0 (n - k - 1) HE) as [w' Hw'].
    { by rewrite length_fmap, Nat.add_0_r. }
    rewrite length_replicate in Hw'.
    replace (k - length l + S (n - k - 1)) with (n - length l) in Hw' by lia.
    by exists w'.
Qed.

End exact.

End proofs.

(** * Theorems *)

Lemma nothrow_Int : nothrow Examples.Int.
Proof. intros k n. reflexivity. Defined.

(** ** Reserve *)

(** C3. [Reserve(n)] with [n] at most the capacity returns normally and
    changes nothing at all.  With [n] above the capacity and
    [n * sizeof(T)] representable in [size_t], the outcome is the one of
    [operator new]: when the allocation succeeds, [Reserve] returns
    normally with capacity exactly [n] (so at least [n]) and the elements,
    their order and the size as they were; when it fails, the exception
    propagates and nothing has changed. *)
Theorem Reserve_spec {T} (E : ElemType T) (P : Platform T) (w : world T)
    (this : nat) (l : list T) (cap n : nat) :
  nothrow E →
  view w this = Some (l, cap) →
  (n ≤ cap → Exact.Reserve E P this n w = (Ret tt, w)) ∧
  (cap < n → Exact.representable P n →
   new_succeeds P w (Exact.bytes P n) = true →
   ∃ w', Exact.Reserve E P this n w = (Ret tt, w') ∧
         view w' this = Some (l, n)) ∧
  (cap < n → Exact.representable P n →
   new_succeeds P w (Exact.bytes P n) = false →
   Exact.Reserve E P this n w = (Throw, w)).
Proof.
  intros HE Hv. apply view_holds in Hv as (p & rest & H & ->).
  pose proof H as [HV _].
  split; [|split].
  - intros Hle. erewrite Exact_Reserve_run; [|exact HV|simpl; lia].
    by eapply Reserve_noop.
  - intros Hlt Hr Hnew. erewrite Exact_Reserve_run; [|exact HV|done].
    destruct (Reserve_grow E w this p l rest n HE H) as (w' & B & HR & H' & _); [lia|].
    exists w'. split; [done|].
    apply holds_view in H' as [-> _]. rewrite length_replicate.
    do 2 f_equal. lia.
  - intros Hlt _ Hnew. by eapply Exact_Reserve_fails.
Qed.

Lemma Reserve_spec_witness :
  Exact.Reserve Examples.Int Examples.small_heap 0 3 Examples.w123
  = (Ret tt, Examples.w123) ∧
  (∃ w', Exact.Reserve Examples.Int Examples.small_heap 0 10 Examples.w123 = (Ret tt, w') ∧
         view w' 0 = Some ([1; 2; 3], 10)) ∧
  Exact.Reserve Examples.Int Examples.small_heap 0 100 Examples.w123
  = (Throw, Examples.w123).
Proof.
  assert (view Examples.w123 0 = Some ([1; 2; 3], 4)) as Hv by (vm_compute; reflexivity).
  split; [|split].
  - apply (Reserve_spec Examples.Int Examples.small_heap Examples.w123 0 [1; 2; 3] 4 3
             nothrow_Int Hv). lia.
  - apply (Reserve_spec Examples.Int Examples.small_heap Examples.w123 0 [1; 2; 3] 4 10
             nothrow_Int Hv); [lia|vm_compute; reflexivity|vm_compute; reflexivity].
  - apply (Reserve_spec Examples.Int Examples.small_heap Examples.w123 0 [1; 2; 3] 4 100
             nothrow_Int Hv); [lia|vm_compute; reflexivity|vm_compute; reflexivity].
Defined.

(** [Reserve(100)] on [[1; 2; 3]] with capacity 4, where [operator new]
    does not provide the 400 bytes: [std::bad_alloc] propagates, and the
    capacity is the 4 it was, not 100. *)
Lemma Reserve_bad_alloc :
  view Examples.w123 0 = Some ([1; 2; 3], 4) ∧
  Exact.Reserve Examples.Int Examples.small_heap 0 100 Examples.w123
  = (Throw, Examples.w123).
Proof. vm_compute. split; reflexivity. Qed.

(** ** Resize *)

Lemma cell_destroyed {T} (w : world T) this p l k rest i :
  holds w this p l (replicate k None ++ rest) →
  length l ≤ i < length l + k →
  cell w (position p i) = Some None.
Proof.
  intros H Hi.
  destruct (holds_nonempty_block w this p l _ H) as [b ->].
  { rewrite length_app, length_replicate. lia. }
  destruct H as [_ (_ & _ & Hb)]. unfold cell. simpl. rewrite Hb. simpl.
  rewrite lookup_app_r by (rewrite length_fmap; lia).
  rewrite lookup_app_l by (rewrite length_replicate, length_fmap; lia).
  apply lookup_replicate_2. rewrite length_fmap. lia.
Qed.

(** C8. [Resize(n)] with [n] at most the capacity returns normally with
    size [n]: the first [min n size] elements keep their values, new
    trailing elements hold the value-initialised value, and the capacity
    is what it was.  When shrinking, the storage stays where it is and
    exactly the slots [n .. size) are destroyed.  With [n] above the
    capacity and [n * sizeof(T)] representable in [size_t], the outcome
    is the one of [operator new]: when the allocation succeeds, [Resize]
    returns normally with size and capacity [n], the old elements
    followed by value-initialised ones; when it fails, the exception
    propagates and nothing has changed.  The capacity never decreases. *)
Theorem Resize_spec {T} (E : ElemType T) (P : Platform T) (w : world T)
    (this : nat) (p : ptr) (l : list T) (cap n : nat) :
  nothrow E →
  view w this = Some (l, cap) →
  buffer_of w this = Some p →
  (n ≤ cap ∨
   (Exact.representable P n ∧ new_succeeds P w (Exact.bytes P n) = true) →
   ∃ w', Exact.Resize E P this n w = (Ret tt, w') ∧
         view w' this
         = Some (take n l ++ replicate (n - length l) (value_init E), cap `max` n) ∧
         (n < length l →
          buffer_of w' this = Some p ∧
          ∀ i, n ≤ i < length l → cell w' (position p i) = Some None)) ∧
  (cap < n → Exact.representable P n →
   new_succeeds P w (Exact.bytes P n) = false →
   Exact.Resize E P this n w = (Throw, w)).
Proof.
  intros HE Hv Hb.
  destruct (view_buffer_holds w this l cap p Hv Hb) as (rest & H & ->).
  pose proof H as [HV _].
  split; cycle 1.
  { intros Hlt _ Hnew. eapply Exact_Resize_fails; [exact HV|simpl; lia|done|done]. }
  intros Hok. erewrite Exact_Resize_run; [|exact HV|]; cycle 1.
  { simpl. intros Hlt. destruct Hok as [Hle|Hok]; [lia|done]. }
  clear Hok.
  destruct (Nat.lt_trichotomy n (length l)) as [Hlt|[->|Hgt]].
  - (* shrinking *)
    rewrite <- (take_drop n l) in H.
    assert (length (take n l) = n) as Hn by (rewrite length_take; lia).
    assert (length (drop n l) = length l - n) as Hd by (by rewrite length_drop).
    destruct (Resize_shrink E w this p (take n l) (drop n l) rest H)
      as (w' & HR & H' & _).
    { intros Heq. rewrite Heq in Hd. simpl in Hd. lia. }
    rewrite Hn in HR. exists w'. split; [done|].
    pose proof (holds_view _ _ _ _ _ H') as [Hv' Hb'].
    split.
    + rewrite Hv'. replace (n - length l) with 0 by lia.
      rewrite app_nil_r, length_app, length_replicate. simpl.
      do 2 f_equal. lia.
    + intros _. split; [done|]. intros i Hi.
      eapply cell_destroyed; [exact H'|]. lia.
  - (* the size it already has *)
    exists w. split; [|split; [|lia]].
    + destruct w as [o h nn]. simpl in HV.
      unfold Resize. erewrite bind_Ret; [|by apply Size_at]. simpl.
      by rewrite decide_True.
    + rewrite Hv. rewrite firstn_all, Nat.sub_diag, app_nil_r.
      do 2 f_equal. lia.
  - (* growing *)
    destruct (Resize_extend E w this p l rest n HE H Hgt)
      as (w' & p' & rest' & HR & H' & Hcap).
    exists w'. split; [done|]. split; [|lia].
    apply holds_view in H' as [-> _].
    rewrite take_ge by lia. rewrite length_app, length_replicate.
    do 2 f_equal. lia.
Qed.

Lemma Resize_spec_witness :
  (∃ w', Exact.Resize Examples.Int Examples.small_heap 0 2 Examples.w123 = (Ret tt, w') ∧
         view w' 0 = Some (take 2 [1; 2; 3] ++ replicate (2 - 3) 0, 4 `max` 2) ∧
         (2 < 3 →
          buffer_of w' 0 = Some (Ptr 7 0) ∧
          ∀ i, 2 ≤ i < 3 → cell w' (position (Ptr 7 0) i) = Some None)) ∧
  (∃ w', Exact.Resize Examples.Int Examples.small_heap 0 10 Examples.w123 = (Ret tt, w') ∧
         view w' 0 = Some (take 10 [1; 2; 3] ++ replicate (10 - 3) 0, 4 `max` 10) ∧
         (10 < 3 →
          buffer_of w' 0 = Some (Ptr 7 0) ∧
          ∀ i, 10 ≤ i < 3 → cell w' (position (Ptr 7 0) i) = Some None)) ∧
  Exact.Resize Examples.Int Examples.small_heap 0 100 Examples.w123
  = (Throw, Examples.w123).
Proof.
  assert (view Examples.w123 0 = Some ([1; 2; 3], 4)) as Hv by (vm_compute; reflexivity).
  assert (buffer_of Examples.w123 0 = Some (Ptr 7 0)) as Hb by (vm_compute; reflexivity).
  split; [|split].
  - apply (Resize_spec Examples.Int Examples.small_heap Examples.w123 0 (Ptr 7 0)
             [1; 2; 3] 4 2 nothrow_Int Hv Hb).
    left. lia.
  - apply (Resize_spec Examples.Int Examples.small_heap Examples.w123 0 (Ptr 7 0)
             [1; 2; 3] 4 10 nothrow_Int Hv Hb).
    right. split; vm_compute; reflexivity.
  - apply (Resize_spec Examples.Int Examples.small_heap Examples.w123 0 (Ptr 7 0)
             [1; 2; 3] 4 100 nothrow_Int Hv Hb); [lia|vm_compute; reflexivity..].
Defined.

(** [Resize(100)] on [[1; 2; 3]] with capacity 4, where [operator new]
    does not provide the 400 bytes: [std::bad_alloc] propagates, and the
    size is the 3 it was, not 100. *)
Lemma Resize_bad_alloc :
  view Examples.w123 0 = Some ([1; 2; 3], 4) ∧
  Exact.Resize Examples.Int Examples.small_heap 0 100 Examples.w123
  = (Throw, Examples.w123).
Proof. vm_compute. split; reflexivity. Qed.

(** ** Insert and Emplace *)

(** C4. At every position [begin() + length l1] of a vector holding
    [l1 ++ l2], [Emplace] and both [Insert]s return normally and leave the
    vector holding [l1 ++ v :: l2]: one element more, [v] at the position,
    the others with their values and in their order.  The capacity [cap]
    is arbitrary, so this covers the reallocating and the in-place
    branch. *)
Theorem Insert_spec {T} (E : ElemType T) (w : world T) (this : nat)
    (p : ptr) (l1 l2 : list T) (cap : nat) (a : args T) :
  nothrow E →
  view w this = Some (l1 ++ l2, cap) →
  begin this w = (Ret p, w) →
  let pos := position p (length l1) in
  let v := args_value a in
  (∃ r w' cap', Emplace E this pos a w = (Ret r, w') ∧
                view w' this = Some (l1 ++ v :: l2, cap')) ∧
  (∃ r w' cap', Insert E this pos v w = (Ret r, w') ∧
                view w' this = Some (l1 ++ v :: l2, cap')) ∧
  (∃ r w' cap', Insert_rvalue E this pos v w = (Ret r, w') ∧
                view w' this = Some (l1 ++ v :: l2, cap')) ∧
  length (l1 ++ v :: l2) = S (length (l1 ++ l2)) ∧
  (l1 ++ v :: l2) !! length l1 = Some v.
Proof.
  intros HE Hv Hb pos v.
  destruct (begin_view w this _ cap p Hv Hb) as (rest & H & ->).
  assert (∀ a', ∃ r w' cap',
            EmplaceShared E this pos a' w = (Ret r, w') ∧
            view w' this = Some (l1 ++ args_value a' :: l2, cap')) as Hall.
  { intros a'.
    destruct (EmplaceShared_run E w this p l1 l2 rest a' HE H)
      as (w' & p' & rest' & Hrun & H' & _).
    apply holds_view in H' as [Hv' _]. by eauto. }
  split; [apply Hall|].
  split; [apply (Hall (ByCopy v))|].
  split; [apply (Hall (ByMove v))|].
  split.
  - rewrite !length_app. simpl. lia.
  - by apply list_lookup_middle.
Qed.

Lemma Insert_spec_witness :
  let pos := position (Ptr 7 0) (length [1]) in
  let v := args_value (Args 10) in
  (∃ r w' cap', Emplace Examples.Int 0 pos (Args 10) Examples.w123 = (Ret r, w') ∧
                view w' 0 = Some ([1] ++ v :: [2; 3], cap')) ∧
  (∃ r w' cap', Insert Examples.Int 0 pos v Examples.w123 = (Ret r, w') ∧
                view w' 0 = Some ([1] ++ v :: [2; 3], cap')) ∧
  (∃ r w' cap', Insert_rvalue Examples.Int 0 pos v Examples.w123 = (Ret r, w') ∧
                view w' 0 = Some ([1] ++ v :: [2; 3], cap')) ∧
  length ([1] ++ v :: [2; 3]) = S (length ([1] ++ [2; 3])) ∧
  ([1] ++ v :: [2; 3]) !! length [1] = Some v.
Proof.
  apply (Insert_spec Examples.Int Examples.w123 0 (Ptr 7 0) [1] [2; 3] 4 (Args 10)).
  - exact nothrow_Int.
  - vm_compute. reflexivity.
  - vm_compute. reflexivity.
Defined.

(** C10. [Emplace] and [Insert] return the position of the new element
    in the storage the vector has after the call, and the element there
    is the inserted one; [EmplaceBack] returns the slot of the new last
    element. *)
Theorem Emplace_returns {T} (E : ElemType T) (w : world T) (this : nat)
    (p : ptr) (l1 l2 : list T) (cap : nat) (a : args T) :
  nothrow E →
  view w this = Some (l1 ++ l2, cap) →
  begin this w = (Ret p, w) →
  let v := args_value a in
  (∃ r w' p', Emplace E this (position p (length l1)) a w = (Ret r, w') ∧
              begin this w' = (Ret p', w') ∧
              r = position p' (length l1) ∧
              read r w' = (Ret v, w')) ∧
  (∃ r w' p', Insert E this (position p (length l1)) v w = (Ret r, w') ∧
              begin this w' = (Ret p', w') ∧
              r = position p' (length l1) ∧
              read r w' = (Ret v, w')) ∧
  (∃ r w' p', EmplaceBack E this a w = (Ret r, w') ∧
              begin this w' = (Ret p', w') ∧
              r = position p' (length (l1 ++ l2)) ∧
              read r w' = (Ret v, w') ∧
              ∃ cap', view w' this = Some ((l1 ++ l2) ++ [v], cap')).
Proof.
  intros HE Hv Hb v.
  destruct (begin_view w this _ cap p Hv Hb) as (rest & H & ->).
  assert (∀ k1 k2 a', k1 ++ k2 = l1 ++ l2 → ∃ r w' p',
            EmplaceShared E this (position p (length k1)) a' w = (Ret r, w') ∧
            begin this w' = (Ret p', w') ∧
            r = position p' (length k1) ∧
            read r w' = (Ret (args_value a'), w') ∧
            ∃ cap', view w' this = Some (k1 ++ args_value a' :: k2, cap'))
    as Hall.
  { intros k1 k2 a' Hk. rewrite <- Hk in H.
    destruct (EmplaceShared_run E w this p k1 k2 rest a' HE H)
      as (w' & p' & rest' & Hrun & H' & _).
    pose proof (holds_view _ _ _ _ _ H') as [Hv' _].
    exists (position p' (length k1)), w', p'.
    split; [done|]. split; [by eapply begin_holds|]. split; [done|].
    split; [|by eauto].
    destruct (holds_nonempty_block _ _ _ _ _ H') as [b ->].
    { rewrite length_app. simpl. lia. }
    simpl. by eapply read_holds. }
  split; [|split].
  - destruct (Hall l1 l2 a eq_refl) as (r & w' & p' & ? & ? & ? & ? & _). by eauto 10.
  - destruct (Hall l1 l2 (ByCopy v) eq_refl) as (r & w' & p' & ? & ? & ? & ? & _).
    by eauto 10.
  - destruct (Hall (l1 ++ l2) [] a) as (r & w' & p' & Hrun & ? & ? & ? & ?).
    { by rewrite app_nil_r. }
    exists r, w', p'. split; [|done].
    unfold EmplaceBack. erewrite bind_Ret; [exact Hrun|].
    by eapply end_holds.
Qed.

Lemma Emplace_returns_witness :
  let v := args_value (Args 10) in
  (∃ r w' p', Emplace Examples.Int 0 (position (Ptr 7 0) (length [1])) (Args 10)
                Examples.w123 = (Ret r, w') ∧
              begin 0 w' = (Ret p', w') ∧
              r = position p' (length [1]) ∧
              read r w' = (Ret v, w')) ∧
  (∃ r w' p', Insert Examples.Int 0 (position (Ptr 7 0) (length [1])) v
                Examples.w123 = (Ret r, w') ∧
              begin 0 w' = (Ret p', w') ∧
              r = position p' (length [1]) ∧
              read r w' = (Ret v, w')) ∧
  (∃ r w' p', EmplaceBack Examples.Int 0 (Args 10) Examples.w123 = (Ret r, w') ∧
              begin 0 w' = (Ret p', w') ∧
              r = position p' (length ([1] ++ [2; 3])) ∧
              read r w' = (Ret v, w') ∧
              ∃ cap', view w' 0 = Some (([1] ++ [2; 3]) ++ [v], cap')).
Proof.
  apply (Emplace_returns Examples.Int Examples.w123 0 (Ptr 7 0) [1] [2; 3] 4 (Args 10)).
  - exact nothrow_Int.
  - vm_compute. reflexivity.
  - vm_compute. reflexivity.
Defined.

(** ** Erase *)



(** ** Implicit growth *)

Lemma capacity_after_succ n :
  capacity_after (S n)
  = if decide (n = capacity_after n) then grown n else capacity_after n.
Proof.
  destruct n as [|[|m]]; [reflexivity|reflexivity|].
  set (n := S (S m)). assert (1 < n) as Hn by (unfold n; lia). clearbody n.
  unfold capacity_after, grown.
  rewrite (decide_False (P := S n = 0)) by lia.
  rewrite !(decide_False (P := n = 0)) by lia.
  pose proof (Nat.log2_up_spec n Hn) as [Hlo Hhi].
  set (k := Nat.log2_up n) in *.
  assert (0 < k) as Hk.
  { destruct k; [simpl in Hhi; lia|lia]. }
  case_decide as Hd.
  - assert (Nat.log2_up (S n) = S k) as ->.
    { apply Nat.log2_up_unique; [lia|]. simpl. lia. }
    simpl. lia.
  - assert (Nat.log2_up (S n) = k) as ->; [|done].
    apply Nat.log2_up_unique; [done|]. lia.
Qed.

Lemma push_all_run {T} (E : ElemType T) (w : world T) this p l rest vs :
  nothrow E → holds w this p l rest →
  length l + length rest = capacity_after (length l) →
  ∃ w' p' rest',
    push_all E this vs w = (Ret tt, w') ∧
    holds w' this p' (l ++ vs) rest' ∧
    length (l ++ vs) + length rest' = capacity_after (length (l ++ vs)).
Proof.
  intros HE. revert w p l rest.
  induction vs as [|v vs IH]; intros w p l rest H Hcap.
  - exists w, p, rest. by rewrite app_nil_r.
  - destruct (PushBack_run E w this p l rest v HE H)
      as (w1 & p1 & rest1 & Hrun & H1 & Hcap1).
    destruct (IH w1 p1 (l ++ [v]) rest1 H1) as (w' & p' & rest' & Hrun' & H' & Hcap').
    { rewrite Hcap1, length_app. simpl. rewrite Nat.add_1_r, capacity_after_succ.
      rewrite Hcap. repeat case_decide; done. }
    exists w', p', rest'. rewrite <- app_assoc in H', Hcap'.
    split; [|done]. simpl. by erewrite bind_Ret.
Qed.

(** C2. When size equals capacity, an insertion at any position leaves
    the vector with capacity 1 if the capacity was 0 and with twice the
    capacity otherwise; and after [n] appends to a new empty vector the
    capacity is [capacity_after n], the sequence 0, 1, 2, 4, 8, .... *)
Theorem growth_doubles {T} (E : ElemType T) :
  nothrow E →
  (∀ (w : world T) this p l1 l2 a,
     view w this = Some (l1 ++ l2, length (l1 ++ l2)) →
     begin this w = (Ret p, w) →
     ∃ r w', Emplace E this (position p (length l1)) a w = (Ret r, w') ∧
             view w' this
             = Some (l1 ++ args_value a :: l2,
                     if decide (length (l1 ++ l2) = 0) then 1
                     else length (l1 ++ l2) * 2)) ∧
  (∀ (w : world T) this vs,
     ∃ w', (Vector_default this ;; push_all E this vs) w = (Ret tt, w') ∧
           view w' this = Some (vs, capacity_after (length vs))) ∧
  capacity_after <$> [0; 1; 2; 3; 4; 5; 8; 9] = [0; 1; 2; 4; 4; 8; 8; 16].
Proof.
  intros HE. split; [|split].
  - intros w this p l1 l2 a Hv Hb.
    destruct (begin_view w this _ _ p Hv Hb) as (rest & H & Hcap).
    assert (rest = []) as -> by (destruct rest; [done|simpl in Hcap; lia]).
    destruct (EmplaceShared_run E w this p l1 l2 [] a HE H)
      as (w' & p' & rest' & Hrun & H' & Hfull & _).
    exists (position p' (length l1)), w'. split; [done|].
    apply holds_view in H' as [-> _]. by rewrite Hfull.
  - intros [o h n] this vs.
    erewrite bind_Ret; [|done].
    destruct (push_all_run E (World (<[this := empty_Vector]> o) h n)
                this nullptr [] [] vs HE) as (w' & p' & rest' & Hrun & H' & Hcap).
    { split; simpl; [by rewrite lookup_insert_eq|done]. }
    { done. }
    exists w'. split; [done|].
    apply holds_view in H' as [-> _]. simpl in *. by rewrite Hcap.
  - reflexivity.
Qed.

Lemma growth_doubles_witness :
  ∃ w', (Vector_default 0 ;; push_all Examples.Int 0 [1; 2; 3; 4; 5]) (World ∅ ∅ 0)
        = (Ret tt, w') ∧
        view w' 0 = Some ([1; 2; 3; 4; 5], capacity_after (length [1; 2; 3; 4; 5])).
Proof.
  apply (proj1 (proj2 (growth_doubles Examples.Int nothrow_Int))).
Defined.

(** ** Copy assignment *)

(** C6. Copy-assigning [rhs] to a different vector [this] whose capacity
    is at least the size of [rhs] returns normally without reallocating:
    [this] keeps its storage and its capacity and ends with the elements
    and the size of [rhs]; every element of [rhs] is copied by exactly one
    assignment or construction; the slots of [this] past the new size that held
    elements are destroyed; [rhs] is unchanged. *)
Theorem copy_assign_spec {T} (E : ElemType T) (w : world T) (this rhs : nat)
    (p pr : ptr) (l lr : list T) (cap capr : nat) :
  nothrow E →
  this ≠ rhs →
  view w this = Some (l, cap) → buffer_of w this = Some p →
  view w rhs = Some (lr, capr) → buffer_of w rhs = Some pr →
  separate p pr →
  length lr ≤ cap →
  ∃ w', copy_assign E this rhs w = (Ret tt, w') ∧
        view w' this = Some (lr, cap) ∧
        buffer_of w' this = Some p ∧
        view w' rhs = Some (lr, capr) ∧
        nops w' = nops w + length lr ∧
        ∀ i, length lr ≤ i < length l → cell w' (position p i) = Some None.
Proof.
  intros HE Hne Hv Hb Hvr Hbr Hsep Hfit.
  destruct (view_buffer_holds w this l cap p Hv Hb) as (rest & H & ->).
  destruct (view_buffer_holds w rhs lr capr pr Hvr Hbr) as (restr & Hr & ->).
  destruct (copy_assign_in_place E w this rhs p l rest pr lr restr
              HE Hne H Hr Hsep Hfit)
    as (w' & rest' & Hrun & H' & Hcap & Hr' & Hrest & Hops).
  exists w'. split; [done|].
  pose proof (holds_view _ _ _ _ _ H') as [Hv' Hb'].
  pose proof (holds_view _ _ _ _ _ Hr') as [Hvr' _].
  split; [by rewrite Hv', Hcap|]. split; [done|]. split; [done|]. split; [done|].
  intros i Hi. rewrite Hrest in H'.
  eapply cell_destroyed; [exact H'|]. lia.
Qed.

Lemma copy_assign_spec_witness :
  ∃ w', copy_assign Examples.Int 0 1 Examples.w_two = (Ret tt, w') ∧
        view w' 0 = Some ([8; 9], 4) ∧
        buffer_of w' 0 = Some (Ptr 7 0) ∧
        view w' 1 = Some ([8; 9], 2) ∧
        nops w' = nops Examples.w_two + length [8; 9] ∧
        ∀ i, length [8; 9] ≤ i < length [1; 2; 3] →
             cell w' (position (Ptr 7 0) i) = Some None.
Proof.
  apply (copy_assign_spec Examples.Int Examples.w_two 0 1 (Ptr 7 0) (Ptr 8 0)
           [1; 2; 3] [8; 9] 4 2).
  - exact nothrow_Int.
  - lia.
  - vm_compute. reflexivity.
  - vm_compute. reflexivity.
  - vm_compute. reflexivity.
  - vm_compute. reflexivity.
  - simpl. lia.
  - simpl. lia.
Defined.

(** ** Move construction and move assignment *)

(** C7. Moving from [rhs] into a different vector [this], by the move
    constructor or by move assignment, returns normally, writes no
    block and runs no element operation: [this] takes over the very
    storage, capacity and size of [rhs], hence its elements in their
    order, and [rhs] ends with size 0, capacity 0 and no storage. *)
Theorem move_spec {T} (w : world T) (this rhs : nat) (Vr : Vector)
    (move : nat → nat → M T unit) :
  this ≠ rhs →
  objs w !! rhs = Some Vr →
  move = Vector_move ∨ (move = move_assign ∧ is_Some (objs w !! this)) →
  ∃ w', move this rhs w = (Ret tt, w') ∧
        heap w' = heap w ∧ nops w' = nops w ∧
        objs w' !! this = Some Vr ∧
        objs w' !! rhs = Some empty_Vector ∧
        view w' this = view w rhs ∧
        view w' rhs = Some ([], 0).
Proof.
  intros Hne Hr Hmove. destruct w as [o h n]. simpl in Hr, Hmove.
  exists (World (<[rhs := empty_Vector]> (<[this := Vr]> o)) h n).
  split.
  { destruct Hmove as [-> | [-> [Vt Ht]]].
    - by apply Vector_move_distinct.
    - by eapply move_assign_distinct. }
  split; [done|]. split; [done|]. simpl.
  rewrite lookup_insert_ne, !lookup_insert_eq by done.
  split; [done|]. split; [done|].
  unfold view. simpl.
  rewrite lookup_insert_ne, !lookup_insert_eq, Hr by done. done.
Qed.

Lemma move_spec_witness :
  ∃ w', move_assign 0 1 Examples.w_two = (Ret tt, w') ∧
        heap w' = heap Examples.w_two ∧ nops w' = nops Examples.w_two ∧
        objs w' !! 0
        = Some {| data_ := {| buffer_ := Ptr 8 0; capacity_ := 2 |}; size_ := 2 |} ∧
        objs w' !! 1 = Some empty_Vector ∧
        view w' 0 = view Examples.w_two 1 ∧
        view w' 1 = Some ([], 0).
Proof.
  apply (move_spec Examples.w_two 0 1
           {| data_ := {| buffer_ := Ptr 8 0; capacity_ := 2 |}; size_ := 2 |}
           move_assign).
  - lia.
  - vm_compute. reflexivity.
  - right. split; [reflexivity|]. vm_compute. eexists. reflexivity.
Defined.

(** C9. Move-assigning a vector to itself returns normally and leaves it
    with size 0, capacity 0 and no storage; the block it owned is neither
    released nor are its elements destroyed. *)
Theorem move_assign_self_spec {T} (w : world T) (this : nat) (V : Vector) :
  objs w !! this = Some V →
  ∃ w', move_assign this this w = (Ret tt, w') ∧
        objs w' !! this = Some empty_Vector ∧
        view w' this = Some ([], 0) ∧
        heap w' = heap w ∧ nops w' = nops w.
Proof.
  intros HV. destruct w as [o h n]. simpl in HV.
  exists (World (<[this := empty_Vector]> o) h n).
  split; [by eapply move_assign_self|].
  unfold view. simpl. rewrite lookup_insert_eq. done.
Qed.

Lemma move_assign_self_spec_witness :
  ∃ w', move_assign 0 0 Examples.w123 = (Ret tt, w') ∧
        objs w' !! 0 = Some empty_Vector ∧
        view w' 0 = Some ([], 0) ∧
        heap w' = heap Examples.w123 ∧ nops w' = nops Examples.w123.
Proof.
  apply (move_assign_self_spec Examples.w123 0
           {| data_ := {| buffer_ := Ptr 7 0; capacity_ := 4 |}; size_ := 3 |}).
  vm_compute. reflexivity.
Defined.

(** ** The strong guarantee *)

(** C1 as stated fails: relocation moves the elements of a move-only
    type; when the second move of a [Reserve] throws, the first element
    has been moved from, and the vector that held [[5; 6]] is left
    holding [[0; 6]]. *)
Lemma strong_guarantee_fails_for_move_only :
  ¬ (∀ (E : ElemType nat) (w w' : world nat) (this n : nat),
       Reserve E this n w = (Throw, w') → view w' this = view w this).
Proof.
  intros Hclaim.
  specialize (Hclaim Examples.MoveOnly Examples.w56
                (Reserve Examples.MoveOnly 0 4 Examples.w56).2 0 4).
  assert (view (Reserve Examples.MoveOnly 0 4 Examples.w56).2 0 = Some ([0; 6], 2))
    as Hafter by (vm_compute; reflexivity).
  assert (view Examples.w56 0 = Some ([5; 6], 2)) as Hbefore
    by (vm_compute; reflexivity).
  rewrite Hafter, Hbefore in Hclaim.
  discriminate Hclaim. vm_compute. reflexivity.
Qed.

(** C1, amended.  For every element type except the move-only types
    whose move constructor may throw: when an exception leaves [Reserve],
    or leaves [Emplace]/[Insert] called with size equal to capacity, the
    objects and the heap are exactly what they were before the call, and
    so are the size, the capacity and the elements of the vector. *)
Theorem strong_guarantee {T} (E : ElemType T) (w w' : world T) (this : nat)
    (n : nat) (pos : ptr) (a : args T) :
  relocation_safe E →
  Reserve E this n w = (Throw, w') ∨
  (∃ V, objs w !! this = Some V ∧ size_ V = capacity_ (data_ V) ∧
        (Emplace E this pos a w = (Throw, w') ∨
         Insert E this pos (args_value a) w = (Throw, w') ∨
         Insert_rvalue E this pos (args_value a) w = (Throw, w'))) →
  objs w' = objs w ∧ heap w' = heap w ∧ view w' this = view w this.
Proof.
  intros HT Hthrow.
  assert (objs w' = objs w ∧ heap w' = heap w) as [Ho Hh].
  { destruct Hthrow as [HR | (V & HV & Hfull & [HI | [HI | HI]])].
    - by eapply Reserve_strong.
    - by eapply EmplaceShared_strong.
    - by eapply EmplaceShared_strong.
    - by eapply EmplaceShared_strong. }
  split; [done|]. split; [done|]. by apply view_ext.
Qed.

Lemma strong_guarantee_witness :
  objs (World (objs Examples.w56) (heap Examples.w56) 2) = objs Examples.w56 ∧
  heap (World (objs Examples.w56) (heap Examples.w56) 2) = heap Examples.w56 ∧
  view (World (objs Examples.w56) (heap Examples.w56) 2) 0 = view Examples.w56 0.
Proof.
  apply (strong_guarantee Examples.Throwing Examples.w56
           (World (objs Examples.w56) (heap Examples.w56) 2) 0 4 nullptr (Args 0)).
  - right. reflexivity.
  - left. vm_compute. reflexivity.
Defined.

(** Every throw point is reached: when relocation copies and the copy of
    element [i] is the first operation to throw, [Reserve] does throw, and
    nothing but the count of element operations has changed. *)
Lemma Reserve_throw_point {T} (E : ElemType T) (w : world T) (this : nat)
    (l : list T) (cap n i : nat) :
  relocation_moves E = false →
  view w this = Some (l, cap) →
  cap < n →
  i < length l →
  (∀ j, j < i → throws E CopyCtor (nops w + j) = false) →
  throws E CopyCtor (nops w + i) = true →
  Reserve E this n w = (Throw, World (objs w) (heap w) (S (nops w + i))).
Proof.
  intros Hmode Hv Hn Hi Hquiet Hthrow.
  apply view_holds in Hv as (p & rest & H & ->).
  destruct (drop i l) as [|x xs2] eqn:Hd.
  { apply (f_equal length) in Hd. rewrite length_drop in Hd. simpl in Hd. lia. }
  assert (l = take i l ++ x :: xs2) as Hl by (by rewrite <- Hd, take_drop).
  assert (length (take i l) = i) as Hlen by (rewrite length_take; lia).
  rewrite Hl in H.
  replace (S (nops w + i)) with (S (nops w + length (take i l))) by lia.
  apply (Reserve_copy_throws E w this p (take i l) x xs2 rest n); try done.
  - rewrite <- Hl. lia.
  - by rewrite Hlen.
  - by rewrite Hlen.
Qed.

(** The same for the reallocating branch of [Emplace] and [Insert]: its
    operations are the construction of the new element and one copy for
    each element ([nth_op]); when operation [i] is the first to throw, the
    call throws and nothing but the count of operations has changed. *)
Lemma Emplace_throw_point {T} (E : ElemType T) (w : world T) (this : nat)
    (p : ptr) (l1 l2 : list T) (a : args T) (i : nat) :
  relocation_moves E = false →
  view w this = Some (l1 ++ l2, length (l1 ++ l2)) →
  begin this w = (Ret p, w) →
  i ≤ length (l1 ++ l2) →
  (∀ j, j < i → throws E (nth_op a j) (nops w + j) = false) →
  throws E (nth_op a i) (nops w + i) = true →
  Emplace E this (position p (length l1)) a w
  = (Throw, World (objs w) (heap w) (S (nops w + i))).
Proof.
  intros Hmode Hv Hb Hi Hquiet Hthrow.
  destruct (begin_view w this _ _ p Hv Hb) as (rest & H & Hcap).
  assert (rest = []) as -> by (destruct rest; [done|simpl in Hcap; lia]).
  by apply (EmplaceShared_copy_throws E w this p l1 l2 a i).
Qed.

(** ** Two runs from an empty vector *)

(** [PushBack(1)], [PushBack(2)], [PushBack(3)] give [[1; 2; 3]] with
    capacity 4; [Insert] of 10 at index 1 gives [[1; 10; 2; 3]] in place;
    [Erase] at index 3 gives [[1; 10; 2]], and [Erase] at index 0 of
    [[1; 10; 2; 3]] is undefined. *)
Example run_push_insert_erase :
  let pushed := (Vector_default 0 ;; push_all Examples.Int 0 [1; 2; 3]) (World ∅ ∅ 0) in
  let inserted :=
    (b <- begin 0 ;; Insert Examples.Int 0 (position b 1) 10) pushed.2 in
  let erased :=
    (b <- begin 0 ;; Erase Examples.Int 0 (position b 3)) inserted.2 in
  let erased_first :=
    (b <- begin 0 ;; Erase Examples.Int 0 (position b 0)) inserted.2 in
  view pushed.2 0 = Some ([1; 2; 3], 4) ∧
  view inserted.2 0 = Some ([1; 10; 2; 3], 4) ∧
  buffer_of inserted.2 0 = buffer_of pushed.2 0 ∧
  view erased.2 0 = Some ([1; 10; 2], 4) ∧
  erased_first.1 = Undefined.
Proof. vm_compute. repeat split; reflexivity. Qed.

(** [Resize(5)] on [[10; 2; 3]] gives [[10; 2; 3; 0; 0]]; [Resize(2)] then
    gives [[10; 2]] and keeps the capacity. *)
Example run_resize :
  let start := Examples.vector_at 0 7 [Some 10; Some 2; Some 3; None] 3 in
  let extended := Resize Examples.Int 0 5 start in
  let shrunk := Resize Examples.Int 0 2 extended.2 in
  view extended.2 0 = Some ([10; 2; 3; 0; 0], 5) ∧
  view shrunk.2 0 = Some ([10; 2], 5).
Proof. vm_compute. split; reflexivity. Qed.

(** * Further properties *)

(** ** Construction, copying and destruction *)

(** X1. [Vector(size)] with [size * sizeof(T)] representable in
    [size_t].  When [size] is 0, or [operator new] provides the storage,
    the constructor returns normally with [size] value-initialised
    elements and capacity exactly [size], built by [size] constructor
    calls; for [size = 0] the buffer is null and nothing is allocated.
    Other objects and the blocks that existed keep what they had.  When
    [operator new] fails, the exception propagates, there is no object
    and nothing has changed. *)
Theorem Vector_sized_spec {T} (E : ElemType T) (P : Platform T) (w : world T)
    (this n : nat) :
  nothrow E →
  Exact.representable P n →
  (n = 0 ∨ new_succeeds P w (Exact.bytes P n) = true →
   ∃ w', Exact.Vector_sized E P this n w = (Ret tt, w') ∧
         view w' this = Some (replicate n (value_init E), n) ∧
         (n = 0 → buffer_of w' this = Some nullptr ∧ heap w' = heap w) ∧
         nops w' = nops w + n ∧
         (∀ i, i ≠ this → objs w' !! i = objs w !! i) ∧
         (∀ b cells, heap w !! b = Some cells → heap w' !! b = Some cells)) ∧
  (n ≠ 0 → new_succeeds P w (Exact.bytes P n) = false →
   Exact.Vector_sized E P this n w = (Throw, w)).
Proof.
  intros HE Hr. split; [|by apply Exact_Vector_sized_fails].
  intros Hok. rewrite Exact_Vector_sized_run; cycle 1.
  { intros Hn. destruct Hok as [->|Hok]; done. }
  clear Hok.
  destruct w as [o h nn]. destruct (decide (n = 0)) as [->|Hn].
  - eexists. split; [apply Vector_sized_zero|]. simpl.
    split; [unfold view; simpl; by rewrite lookup_insert_eq|].
    split; [intros _; unfold buffer_of; simpl; by rewrite lookup_insert_eq|].
    split; [lia|]. split; [|done].
    intros i Hi. by rewrite lookup_insert_ne.
  - eexists. split; [by apply Vector_sized_run|]. simpl.
    assert (h !! fresh (dom h) = None) as HB by apply fresh_block.
    split.
    { apply (holds_view_cap _ this (Ptr (fresh (dom h)) 0) _ []).
      - split; simpl.
        + by rewrite lookup_insert_eq, length_replicate, Nat.add_0_r.
        + rewrite lookup_insert_eq, app_nil_r, length_replicate.
          repeat split; try done. lia.
      - simpl. by rewrite length_replicate, Nat.add_0_r. }
    split; [done|]. split; [done|]. split.
    + intros i Hi. by rewrite lookup_insert_ne.
    + intros b cells Hb. rewrite lookup_insert_ne; [done|]. intros <-. congruence.
Qed.

Lemma Vector_sized_spec_witness :
  (∃ w', Exact.Vector_sized Examples.Int Examples.small_heap 5 3 Examples.w123
         = (Ret tt, w') ∧
         view w' 5 = Some (replicate 3 0, 3) ∧
         (3 = 0 → buffer_of w' 5 = Some nullptr ∧ heap w' = heap Examples.w123) ∧
         nops w' = nops Examples.w123 + 3 ∧
         (∀ i, i ≠ 5 → objs w' !! i = objs Examples.w123 !! i) ∧
         (∀ b cells, heap Examples.w123 !! b = Some cells → heap w' !! b = Some cells)) ∧
  Exact.Vector_sized Examples.Int Examples.small_heap 5 100 Examples.w123
  = (Throw, Examples.w123).
Proof.
  split.
  - apply (Vector_sized_spec Examples.Int Examples.small_heap Examples.w123 5 3
             nothrow_Int); [vm_compute; reflexivity|].
    right. vm_compute. reflexivity.
  - apply (Vector_sized_spec Examples.Int Examples.small_heap Examples.w123 5 100
             nothrow_Int); [vm_compute; reflexivity|lia|vm_compute; reflexivity].
Defined.

(** X2. The copy constructor returns normally with the elements of
    [other] in order, built by one copy construction each.  The capacity
    of the copy is the size of [other], not its capacity.  The copy owns
    storage of its own, [other] is unchanged, and so is every block that
    existed. *)
Theorem Vector_copy_spec {T} (E : ElemType T) (w : world T) (this other : nat)
    (l : list T) (cap : nat) :
  nothrow E → this ≠ other →
  view w other = Some (l, cap) →
  ∃ w' p' p,
    Vector_copy E this other w = (Ret tt, w') ∧
    view w' this = Some (l, length l) ∧
    view w' other = Some (l, cap) ∧
    buffer_of w' this = Some p' ∧ buffer_of w' other = Some p ∧ separate p' p ∧
    nops w' = nops w + length l ∧
    (∀ b cells, heap w !! b = Some cells → heap w' !! b = Some cells).
Proof.
  intros HE Hne Hv. apply view_holds in Hv as (p & rest & H & ->).
  destruct w as [o h nn]. pose proof H as [HV Hp]. simpl in HV, Hp.
  destruct (decide (l = [])) as [->|Hl].
  - eexists _, nullptr, p. split; [by eapply Vector_copy_empty|].
    split; [unfold view; simpl; by rewrite lookup_insert_eq|].
    split.
    { apply (holds_view_cap _ other p [] rest); [|done].
      split; simpl; [by rewrite lookup_insert_ne|done]. }
    unfold buffer_of. simpl. rewrite lookup_insert_eq, lookup_insert_ne, HV by done.
    simpl. repeat split; try done; lia.
  - destruct (holds_nonempty_block _ _ _ _ _ H) as [b ->].
    { destruct l; [done|simpl; lia]. }
    destruct Hp as (_ & Hc & Hb).
    assert (h !! fresh (dom h) = None) as HB by apply fresh_block.
    assert (b ≠ fresh (dom h)) as HbB by (intros Heq; rewrite <- Heq in HB; congruence).
    eexists _, (Ptr (fresh (dom h)) 0), (Ptr b 0).
    split; [by eapply Vector_copy_run|].
    split.
    { apply (holds_view_cap _ this (Ptr (fresh (dom h)) 0) l []).
      - split; simpl.
        + by rewrite lookup_insert_eq, Nat.add_0_r.
        + rewrite lookup_insert_eq, app_nil_r. repeat split; try done.
          destruct l; [done|simpl; lia].
      - simpl. by rewrite Nat.add_0_r. }
    split.
    { apply (holds_view_cap _ other (Ptr b 0) l rest); [|done].
      split; simpl; [by rewrite lookup_insert_ne|].
      rewrite lookup_insert_ne by done. done. }
    unfold buffer_of. simpl. rewrite lookup_insert_eq, lookup_insert_ne, HV by done.
    simpl. repeat split; try done.
    intros b' cells Hb'. rewrite lookup_insert_ne; [done|]. intros <-. congruence.
Qed.

Lemma Vector_copy_spec_witness :
  ∃ w' p' p,
    Vector_copy Examples.Int 5 0 Examples.w123 = (Ret tt, w') ∧
    view w' 5 = Some ([1; 2; 3], length [1; 2; 3]) ∧
    view w' 0 = Some ([1; 2; 3], 4) ∧
    buffer_of w' 5 = Some p' ∧ buffer_of w' 0 = Some p ∧ separate p' p ∧
    nops w' = nops Examples.w123 + length [1; 2; 3] ∧
    (∀ b cells, heap Examples.w123 !! b = Some cells → heap w' !! b = Some cells).
Proof.
  apply (Vector_copy_spec Examples.Int Examples.w123 5 0 [1; 2; 3] 4).
  - exact nothrow_Int.
  - lia.
  - vm_compute. reflexivity.
Defined.

(** X3. The destructor returns normally: the object is gone, its storage
    is released as a whole (no slot of it can be reached any more), and
    no other block and no other object is touched.  No constructor or
    assignment of [T] runs. *)
Theorem Vector_dtor_spec {T} (w : world T) (this : nat) (p : ptr)
    (l : list T) (cap : nat) :
  view w this = Some (l, cap) →
  buffer_of w this = Some p →
  ∃ w', Vector_dtor this w = (Ret tt, w') ∧
        objs w' = delete this (objs w) ∧
        (∀ i, cell w' (position p i) = None) ∧
        (∀ b, Ptr b 0 ≠ p → heap w' !! b = heap w !! b) ∧
        nops w' = nops w.
Proof.
  intros Hv Hb. destruct (view_buffer_holds w this l cap p Hv Hb) as (rest & H & ->).
  destruct w as [o h nn]. pose proof H as [HV Hp]. simpl in HV, Hp.
  destruct p as [|b off].
  - destruct Hp as [-> ->]. eexists. split; [by apply Vector_dtor_null|].
    simpl. repeat split; done.
  - destruct Hp as (-> & _ & _).
    eexists. split; [by eapply Vector_dtor_block|]. simpl.
    split; [done|]. split; [|split; [|done]].
    + intros i. unfold cell. simpl. by rewrite lookup_delete_eq.
    + intros b' Hb'. rewrite lookup_delete_ne; [done|]. congruence.
Qed.

Lemma Vector_dtor_spec_witness :
  ∃ w', Vector_dtor 0 Examples.w123 = (Ret tt, w') ∧
        objs w' = delete 0 (objs Examples.w123) ∧
        (∀ i, cell w' (position (Ptr 7 0) i) = None) ∧
        (∀ b, Ptr b 0 ≠ Ptr 7 0 → heap w' !! b = heap Examples.w123 !! b) ∧
        nops w' = nops Examples.w123.
Proof.
  apply (Vector_dtor_spec Examples.w123 0 (Ptr 7 0) [1; 2; 3] 4).
  - vm_compute. reflexivity.
  - vm_compute. reflexivity.
Defined.

(** X4. A vector that is constructed and destroyed leaves nothing
    behind: after [Vector v(n)], with [n * sizeof(T)] representable in
    [size_t] and storage that [operator new] provides, or [Vector v(other)],
    followed by the destructor of [v], the objects and the heap are
    exactly what they were; only the element constructions have been
    counted. *)
Theorem Vector_lifetime {T} (E : ElemType T) (P : Platform T) (w : world T)
    (this : nat) :
  nothrow E →
  objs w !! this = None →
  (∀ n, Exact.representable P n →
        (n = 0 ∨ new_succeeds P w (Exact.bytes P n) = true) →
        (Exact.Vector_sized E P this n ;; Vector_dtor this) w
        = (Ret tt, World (objs w) (heap w) (nops w + n))) ∧
  (∀ other l cap,
     view w other = Some (l, cap) →
     (Vector_copy E this other ;; Vector_dtor this) w
     = (Ret tt, World (objs w) (heap w) (nops w + length l))).
Proof.
  intros HE Hthis.
  split.
  - intros n Hr Hok. unfold bind. rewrite Exact_Vector_sized_run; cycle 1.
    { intros Hn. destruct Hok as [->|Hok]; done. }
    clear Hok Hr. fold (bind (Vector_sized E this n) (λ _, Vector_dtor this) w).
    destruct w as [o h nn]. simpl in Hthis.
    assert (h !! fresh (dom h) = None) as HB by apply fresh_block.
    destruct (decide (n = 0)) as [->|Hn].
    + erewrite bind_Ret; [|apply Vector_sized_zero].
      rewrite Vector_dtor_null by (by rewrite lookup_insert_eq).
      simpl. by rewrite delete_insert_id, Nat.add_0_r.
    + erewrite bind_Ret; [|by apply Vector_sized_run].
      erewrite (Vector_dtor_block _ _ _ _ _ (replicate n (value_init E)) []).
      * by rewrite !delete_insert_id.
      * split; simpl.
        -- by rewrite lookup_insert_eq, length_replicate, Nat.add_0_r.
        -- rewrite lookup_insert_eq, app_nil_r, length_replicate.
           repeat split; try done. lia.
  - destruct w as [o h nn]. simpl in Hthis.
    assert (h !! fresh (dom h) = None) as HB by apply fresh_block.
    intros other l cap Hv. apply view_holds in Hv as (p & rest & H & ->).
    assert (this ≠ other) as Hne.
    { intros ->. destruct H as [HV _]. simpl in HV. congruence. }
    destruct (decide (l = [])) as [->|Hl].
    + erewrite bind_Ret; [|by eapply Vector_copy_empty].
      rewrite Vector_dtor_null by (by rewrite lookup_insert_eq).
      simpl. by rewrite delete_insert_id, Nat.add_0_r.
    + destruct (holds_nonempty_block _ _ _ _ _ H) as [b ->].
      { destruct l; [done|simpl; lia]. }
      erewrite bind_Ret; [|by eapply Vector_copy_run].
      erewrite (Vector_dtor_block _ _ _ _ _ l []).
      * by rewrite !delete_insert_id.
      * split; simpl.
        -- by rewrite lookup_insert_eq, Nat.add_0_r.
        -- rewrite lookup_insert_eq, app_nil_r. repeat split; try done.
           destruct l; [done|simpl; lia].
Qed.

Lemma Vector_lifetime_witness :
  (Exact.Vector_sized Examples.Int Examples.small_heap 5 3 ;; Vector_dtor 5) Examples.w123
  = (Ret tt, World (objs Examples.w123) (heap Examples.w123) (nops Examples.w123 + 3)) ∧
  (Vector_copy Examples.Int 5 0 ;; Vector_dtor 5) Examples.w123
  = (Ret tt, World (objs Examples.w123) (heap Examples.w123)
                   (nops Examples.w123 + length [1; 2; 3])).
Proof.
  assert (objs Examples.w123 !! 5 = None) as H by (vm_compute; reflexivity).
  split.
  - apply (proj1 (Vector_lifetime Examples.Int Examples.small_heap Examples.w123 5
                    nothrow_Int H)).
    + vm_compute. reflexivity.
    + right. vm_compute. reflexivity.
  - apply (proj2 (Vector_lifetime Examples.Int Examples.small_heap Examples.w123 5
                    nothrow_Int H) 0 [1; 2; 3] 4).
    vm_compute. reflexivity.
Defined.

(** X5. A constructor that throws leaves nothing behind, whatever the
    element type: when a value construction throws in [Vector(size)], or
    a copy construction in [Vector(const Vector&)], the elements built so
    far are destroyed, the block is released and there is no object; the
    objects and the heap are what they were before the call. *)
Theorem constructor_throw_is_clean {T} (E : ElemType T) (w w' : world T)
    (this other n : nat) :
  objs w !! this = None →
  Vector_sized E this n w = (Throw, w') ∨
  (this ≠ other ∧ Vector_copy E this other w = (Throw, w')) →
  objs w' = objs w ∧ heap w' = heap w.
Proof.
  intros Hthis [Hr|[Hne Hr]].
  - apply Vector_sized_throws in Hr as [-> ->]. by rewrite delete_id.
  - apply Vector_copy_throws in Hr as [-> ->]; [|done]. by rewrite delete_id.
Qed.

Lemma constructor_throw_is_clean_witness :
  ∃ w', Vector_copy Examples.Throwing 5 0 Examples.w123 = (Throw, w') ∧
        objs w' = objs Examples.w123 ∧ heap w' = heap Examples.w123.
Proof.
  exists (World (objs Examples.w123) (heap Examples.w123) 2).
  split; [vm_compute; reflexivity|].
  apply (constructor_throw_is_clean Examples.Throwing Examples.w123 _ 5 0 3).
  - vm_compute. reflexivity.
  - right. split; [lia|]. vm_compute. reflexivity.
Defined.

(** ** Copy assignment, all branches *)

(** X6. Copy assignment makes a copy in every case.  For well-formed
    [this] and [rhs] (the same object, or two objects with storage of
    their own) [this = rhs] returns normally; afterwards [this] holds the
    elements of [rhs] in order, its capacity is the larger of its old
    capacity and the size of [rhs] (it never shrinks), and [rhs] is
    unchanged.  Assigning a vector to itself changes nothing at all. *)
Theorem copy_assign_copies {T} (E : ElemType T) (w : world T) (this rhs : nat)
    (l lr : list T) (cap capr : nat) :
  nothrow E →
  view w this = Some (l, cap) →
  view w rhs = Some (lr, capr) →
  (this ≠ rhs →
   ∃ p pr, buffer_of w this = Some p ∧ buffer_of w rhs = Some pr ∧ separate p pr) →
  ∃ w', copy_assign E this rhs w = (Ret tt, w') ∧
        view w' this = Some (lr, cap `max` length lr) ∧
        view w' rhs = Some (lr, capr) ∧
        (this = rhs → w' = w).
Proof.
  intros HE Hv Hvr Hsep.
  destruct (decide (this = rhs)) as [->|Hne].
  - exists w. unfold copy_assign. rewrite decide_False by (intros H; by apply H).
    split; [done|]. rewrite Hv in Hvr. injection Hvr as <- <-.
    split; [|done]. rewrite Hv. do 2 f_equal.
    apply view_holds in Hv as (p & rest & _ & ->). lia.
  - destruct (Hsep Hne) as (p & pr & Hb & Hbr & Hs).
    destruct (view_buffer_holds w this l cap p Hv Hb) as (rest & H & ->).
    destruct (view_buffer_holds w rhs lr capr pr Hvr Hbr) as (restr & Hr & ->).
    destruct (decide (length lr ≤ length l + length rest)) as [Hle|Hgt].
    + destruct (copy_assign_in_place E w this rhs p l rest pr lr restr HE Hne H Hr Hs Hle)
        as (w' & rest' & Hrun & H' & Hcap & Hr' & _).
      exists w'. split; [exact Hrun|]. split; [|split; [|done]].
      * apply (holds_view_cap _ _ p _ rest' _ H'). lia.
      * by apply (holds_view_cap _ _ pr _ restr _ Hr').
    + destruct (copy_assign_realloc E w this rhs p l rest pr lr restr HE Hne H Hr Hs)
        as (w' & B & Hrun & H' & Hr' & _); [lia|].
      exists w'. split; [exact Hrun|]. split; [|split; [|done]].
      * apply (holds_view_cap _ _ (Ptr B 0) _ [] _ H'). simpl. lia.
      * by apply (holds_view_cap _ _ pr _ restr _ Hr').
Qed.

Lemma copy_assign_copies_witness :
  ∃ w', copy_assign Examples.Int 1 0 Examples.w_two = (Ret tt, w') ∧
        view w' 1 = Some ([1; 2; 3], 2 `max` length [1; 2; 3]) ∧
        view w' 0 = Some ([1; 2; 3], 4) ∧
        (1 = 0 → w' = Examples.w_two).
Proof.
  apply (copy_assign_copies Examples.Int Examples.w_two 1 0 [8; 9] [1; 2; 3] 2 4).
  - exact nothrow_Int.
  - vm_compute. reflexivity.
  - vm_compute. reflexivity.
  - intros _. exists (Ptr 8 0), (Ptr 7 0).
    split; [vm_compute; reflexivity|]. split; [vm_compute; reflexivity|].
    simpl. lia.
Defined.

(** X7. When [rhs] has more elements than [this] has capacity, copy
    assignment reallocates by copy and swap: [this] ends with storage of
    exactly [rhs.size()] slots, all of them constructed by one copy each;
    its previous storage is released as a whole; the temporary copy is
    gone again, so no object but [this] changed; no other block changed. *)
Theorem copy_assign_reallocates {T} (E : ElemType T) (w : world T) (this rhs : nat)
    (p pr : ptr) (l lr : list T) (cap capr : nat) :
  nothrow E → this ≠ rhs →
  view w this = Some (l, cap) → buffer_of w this = Some p →
  view w rhs = Some (lr, capr) → buffer_of w rhs = Some pr →
  separate p pr →
  cap < length lr →
  ∃ w' p',
    copy_assign E this rhs w = (Ret tt, w') ∧
    view w' this = Some (lr, length lr) ∧
    buffer_of w' this = Some p' ∧ cell w (position p' 0) = None ∧
    (∀ i, cell w' (position p i) = None) ∧
    (∀ i, i ≠ this → objs w' !! i = objs w !! i) ∧
    (∀ b, Ptr b 0 ≠ p → Ptr b 0 ≠ p' → heap w' !! b = heap w !! b) ∧
    nops w' = nops w + length lr.
Proof.
  intros HE Hne Hv Hb Hvr Hbr Hs Hlt.
  destruct (view_buffer_holds w this l cap p Hv Hb) as (rest & H & ->).
  destruct (view_buffer_holds w rhs lr capr pr Hvr Hbr) as (restr & Hr & ->).
  destruct (copy_assign_realloc E w this rhs p l rest pr lr restr HE Hne H Hr Hs Hlt)
    as (w' & B & Hrun & H' & Hr' & HB & Ho & Hh & Hold & Hn).
  exists w', (Ptr B 0). split; [exact Hrun|].
  split; [apply (holds_view_cap _ _ (Ptr B 0) _ [] _ H'); simpl; lia|].
  split; [by apply holds_view in H' as [_ ?]|].
  split; [unfold cell; simpl; by rewrite HB|].
  split.
  { intros i. destruct p as [|b off]; [done|].
    assert (off = 0) as -> by (destruct H as [_ [? _]]; done).
    unfold cell. simpl. by rewrite (Hold b). }
  split; [exact Ho|]. split; [|exact Hn].
  intros b Hbp HbB. apply Hh; [done|congruence].
Qed.

Lemma copy_assign_reallocates_witness :
  ∃ w' p',
    copy_assign Examples.Int 1 0 Examples.w_two = (Ret tt, w') ∧
    view w' 1 = Some ([1; 2; 3], length [1; 2; 3]) ∧
    buffer_of w' 1 = Some p' ∧ cell Examples.w_two (position p' 0) = None ∧
    (∀ i, cell w' (position (Ptr 8 0) i) = None) ∧
    (∀ i, i ≠ 1 → objs w' !! i = objs Examples.w_two !! i) ∧
    (∀ b, Ptr b 0 ≠ Ptr 8 0 → Ptr b 0 ≠ p' → heap w' !! b = heap Examples.w_two !! b) ∧
    nops w' = nops Examples.w_two + length [1; 2; 3].
Proof.
  apply (copy_assign_reallocates Examples.Int Examples.w_two 1 0
           (Ptr 8 0) (Ptr 7 0) [8; 9] [1; 2; 3] 2 4).
  - exact nothrow_Int.
  - lia.
  - vm_compute. reflexivity.
  - vm_compute. reflexivity.
  - vm_compute. reflexivity.
  - vm_compute. reflexivity.
  - simpl. lia.
  - simpl. lia.
Defined.

(** X8. Copy assignment that has to reallocate gives the strong
    guarantee for every element type: the copy is built aside, so when a
    copy construction throws, the objects and the heap are what they were
    before the call, and [this] still holds what it held. *)
Theorem copy_assign_strong {T} (E : ElemType T) (w w' : world T) (this rhs : nat)
    (Vt Vr : Vector) :
  objs w !! this = Some Vt → objs w !! rhs = Some Vr →
  capacity_ (data_ Vt) < size_ Vr →
  copy_assign E this rhs w = (Throw, w') →
  objs w' = objs w ∧ heap w' = heap w ∧ view w' this = view w this.
Proof.
  intros HVt HVr Hlt Hr.
  destruct (copy_assign_realloc_strong E w this rhs Vt Vr w' HVt HVr Hlt Hr) as [Ho Hh].
  split; [done|]. split; [done|]. by apply view_ext.
Qed.

Lemma copy_assign_strong_witness :
  ∃ w', copy_assign Examples.Throwing 1 0 Examples.w_two = (Throw, w') ∧
        objs w' = objs Examples.w_two ∧ heap w' = heap Examples.w_two ∧
        view w' 1 = view Examples.w_two 1.
Proof.
  exists (World (objs Examples.w_two) (heap Examples.w_two) 2).
  split; [vm_compute; reflexivity|].
  eapply (copy_assign_strong Examples.Throwing Examples.w_two _ 1 0).
  - vm_compute. reflexivity.
  - vm_compute. reflexivity.
  - simpl. lia.
  - vm_compute. reflexivity.
Defined.

(** ** Swap *)

(** X9. [Swap] exchanges the contents of two vectors by exchanging their
    buffer, capacity and size: each ends with what the other held; no
    block is written and no element operation runs.  Swapping a vector
    with itself, and swapping twice, change nothing. *)
Theorem Swap_spec {T} (w : world T) (this other : nat) (Vt Vo : Vector) :
  objs w !! this = Some Vt → objs w !! other = Some Vo →
  ∃ w', Swap this other w = (Ret tt, w') ∧
        objs w' !! this = Some Vo ∧ objs w' !! other = Some Vt ∧
        (∀ i, i ≠ this → i ≠ other → objs w' !! i = objs w !! i) ∧
        heap w' = heap w ∧ nops w' = nops w ∧
        view w' this = view w other ∧ view w' other = view w this ∧
        (this = other → w' = w) ∧
        Swap this other w' = (Ret tt, w).
Proof.
  intros Ht Ho. destruct w as [o h n]. simpl in Ht, Ho.
  destruct (decide (this = other)) as [->|Hne].
  - rewrite Ht in Ho. injection Ho as <-.
    exists (World o h n). split; [by eapply Swap_self|].
    repeat split; try done. by eapply Swap_self.
  - eexists. split; [by apply Swap_distinct|]. simpl.
    split; [by rewrite lookup_insert_ne, lookup_insert_eq|].
    split; [by rewrite lookup_insert_eq|].
    split; [intros i Hi Hio; by rewrite !lookup_insert_ne|].
    split; [done|]. split; [done|].
    split; [unfold view; simpl; by rewrite lookup_insert_ne, lookup_insert_eq, Ho|].
    split; [unfold view; simpl; by rewrite lookup_insert_eq, Ht|].
    split; [done|].
    erewrite (Swap_distinct _ _ _ this other Vo Vt); try done.
    + f_equal. f_equal. apply map_eq. intros i.
      destruct (decide (i = other)) as [->|Hio];
        [by rewrite lookup_insert_eq|].
      rewrite lookup_insert_ne by done.
      destruct (decide (i = this)) as [->|Hit];
        [by rewrite lookup_insert_eq|].
      by rewrite !lookup_insert_ne.
    + by rewrite lookup_insert_ne, lookup_insert_eq.
    + by rewrite lookup_insert_eq.
Qed.

Lemma Swap_spec_witness :
  ∃ w', Swap 0 1 Examples.w_two = (Ret tt, w') ∧
        objs w' !! 0 = Some {| data_ := {| buffer_ := Ptr 8 0; capacity_ := 2 |};
                               size_ := 2 |} ∧
        objs w' !! 1 = Some {| data_ := {| buffer_ := Ptr 7 0; capacity_ := 4 |};
                               size_ := 3 |} ∧
        (∀ i, i ≠ 0 → i ≠ 1 → objs w' !! i = objs Examples.w_two !! i) ∧
        heap w' = heap Examples.w_two ∧ nops w' = nops Examples.w_two ∧
        view w' 0 = view Examples.w_two 1 ∧ view w' 1 = view Examples.w_two 0 ∧
        (0 = 1 → w' = Examples.w_two) ∧
        Swap 0 1 w' = (Ret tt, Examples.w_two).
Proof.
  apply (Swap_spec Examples.w_two 0 1).
  - vm_compute. reflexivity.
  - vm_compute. reflexivity.
Defined.

(** ** Element access and iterators *)

(** X10. [operator[]] with assertions enabled: for an index below the
    size it returns the slot [begin() + index], which holds the element
    at that index, and changes nothing; for any other index the
    assertion fails and the program is aborted. *)
Theorem Vector_at_spec {T} (w : world T) (this : nat) (l : list T) (cap i : nat) :
  view w this = Some (l, cap) →
  (∀ x, l !! i = Some x →
     ∃ r, Vector_at this i w = (Ret r, w) ∧ read r w = (Ret x, w) ∧
          ∀ p, buffer_of w this = Some p → r = position p i) ∧
  (length l ≤ i → Vector_at this i w = (Abort, w)).
Proof.
  intros Hv. apply view_holds in Hv as (p & rest & H & ->).
  pose proof H as [HV Hp]. destruct w as [o h n]. simpl in HV.
  split.
  - intros x Hx.
    pose proof (lookup_lt_Some _ _ _ Hx) as Hi.
    exists (position p i). split; [|split].
    + eapply Vector_at_run; [exact HV|done|lia].
    + destruct (holds_nonempty_block _ _ _ _ _ H) as [b ->]; [lia|].
      rewrite <- (take_drop_middle l i x Hx) in H.
      replace i with (length (take i l)) at 1 by (rewrite length_take; lia).
      by eapply read_holds.
    + intros p'. unfold buffer_of. simpl. rewrite HV. simpl. by intros [= <-].
  - intros Hi. unfold Vector_at.
    erewrite bind_Ret; [|by apply Size_at]. simpl.
    unfold bind, assert.
    destruct (i <? length l) eqn:Hlt; [apply Nat.ltb_lt in Hlt; lia|done].
Qed.

Lemma Vector_at_spec_witness :
  (∀ x, [1; 2; 3] !! 1 = Some x →
     ∃ r, Vector_at 0 1 Examples.w123 = (Ret r, Examples.w123) ∧
          read r Examples.w123 = (Ret x, Examples.w123) ∧
          ∀ p, buffer_of Examples.w123 0 = Some p → r = position p 1) ∧
  (length [1; 2; 3] ≤ 1 → Vector_at 0 1 Examples.w123 = (Abort, Examples.w123)).
Proof.
  apply (Vector_at_spec Examples.w123 0 [1; 2; 3] 4 1).
  vm_compute. reflexivity.
Defined.

(** X11. The observers change nothing.  [Size()] is the number of
    elements and [Capacity()] the capacity.  [begin()] and [end()]
    delimit exactly the elements: [end() = begin() + size], their
    distance is the size, and reading [begin() + i] gives the element at
    index [i].  Both are null for a vector of capacity 0 and point into
    the vector's own storage otherwise; [cbegin()] and [cend()] return
    the same. *)
Theorem begin_end_spec {T} (w : world T) (this : nat) (l : list T) (cap : nat) :
  view w this = Some (l, cap) →
  ∃ b e, Size this w = (Ret (length l), w) ∧ Capacity this w = (Ret cap, w) ∧
         begin this w = (Ret b, w) ∧ end_ this w = (Ret e, w) ∧
         cbegin this w = (Ret b, w) ∧ cend this w = (Ret e, w) ∧
         e = position b (length l) ∧
         distance b e w = (Ret (length l), w) ∧
         buffer_of w this = Some b ∧
         (cap = 0 ↔ b = nullptr) ∧
         (∀ i x, l !! i = Some x → read (position b i) w = (Ret x, w)).
Proof.
  intros Hv. apply view_holds in Hv as (p & rest & H & ->).
  exists p, (position p (length l)).
  split; [destruct H as [HV _], w; by rewrite (Size_at _ _ _ _ _ HV)|].
  split; [destruct H as [HV _], w; by rewrite (Capacity_at _ _ _ _ _ HV)|].
  split; [by eapply begin_holds|]. split; [by eapply end_holds|].
  split; [by eapply begin_holds|]. split; [by eapply end_holds|].
  split; [done|]. split.
  { destruct p as [|b off]; [by destruct H as [_ [-> _]]|].
    assert (off = 0) as -> by (destruct H as [_ [? _]]; done).
    unfold position, ptr_add. rewrite distance_run by lia. do 2 f_equal. lia. }
  split; [by apply holds_view in H as [_ ?]|]. split.
  { destruct p as [|b off].
    - destruct H as [_ [-> ->]]. done.
    - destruct H as [_ (_ & Hc & _)]. split; [lia|done]. }
  intros i x Hx.
  pose proof (lookup_lt_Some _ _ _ Hx) as Hi.
  destruct (holds_nonempty_block _ _ _ _ _ H) as [b ->]; [lia|].
  rewrite <- (take_drop_middle l i x Hx) in H.
  replace i with (length (take i l)) at 1 by (rewrite length_take; lia).
  by eapply read_holds.
Qed.

Lemma begin_end_spec_witness :
  ∃ b e, Size 0 Examples.w123 = (Ret (length [1; 2; 3]), Examples.w123) ∧
         Capacity 0 Examples.w123 = (Ret 4, Examples.w123) ∧
         begin 0 Examples.w123 = (Ret b, Examples.w123) ∧
         end_ 0 Examples.w123 = (Ret e, Examples.w123) ∧
         cbegin 0 Examples.w123 = (Ret b, Examples.w123) ∧
         cend 0 Examples.w123 = (Ret e, Examples.w123) ∧
         e = position b (length [1; 2; 3]) ∧
         distance b e Examples.w123 = (Ret (length [1; 2; 3]), Examples.w123) ∧
         buffer_of Examples.w123 0 = Some b ∧
         (4 = 0 ↔ b = nullptr) ∧
         (∀ i x, [1; 2; 3] !! i = Some x →
                 read (position b i) Examples.w123 = (Ret x, Examples.w123)).
Proof.
  apply (begin_end_spec Examples.w123 0 [1; 2; 3] 4).
  vm_compute. reflexivity.
Defined.

(** ** Removing and appending at the end *)

(** X12. [PopBack] on a non-empty vector returns normally: the last
    element is destroyed and the size drops by one; the other elements,
    the storage and the capacity stay, and no constructor or assignment
    runs.  On an empty vector [size_ - 1] has no meaning and the
    behaviour is undefined. *)
Theorem PopBack_spec {T} (w : world T) (this : nat) (p : ptr) (l : list T) (cap : nat) :
  view w this = Some (l, cap) →
  buffer_of w this = Some p →
  (l = [] → PopBack this w = (Undefined, w)) ∧
  (∀ l' x, l = l' ++ [x] →
     ∃ w', PopBack this w = (Ret tt, w') ∧
           view w' this = Some (l', cap) ∧
           buffer_of w' this = Some p ∧
           cell w' (position p (length l')) = Some None ∧
           nops w' = nops w ∧
           (∀ i, i ≠ this → objs w' !! i = objs w !! i)).
Proof.
  intros Hv Hb. destruct (view_buffer_holds w this l cap p Hv Hb) as (rest & H & ->).
  split.
  - intros ->. by eapply PopBack_empty.
  - intros l' x ->.
    destruct (PopBack_run w this p l' x rest H) as (w' & Hrun & H' & Hn & Ho).
    exists w'. split; [exact Hrun|].
    split.
    { apply (holds_view_cap _ _ p _ (None :: rest) _ H').
      rewrite length_app. simpl. lia. }
    split; [by apply holds_view in H' as [_ ?]|].
    split; [|done].
    apply (cell_destroyed w' this p l' 1 rest (length l')); [exact H'|lia].
Qed.

Lemma PopBack_spec_witness :
  ([1; 2; 3] = [] → PopBack 0 Examples.w123 = (Undefined, Examples.w123)) ∧
  (∀ l' x, [1; 2; 3] = l' ++ [x] →
     ∃ w', PopBack 0 Examples.w123 = (Ret tt, w') ∧
           view w' 0 = Some (l', 4) ∧
           buffer_of w' 0 = Some (Ptr 7 0) ∧
           cell w' (position (Ptr 7 0) (length l')) = Some None ∧
           nops w' = nops Examples.w123 ∧
           (∀ i, i ≠ 0 → objs w' !! i = objs Examples.w123 !! i)).
Proof.
  apply (PopBack_spec Examples.w123 0 (Ptr 7 0) [1; 2; 3] 4).
  - vm_compute. reflexivity.
  - vm_compute. reflexivity.
Defined.

(** X13. Both overloads of [PushBack] append: the vector ends with the
    old elements followed by the new one.  With room left the storage and
    the capacity stay and exactly one element is constructed; with
    [size = capacity] the capacity becomes 1 or doubles, and the call
    constructs the new element and relocates each old one once. *)
Theorem PushBack_spec {T} (E : ElemType T) (push : nat → T → M T unit)
    (w : world T) (this : nat) (l : list T) (cap : nat) (v : T) :
  nothrow E →
  push = PushBack E ∨ push = PushBack_rvalue E →
  view w this = Some (l, cap) →
  ∃ w', push this v w = (Ret tt, w') ∧
        view w' this
        = Some (l ++ [v], if decide (length l = cap) then grown cap else cap) ∧
        nops w' = (if decide (length l = cap) then nops w + length l + 1
                   else nops w + 1) ∧
        (length l < cap → buffer_of w' this = buffer_of w this).
Proof.
  intros HE Hpush Hv. apply view_holds in Hv as (p & rest & H & ->).
  assert (∃ a, args_value a = v ∧
               push this v w = (EmplaceBack E this a ;; ret tt) w)
    as (a & Ha & ->).
  { destruct Hpush as [->| ->].
    - exists (ByCopy v). split; [done|]. apply PushBack_EmplaceBack.
    - exists (ByMove v). split; [done|]. apply PushBack_rvalue_EmplaceBack. }
  destruct (EmplaceBack_run E w this p l rest a HE H)
    as (w' & p' & rest' & Hrun & H' & Hcap & Hn & Hp).
  rewrite Ha in H', Hcap.
  exists w'. split; [by erewrite bind_Ret|].
  assert (rest = [] ↔ length l = length l + length rest) as Hfull.
  { destruct rest; simpl; split; try done; lia. }
  split; [|split].
  - apply (holds_view_cap _ _ p' _ rest' _ H'). rewrite Hcap.
    repeat case_decide; try done; try tauto.
    by replace (length l + length rest) with (length l) by lia.
  - rewrite Hn. repeat case_decide; try lia; tauto.
  - intros Hlt. rewrite (Hp ltac:(intros ->; simpl in Hlt; lia)) in H'.
    apply holds_view in H' as [_ ->]. by apply holds_view in H as [_ ->].
Qed.

Lemma PushBack_spec_witness :
  ∃ w', PushBack_rvalue Examples.Int 0 4 Examples.w123 = (Ret tt, w') ∧
        view w' 0
        = Some ([1; 2; 3] ++ [4], if decide (length [1; 2; 3] = 4) then grown 4 else 4) ∧
        nops w' = (if decide (length [1; 2; 3] = 4)
                   then nops Examples.w123 + length [1; 2; 3] + 1
                   else nops Examples.w123 + 1) ∧
        (length [1; 2; 3] < 4 → buffer_of w' 0 = buffer_of Examples.w123 0).
Proof.
  apply (PushBack_spec Examples.Int (PushBack_rvalue Examples.Int)
           Examples.w123 0 [1; 2; 3] 4 4).
  - exact nothrow_Int.
  - right. reflexivity.
  - vm_compute. reflexivity.
Defined.

(** X14. [PopBack] undoes [PushBack]: after appending an element and
    removing the last one the vector holds its old elements again.  The
    capacity is the one the append left, so unchanged when there was
    room, in which case the storage is the same too. *)
Theorem PushBack_PopBack {T} (E : ElemType T) (w : world T) (this : nat)
    (l : list T) (cap : nat) (v : T) :
  nothrow E →
  view w this = Some (l, cap) →
  ∃ w', (PushBack E this v ;; PopBack this) w = (Ret tt, w') ∧
        view w' this = Some (l, if decide (length l = cap) then grown cap else cap) ∧
        (length l < cap → buffer_of w' this = buffer_of w this).
Proof.
  intros HE Hv. apply view_holds in Hv as (p & rest & H & ->).
  destruct (PushBack_cost E w this p l rest v HE H)
    as (w1 & p1 & rest1 & Hrun & H1 & Hcap & _ & Hp).
  destruct (PopBack_run w1 this p1 l v rest1 H1) as (w' & Hrun' & H' & _).
  exists w'. split; [by erewrite bind_Ret|].
  assert (rest = [] ↔ length l = length l + length rest) as Hfull.
  { destruct rest; simpl; split; try done; lia. }
  split.
  - apply (holds_view_cap _ _ p1 _ (None :: rest1) _ H').
    rewrite length_app in Hcap. simpl in *.
    repeat case_decide; try tauto; try lia.
    replace (length l + length rest) with (length l) by lia. lia.
  - intros Hlt. rewrite (Hp ltac:(intros ->; simpl in Hlt; lia)) in H'.
    apply holds_view in H' as [_ ->]. by apply holds_view in H as [_ ->].
Qed.

Lemma PushBack_PopBack_witness :
  ∃ w', (PushBack Examples.Int 0 9 ;; PopBack 0) Examples.w56 = (Ret tt, w') ∧
        view w' 0 = Some ([5; 6], if decide (length [5; 6] = 2) then grown 2 else 2) ∧
        (length [5; 6] < 2 → buffer_of w' 0 = buffer_of Examples.w56 0).
Proof.
  apply (PushBack_PopBack Examples.Int Examples.w56 0 [5; 6] 2 9).
  - exact nothrow_Int.
  - vm_compute. reflexivity.
Defined.

(** ** Reallocation and the old storage *)

(** X15. A [Reserve] that grows the capacity, with [n * sizeof(T)]
    representable in [size_t] and storage that [operator new] provides,
    moves the vector to new storage that was not allocated before, by one
    construction per element, and releases the old storage as a whole: no
    slot of it exists any more, so every pointer, reference and iterator
    into the vector obtained before the call dangles.  No other object
    and no other block changes. *)
Theorem Reserve_moves_storage {T} (E : ElemType T) (P : Platform T) (w : world T)
    (this : nat) (p : ptr) (l : list T) (cap n : nat) :
  nothrow E →
  view w this = Some (l, cap) →
  buffer_of w this = Some p →
  cap < n →
  Exact.representable P n →
  new_succeeds P w (Exact.bytes P n) = true →
  ∃ w' p',
    Exact.Reserve E P this n w = (Ret tt, w') ∧
    view w' this = Some (l, n) ∧
    buffer_of w' this = Some p' ∧ cell w (position p' 0) = None ∧
    (∀ i, cell w' (position p i) = None ∧
          read (position p i) w' = (Undefined, w')) ∧
    (∀ i, i ≠ this → objs w' !! i = objs w !! i) ∧
    (∀ b, Ptr b 0 ≠ p → Ptr b 0 ≠ p' → heap w' !! b = heap w !! b) ∧
    nops w' = nops w + length l.
Proof.
  intros HE Hv Hb Hlt Hr Hnew.
  destruct (view_buffer_holds w this l cap p Hv Hb) as (rest & H & ->).
  destruct (Reserve_grow_heap E w this p l rest n HE H Hlt)
    as (w' & B & Hrun & H' & HB & Ho & Hh & Hold & Hn).
  exists w', (Ptr B 0). split.
  { rewrite <- Hrun. destruct H as [HV _]. by eapply Exact_Reserve_run. }
  split.
  { apply (holds_view_cap _ _ (Ptr B 0) _ _ _ H'). rewrite length_replicate. lia. }
  split; [by apply holds_view in H' as [_ ?]|].
  split; [unfold cell; simpl; by rewrite HB|].
  split.
  { intros i.
    assert (cell w' (position p i) = None) as Hcell.
    { destruct p as [|b off]; [done|].
      unfold cell. simpl. by rewrite (Hold b) by (destruct H as [_ [-> _]]; done). }
    split; [done|]. unfold read. by rewrite Hcell. }
  split; [exact Ho|]. split; [|exact Hn].
  intros b Hbp HbB. apply Hh; [done|congruence].
Qed.

Lemma Reserve_moves_storage_witness :
  ∃ w' p',
    Exact.Reserve Examples.Int Examples.small_heap 0 10 Examples.w123 = (Ret tt, w') ∧
    view w' 0 = Some ([1; 2; 3], 10) ∧
    buffer_of w' 0 = Some p' ∧ cell Examples.w123 (position p' 0) = None ∧
    (∀ i, cell w' (position (Ptr 7 0) i) = None ∧
          read (position (Ptr 7 0) i) w' = (Undefined, w')) ∧
    (∀ i, i ≠ 0 → objs w' !! i = objs Examples.w123 !! i) ∧
    (∀ b, Ptr b 0 ≠ Ptr 7 0 → Ptr b 0 ≠ p' → heap w' !! b = heap Examples.w123 !! b) ∧
    nops w' = nops Examples.w123 + length [1; 2; 3].
Proof.
  apply (Reserve_moves_storage Examples.Int Examples.small_heap Examples.w123 0
           (Ptr 7 0) [1; 2; 3] 4 10).
  - exact nothrow_Int.
  - vm_compute. reflexivity.
  - vm_compute. reflexivity.
  - lia.
  - vm_compute. reflexivity.
  - vm_compute. reflexivity.
Defined.

(** X16. An insertion into a full vector ([size = capacity]), through
    [Emplace], either [Insert] or, at the end, [EmplaceBack], moves the
    vector to new storage and releases the old one: the returned iterator
    points into the new storage, and every iterator obtained before the
    call dangles.  The call runs one construction for the new element and
    one for each old element.  No other object and no other block
    changes. *)
Theorem Emplace_full_moves_storage {T} (E : ElemType T) (ins : M T ptr)
    (w : world T) (this : nat) (p : ptr) (l1 l2 : list T) (a : args T) :
  let pos := position p (length l1) in
  nothrow E →
  view w this = Some (l1 ++ l2, length (l1 ++ l2)) →
  buffer_of w this = Some p →
  ins = Emplace E this pos a ∨
  ins = Insert E this pos (args_value a) ∨
  ins = Insert_rvalue E this pos (args_value a) ∨
  (l2 = [] ∧ ins = EmplaceBack E this a) →
  ∃ w' p',
    ins w = (Ret (position p' (length l1)), w') ∧
    view w' this = Some (l1 ++ args_value a :: l2, grown (length (l1 ++ l2))) ∧
    buffer_of w' this = Some p' ∧ cell w (position p' 0) = None ∧
    (∀ i, cell w' (position p i) = None ∧
          read (position p i) w' = (Undefined, w')) ∧
    (∀ i, i ≠ this → objs w' !! i = objs w !! i) ∧
    (∀ b, Ptr b 0 ≠ p → Ptr b 0 ≠ p' → heap w' !! b = heap w !! b) ∧
    nops w' = nops w + length (l1 ++ l2) + 1.
Proof.
  intros pos HE Hv Hb Hins.
  destruct (view_buffer_holds w this _ _ p Hv Hb) as (rest & H & Hcap).
  assert (rest = []) as -> by (destruct rest; [done|simpl in Hcap; lia]).
  assert (∃ a', args_value a' = args_value a ∧
                ins w = EmplaceShared E this pos a' w) as (a' & Ha & ->).
  { destruct Hins as [->|[->|[->|[-> ->]]]].
    - by exists a.
    - by exists (ByCopy (args_value a)).
    - by exists (ByMove (args_value a)).
    - exists a. split; [done|]. unfold EmplaceBack.
      erewrite bind_Ret; [done|]. rewrite app_nil_r in H.
      by rewrite (end_holds w this p l1 [] H). }
  destruct (EmplaceShared_full_heap E w this p l1 l2 a' HE H)
    as (w' & B & rest' & Hrun & H' & Hcap' & HB & Ho & Hh & Hold & Hn).
  rewrite Ha in H', Hcap'.
  exists w', (Ptr B 0). split; [exact Hrun|].
  split; [by apply (holds_view_cap _ _ (Ptr B 0) _ rest' _ H')|].
  split; [by apply holds_view in H' as [_ ?]|].
  split; [unfold cell; simpl; by rewrite HB|].
  split.
  { intros i.
    assert (cell w' (position p i) = None) as Hcell.
    { destruct p as [|b off]; [done|].
      unfold cell. simpl. by rewrite (Hold b) by (destruct H as [_ [-> _]]; done). }
    split; [done|]. unfold read. by rewrite Hcell. }
  split; [exact Ho|]. split; [|lia].
  intros b Hbp HbB. apply Hh; [done|congruence].
Qed.

Lemma Emplace_full_moves_storage_witness :
  ∃ w' p',
    Insert Examples.Int 0 (position (Ptr 7 0) (length [5])) 9 Examples.w56
      = (Ret (position p' (length [5])), w') ∧
    view w' 0 = Some ([5] ++ 9 :: [6], grown (length ([5] ++ [6]))) ∧
    buffer_of w' 0 = Some p' ∧ cell Examples.w56 (position p' 0) = None ∧
    (∀ i, cell w' (position (Ptr 7 0) i) = None ∧
          read (position (Ptr 7 0) i) w' = (Undefined, w')) ∧
    (∀ i, i ≠ 0 → objs w' !! i = objs Examples.w56 !! i) ∧
    (∀ b, Ptr b 0 ≠ Ptr 7 0 → Ptr b 0 ≠ p' → heap w' !! b = heap Examples.w56 !! b) ∧
    nops w' = nops Examples.w56 + length ([5] ++ [6]) + 1.
Proof.
  apply (Emplace_full_moves_storage Examples.Int
           (Insert Examples.Int 0 (position (Ptr 7 0) (length [5])) 9)
           Examples.w56 0 (Ptr 7 0) [5] [6] (Args 9)).
  - exact nothrow_Int.
  - vm_compute. reflexivity.
  - vm_compute. reflexivity.
  - right. left. reflexivity.
Defined.

(** ** Insertion and erasure without reallocation *)

(** X17. An insertion into a vector with room left ([size < capacity]),
    through [Emplace] or either [Insert], works in place: the storage and
    the capacity are the same afterwards and the returned iterator is the
    position given.  At the end it runs one construction; before [k > 0]
    trailing elements it runs [k + 2] operations: the temporary, the move
    construction of the last element, [k - 1] move assignments and the
    assignment of the temporary. *)
Theorem Emplace_in_place {T} (E : ElemType T) (ins : M T ptr)
    (w : world T) (this : nat) (p : ptr) (l1 l2 : list T) (cap : nat) (a : args T) :
  let pos := position p (length l1) in
  nothrow E →
  view w this = Some (l1 ++ l2, cap) →
  buffer_of w this = Some p →
  length (l1 ++ l2) < cap →
  ins = Emplace E this pos a ∨
  ins = Insert E this pos (args_value a) ∨
  ins = Insert_rvalue E this pos (args_value a) →
  ∃ w', ins w = (Ret pos, w') ∧
        view w' this = Some (l1 ++ args_value a :: l2, cap) ∧
        buffer_of w' this = Some p ∧
        nops w' = nops w + (if decide (l2 = []) then 1 else length l2 + 2).
Proof.
  intros pos HE Hv Hb Hlt Hins.
  destruct (view_buffer_holds w this _ _ p Hv Hb) as (rest & H & ->).
  destruct rest as [|c rest]; [simpl in Hlt; lia|].
  destruct (holds_nonempty_block _ _ _ _ _ H) as [b ->]; [simpl; lia|].
  assert (∃ a', args_value a' = args_value a ∧
                ins w = EmplaceShared E this pos a' w) as (a' & Ha & ->).
  { destruct Hins as [->|[->| ->]].
    - by exists a.
    - by exists (ByCopy (args_value a)).
    - by exists (ByMove (args_value a)). }
  assert (∃ w', EmplaceShared E this pos a' w = (Ret pos, w') ∧
                holds w' this (Ptr b 0) (l1 ++ args_value a' :: l2) rest ∧
                nops w' = nops w + (if decide (l2 = []) then 1 else length l2 + 2))
    as (w' & Hrun & H' & Hn).
  { destruct l2 as [|y xs _] using rev_ind.
    - rewrite app_nil_r in H.
      destruct (EmplaceShared_end E w this b l1 c rest a' HE H) as (w' & Hrun & H' & Hn).
      exists w'. split; [exact Hrun|]. split; [exact H'|]. simpl. lia.
    - destruct (EmplaceShared_middle E w this b l1 xs y c rest a' HE H)
        as (w' & Hrun & H' & Hn).
      exists w'. split; [exact Hrun|]. split; [exact H'|].
      rewrite decide_False by (by destruct xs).
      rewrite length_app. simpl. lia. }
  rewrite Ha in H'.
  exists w'. split; [exact Hrun|]. split; [|split; [|exact Hn]].
  - apply (holds_view_cap _ _ (Ptr b 0) _ rest _ H').
    rewrite !length_app. simpl. lia.
  - by apply holds_view in H' as [_ ?].
Qed.

Lemma Emplace_in_place_witness :
  let pos := position (Ptr 7 0) (length [1]) in
  ∃ w', Emplace Examples.Int 0 pos (Args 9) Examples.w123 = (Ret pos, w') ∧
        view w' 0 = Some ([1] ++ args_value (Args 9) :: [2; 3], 4) ∧
        buffer_of w' 0 = Some (Ptr 7 0) ∧
        nops w' = nops Examples.w123
                  + (if decide ([2; 3] = []) then 1 else length [2; 3] + 2).
Proof.
  apply (Emplace_in_place Examples.Int
           (Emplace Examples.Int 0 (position (Ptr 7 0) (length [1])) (Args 9))
           Examples.w123 0 (Ptr 7 0) [1] [2; 3] 4 (Args 9)).
  - exact nothrow_Int.
  - vm_compute. reflexivity.
  - vm_compute. reflexivity.
  - simpl. lia.
  - left. reflexivity.
Defined.

(** X18. [Erase] at the last position removes the last element, for
    every element type: it returns that position, which is the new
    [end()], leaves the elements before it as they were, keeps the
    storage and the capacity, destroys the slot, and calls no
    constructor and no assignment. *)
Theorem Erase_last_spec {T} (E : ElemType T) (w : world T) (this : nat)
    (p : ptr) (l : list T) (x : T) (cap : nat) :
  view w this = Some (l ++ [x], cap) →
  buffer_of w this = Some p →
  ∃ w', Erase E this (position p (length l)) w
          = (Ret (position p (length l)), w') ∧
        view w' this = Some (l, cap) ∧
        buffer_of w' this = Some p ∧
        end_ this w' = (Ret (position p (length l)), w') ∧
        cell w' (position p (length l)) = Some None ∧
        nops w' = nops w.
Proof.
  intros Hv Hb.
  destruct (view_buffer_holds w this _ _ p Hv Hb) as (rest & H & ->).
  destruct (holds_nonempty_block _ _ _ _ _ H) as [b ->].
  { rewrite length_app. simpl. lia. }
  destruct (Erase_last E w this b l x rest H) as (w' & Hrun & H' & Hn).
  exists w'. split; [exact Hrun|].
  split.
  { apply (holds_view_cap _ _ (Ptr b 0) _ _ _ H'). rewrite length_app. simpl. lia. }
  split; [by apply holds_view in H' as [_ ?]|].
  split; [by eapply end_holds|]. split; [|exact Hn].
  destruct H' as [_ (_ & _ & Hh)]. unfold cell. simpl. rewrite Hh. simpl.
  rewrite lookup_app_r by (by rewrite length_fmap).
  by rewrite length_fmap, Nat.sub_diag.
Qed.

Lemma Erase_last_spec_witness :
  ∃ w', Erase Examples.Int 0 (position (Ptr 7 0) (length [1; 2])) Examples.w123
          = (Ret (position (Ptr 7 0) (length [1; 2])), w') ∧
        view w' 0 = Some ([1; 2], 4) ∧
        buffer_of w' 0 = Some (Ptr 7 0) ∧
        end_ 0 w' = (Ret (position (Ptr 7 0) (length [1; 2])), w') ∧
        cell w' (position (Ptr 7 0) (length [1; 2])) = Some None ∧
        nops w' = nops Examples.w123.
Proof.
  apply (Erase_last_spec Examples.Int Examples.w123 0 (Ptr 7 0) [1; 2] 3 4).
  - vm_compute. reflexivity.
  - vm_compute. reflexivity.
Defined.

(** X19. [Erase] undoes an [Insert] at the end: inserting a value at
    [end()] and erasing at the iterator [Insert] returned gives back the
    old elements in their order, and [Erase] returns that same iterator.
    The capacity is the one the insertion left. *)
Theorem Insert_Erase_at_end {T} (E : ElemType T) (w : world T) (this : nat)
    (p : ptr) (l : list T) (cap : nat) (v : T) :
  nothrow E →
  view w this = Some (l, cap) →
  buffer_of w this = Some p →
  ∃ r w1 w',
    Insert E this (position p (length l)) v w = (Ret r, w1) ∧
    view w1 this
    = Some (l ++ [v], if decide (length l = cap) then grown cap else cap) ∧
    Erase E this r w1 = (Ret r, w') ∧
    view w' this
    = Some (l, if decide (length l = cap) then grown cap else cap).
Proof.
  intros HE Hv Hb.
  destruct (view_buffer_holds w this _ _ p Hv Hb) as (rest & H & ->).
  rewrite <- (app_nil_r l) in H.
  destruct (EmplaceShared_run E w this p l [] rest (ByCopy v) HE H)
    as (w1 & p1 & rest1 & Hrun & H1 & Hfull & Hroom).
  simpl in H1, Hfull.
  destruct (holds_nonempty_block _ _ _ _ _ H1) as [b1 ->].
  { rewrite length_app. simpl. lia. }
  destruct (Erase_last E w1 this b1 l v rest1 H1) as (w' & Hrun' & H' & _).
  assert (length (l ++ [v]) + length rest1
          = if decide (length l = length l + length rest)
            then grown (length l + length rest) else length l + length rest) as Hcap.
  { rewrite !length_app in *. simpl in *.
    destruct rest as [|c rest].
    - rewrite decide_True by (simpl; lia). by apply Hfull.
    - rewrite decide_False by (simpl; lia).
      destruct Hroom as [_ Hr]; [done|]. simpl in *. lia. }
  exists (Ptr b1 (length l)), w1, w'.
  split; [exact Hrun|]. split; [|split; [exact Hrun'|]].
  - by apply (holds_view_cap _ _ (Ptr b1 0) _ _ _ H1).
  - apply (holds_view_cap _ _ (Ptr b1 0) _ _ _ H').
    rewrite <- Hcap. rewrite length_app. simpl. lia.
Qed.

Lemma Insert_Erase_at_end_witness :
  ∃ r w1 w',
    Insert Examples.Int 0 (position (Ptr 7 0) (length [1; 2; 3])) 9 Examples.w123
    = (Ret r, w1) ∧
    view w1 0
    = Some ([1; 2; 3] ++ [9], if decide (length [1; 2; 3] = 4) then grown 4 else 4) ∧
    Erase Examples.Int 0 r w1 = (Ret r, w') ∧
    view w' 0
    = Some ([1; 2; 3], if decide (length [1; 2; 3] = 4) then grown 4 else 4).
Proof.
  apply (Insert_Erase_at_end Examples.Int Examples.w123 0 (Ptr 7 0) [1; 2; 3] 4 9).
  - exact nothrow_Int.
  - vm_compute. reflexivity.
  - vm_compute. reflexivity.
Defined.

(** ** Appending: exceptions, cost and reserved room *)

(** X20. Appending gives the strong guarantee in both branches, for
    every element type that is copy-constructible or
    nothrow-move-constructible: when [PushBack] (either overload) or
    [EmplaceBack] throws, the objects and the heap are what they were
    before the call, for every state of the vector. *)
Theorem append_strong_guarantee {T} (E : ElemType T) (w w' : world T)
    (this : nat) (v : T) (a : args T) :
  relocation_safe E →
  PushBack E this v w = (Throw, w') ∨
  PushBack_rvalue E this v w = (Throw, w') ∨
  EmplaceBack E this a w = (Throw, w') →
  objs w' = objs w ∧ heap w' = heap w ∧ view w' this = view w this.
Proof.
  intros HT Hr.
  assert (∃ a', EmplaceBack E this a' w = (Throw, w')) as [a' Ha'].
  { destruct Hr as [Hr|[Hr|Hr]].
    - exists (ByCopy v). rewrite PushBack_EmplaceBack in Hr.
      revert Hr. unfold bind, ret.
      destruct (EmplaceBack _ _ _ _) as [[?| | |] ?]; intros [= <-]; done.
    - exists (ByMove v). rewrite PushBack_rvalue_EmplaceBack in Hr.
      revert Hr. unfold bind, ret.
      destruct (EmplaceBack _ _ _ _) as [[?| | |] ?]; intros [= <-]; done.
    - by exists a. }
  destruct (EmplaceBack_strong E w this a' w' HT Ha') as [Ho Hh].
  split; [done|]. split; [done|]. by apply view_ext.
Qed.

Lemma append_strong_guarantee_witness :
  ∃ w', PushBack Examples.Throwing 0 9 Examples.w56 = (Throw, w') ∧
        objs w' = objs Examples.w56 ∧ heap w' = heap Examples.w56 ∧
        view w' 0 = view Examples.w56 0.
Proof.
  exists (World (objs Examples.w56) (heap Examples.w56) 2).
  split; [vm_compute; reflexivity|].
  apply (append_strong_guarantee Examples.Throwing Examples.w56 _ 0 9 (Args 9)).
  - right. reflexivity.
  - left. vm_compute. reflexivity.
Defined.

Lemma capacity_after_bound n : n ≠ 0 → capacity_after n < 2 * n.
Proof.
  intros Hn. unfold capacity_after. rewrite decide_False by done.
  destruct (decide (n = 1)) as [->|Hn1]; [simpl; lia|].
  pose proof (Nat.log2_up_spec n ltac:(lia)) as [Hlo _].
  set (k := Nat.log2_up n) in *.
  destruct k as [|k]; [simpl in *; lia|].
  simpl in Hlo. rewrite Nat.pow_succ_r'. lia.
Qed.

Lemma push_all_cost {T} (E : ElemType T) (w : world T) this p l rest vs :
  nothrow E → holds w this p l rest →
  length l + length rest = capacity_after (length l) →
  ∃ w' p' rest',
    push_all E this vs w = (Ret tt, w') ∧
    holds w' this p' (l ++ vs) rest' ∧
    length (l ++ vs) + length rest' = capacity_after (length (l ++ vs)) ∧
    nops w' + (capacity_after (length l) - 1)
    = nops w + length vs + (capacity_after (length (l ++ vs)) - 1).
Proof.
  intros HE. revert w p l rest.
  induction vs as [|v vs IH]; intros w p l rest H Hcap.
  - exists w, p, rest. rewrite app_nil_r.
    split; [done|]. split; [done|]. split; [done|]. simpl. lia.
  - destruct (PushBack_cost E w this p l rest v HE H)
      as (w1 & p1 & rest1 & Hrun & H1 & Hcap1 & Hn1 & _).
    assert (rest = [] ↔ length l = capacity_after (length l)) as Hfull.
    { rewrite <- Hcap. destruct rest; simpl; split; try done; lia. }
    assert (length (l ++ [v]) = S (length l)) as Hlen
      by (rewrite length_app; simpl; lia).
    assert (capacity_after (S (length l))
            = if decide (rest = []) then grown (length l) else capacity_after (length l))
      as Hsucc.
    { rewrite capacity_after_succ. repeat case_decide; try done; tauto. }
    destruct (IH w1 p1 (l ++ [v]) rest1 H1) as (w' & p' & rest' & Hrun' & H' & Hcap' & Hn').
    { rewrite Hcap1, Hlen, Hsucc. case_decide; [done|]. by rewrite Hcap. }
    rewrite <- app_assoc in H', Hcap', Hn'. simpl in H', Hcap', Hn'.
    exists w', p', rest'. split; [simpl; by erewrite bind_Ret|].
    split; [done|]. split; [done|].
    rewrite Hlen, Hsucc in Hn'. rewrite Hn1 in Hn'. simpl.
    case_decide as Hd.
    + apply Hfull in Hd. unfold grown in Hn'. case_decide; lia.
    + lia.
Qed.

(** X21. Appending is amortised constant: [n] calls of [PushBack] on a
    new empty vector run [n] constructions of new elements and, over all
    reallocations together, [capacity_after n - 1] relocations of old
    ones, which is fewer than [2 n]; so fewer than three element
    operations per append on average. *)
Theorem PushBack_amortised {T} (E : ElemType T) (w : world T) (this : nat)
    (vs : list T) :
  nothrow E →
  ∃ w', (Vector_default this ;; push_all E this vs) w = (Ret tt, w') ∧
        view w' this = Some (vs, capacity_after (length vs)) ∧
        nops w' = nops w + length vs + (capacity_after (length vs) - 1) ∧
        nops w' ≤ nops w + 3 * length vs.
Proof.
  intros HE. destruct w as [o h n].
  erewrite bind_Ret; [|done].
  destruct (push_all_cost E (World (<[this := empty_Vector]> o) h n)
              this nullptr [] [] vs HE) as (w' & p' & rest' & Hrun & H' & Hcap & Hn).
  { split; simpl; [by rewrite lookup_insert_eq|done]. }
  { done. }
  simpl in *. exists w'. split; [done|].
  split; [by apply (holds_view_cap _ _ p' _ rest' _ H')|].
  split; [lia|].
  destruct (decide (length vs = 0)) as [Hz|Hnz].
  - rewrite Hz in *. change (capacity_after 0) with 0 in Hn. lia.
  - pose proof (capacity_after_bound (length vs) Hnz). lia.
Qed.

Lemma PushBack_amortised_witness :
  ∃ w', (Vector_default 0 ;; push_all Examples.Int 0 [1; 2; 3; 4; 5]) (World ∅ ∅ 0)
        = (Ret tt, w') ∧
        view w' 0 = Some ([1; 2; 3; 4; 5], capacity_after (length [1; 2; 3; 4; 5])) ∧
        nops w' = nops (World (T := nat) ∅ ∅ 0) + length [1; 2; 3; 4; 5]
                  + (capacity_after (length [1; 2; 3; 4; 5]) - 1) ∧
        nops w' ≤ nops (World (T := nat) ∅ ∅ 0) + 3 * length [1; 2; 3; 4; 5].
Proof.
  apply (PushBack_amortised Examples.Int (World ∅ ∅ 0) 0 [1; 2; 3; 4; 5] nothrow_Int).
Defined.

(** X22. [Reserve] makes room that appends then use without
    reallocating: after a [Reserve(n)] that needs no new storage, or one
    with [n * sizeof(T)] representable in [size_t] and storage that
    [operator new] provides, appending elements up to a total size of [n]
    keeps the storage where [Reserve] left it, so iterators stay valid,
    keeps the capacity, and costs exactly one construction per element. *)
Theorem Reserve_then_PushBack {T} (E : ElemType T) (P : Platform T) (w : world T)
    (this : nat) (l : list T) (cap n : nat) (vs : list T) :
  nothrow E →
  view w this = Some (l, cap) →
  length l + length vs ≤ n →
  n ≤ cap ∨
  (Exact.representable P n ∧ new_succeeds P w (Exact.bytes P n) = true) →
  ∃ w1 w',
    Exact.Reserve E P this n w = (Ret tt, w1) ∧
    push_all E this vs w1 = (Ret tt, w') ∧
    view w' this = Some (l ++ vs, cap `max` n) ∧
    buffer_of w' this = buffer_of w1 this ∧
    nops w' = nops w1 + length vs.
Proof.
  intros HE Hv Hlen Hok. apply view_holds in Hv as (p & rest & H & ->).
  assert (∃ w1 p1 rest1,
            Exact.Reserve E P this n w = (Ret tt, w1) ∧ holds w1 this p1 l rest1 ∧
            length l + length rest1 = (length l + length rest) `max` n)
    as (w1 & p1 & rest1 & HR & H1 & Hcap).
  { pose proof H as [HV _].
    erewrite Exact_Reserve_run; [|exact HV|]; cycle 1.
    { simpl. intros Hlt. destruct Hok as [Hle|Hok]; [lia|done]. }
    destruct (decide (n ≤ length l + length rest)) as [Hle|Hgt].
    - exists w, p, rest. split; [by eapply Reserve_noop|]. split; [done|lia].
    - destruct (Reserve_grow E w this p l rest n HE H) as (w1 & B & HR & H1 & _); [lia|].
      exists w1, (Ptr B 0), (replicate (n - length l) None).
      split; [exact HR|]. split; [exact H1|]. rewrite length_replicate. lia. }
  destruct (push_all_room E w1 this p1 l vs rest1 HE H1) as (w' & Hrun & H' & Hn); [lia|].
  exists w1, w'. split; [exact HR|]. split; [exact Hrun|].
  split; [|split; [|exact Hn]].
  - apply (holds_view_cap _ _ p1 _ _ _ H').
    rewrite length_app, length_drop. lia.
  - apply holds_view in H' as [_ ->]. by apply holds_view in H1 as [_ ->].
Qed.

Lemma Reserve_then_PushBack_witness :
  ∃ w1 w',
    Exact.Reserve Examples.Int Examples.small_heap 0 6 Examples.w56 = (Ret tt, w1) ∧
    push_all Examples.Int 0 [7; 8; 9] w1 = (Ret tt, w') ∧
    view w' 0 = Some ([5; 6] ++ [7; 8; 9], 2 `max` 6) ∧
    buffer_of w' 0 = buffer_of w1 0 ∧
    nops w' = nops w1 + length [7; 8; 9].
Proof.
  apply (Reserve_then_PushBack Examples.Int Examples.small_heap Examples.w56 0
           [5; 6] 2 6 [7; 8; 9]).
  - exact nothrow_Int.
  - vm_compute. reflexivity.
  - simpl. lia.
  - right. split; vm_compute; reflexivity.
Defined.

(** ** Moved-from vectors and the storage of the destination *)

(** X23. A vector that was moved from can be destroyed: after moving
    [rhs] into [this], by the move constructor or by move assignment,
    the destructor of [rhs] returns normally and releases nothing;
    [this] still holds the elements [rhs] held, in the same storage. *)
Theorem moved_from_is_destructible {T} (w : world T) (this rhs : nat)
    (l : list T) (cap : nat) (move : nat → nat → M T unit) :
  this ≠ rhs →
  view w rhs = Some (l, cap) →
  move = Vector_move ∨ (move = move_assign ∧ is_Some (objs w !! this)) →
  ∃ w', (move this rhs ;; Vector_dtor rhs) w = (Ret tt, w') ∧
        view w' this = Some (l, cap) ∧
        buffer_of w' this = buffer_of w rhs ∧
        objs w' !! rhs = None ∧
        heap w' = heap w ∧ nops w' = nops w.
Proof.
  intros Hne Hv Hmove. destruct w as [o h n]. simpl in Hmove.
  assert (∃ Vr, o !! rhs = Some Vr) as [Vr Hr].
  { unfold view in Hv. simpl in Hv. destruct (o !! rhs); [by eexists|done]. }
  exists (World (delete rhs (<[rhs := empty_Vector]> (<[this := Vr]> o))) h n).
  split.
  { erewrite bind_Ret; cycle 1.
    { destruct Hmove as [-> | [-> [Vt Ht]]].
      - by apply Vector_move_distinct.
      - by eapply move_assign_distinct. }
    apply Vector_dtor_null. by rewrite lookup_insert_eq. }
  simpl. split; [|split; [|split; [by rewrite lookup_delete_eq|done]]].
  - rewrite <- Hv. unfold view. simpl.
    by rewrite lookup_delete_ne, lookup_insert_ne, lookup_insert_eq, Hr.
  - unfold buffer_of. simpl.
    by rewrite lookup_delete_ne, lookup_insert_ne, lookup_insert_eq, Hr.
Qed.

Lemma moved_from_is_destructible_witness :
  ∃ w', (move_assign 0 1 ;; Vector_dtor 1) Examples.w_two = (Ret tt, w') ∧
        view w' 0 = Some ([8; 9], 2) ∧
        buffer_of w' 0 = buffer_of Examples.w_two 1 ∧
        objs w' !! 1 = None ∧
        heap w' = heap Examples.w_two ∧ nops w' = nops Examples.w_two.
Proof.
  apply (moved_from_is_destructible Examples.w_two 0 1 [8; 9] 2 move_assign).
  - lia.
  - vm_compute. reflexivity.
  - right. split; [reflexivity|]. exists {| data_ := {| buffer_ := Ptr 7 0; capacity_ := 4 |};
                                              size_ := 3 |}.
    vm_compute. reflexivity.
Defined.

(** X24. Move assignment does not release what the destination held:
    when [this] owns storage that no other vector refers to, then after
    [this = std::move(rhs)] that storage is still allocated, its
    elements are still constructed (no destructor ran), and no vector
    refers to it any more, so it can never be released. *)
Theorem move_assign_leaks {T} (w : world T) (this rhs : nat) (p : ptr)
    (l : list T) (cap : nat) :
  this ≠ rhs →
  view w this = Some (l, cap) → 0 < cap →
  buffer_of w this = Some p →
  is_Some (objs w !! rhs) →
  (∀ i q, i ≠ this → buffer_of w i = Some q → separate p q) →
  ∃ w', move_assign this rhs w = (Ret tt, w') ∧
        p ≠ nullptr ∧
        (∀ i x, l !! i = Some x → cell w' (position p i) = Some (Some x)) ∧
        (∀ i q, buffer_of w' i = Some q → separate p q).
Proof.
  intros Hne Hv Hcap Hb [Vr Hr] Honly.
  destruct (view_buffer_holds w this l cap p Hv Hb) as (rest & H & ->).
  destruct (holds_nonempty_block _ _ _ _ _ H Hcap) as [b ->].
  destruct w as [o h n]. pose proof H as [HV (_ & _ & Hh)]. simpl in HV, Hh, Hr.
  eexists. split; [by eapply move_assign_distinct|].
  split; [done|]. split.
  - intros i x Hx. unfold cell. simpl. rewrite Hh. simpl.
    rewrite lookup_app_l by (rewrite length_fmap; by eapply lookup_lt_Some).
    by rewrite list_lookup_fmap, Hx.
  - intros i q. unfold buffer_of. simpl.
    destruct (decide (i = rhs)) as [->|Hir].
    { rewrite lookup_insert_eq. simpl. by intros [= <-]. }
    rewrite lookup_insert_ne by done.
    destruct (decide (i = this)) as [->|Hit].
    + rewrite lookup_insert_eq. simpl. intros [= <-].
      apply (Honly rhs); [done|]. unfold buffer_of. simpl. by rewrite Hr.
    + rewrite lookup_insert_ne by done. intros Hq.
      by apply (Honly i).
Qed.

Lemma move_assign_leaks_witness :
  ∃ w', move_assign 0 1 Examples.w_two = (Ret tt, w') ∧
        Ptr 7 0 ≠ nullptr ∧
        (∀ i x, [1; 2; 3] !! i = Some x →
                cell w' (position (Ptr 7 0) i) = Some (Some x)) ∧
        (∀ i q, buffer_of w' i = Some q → separate (Ptr 7 0) q).
Proof.
  apply (move_assign_leaks Examples.w_two 0 1 (Ptr 7 0) [1; 2; 3] 4).
  - lia.
  - vm_compute. reflexivity.
  - lia.
  - vm_compute. reflexivity.
  - exists {| data_ := {| buffer_ := Ptr 8 0; capacity_ := 2 |}; size_ := 2 |}.
    vm_compute. reflexivity.
  - intros i q Hi. unfold buffer_of, Examples.w_two. cbn [objs].
    rewrite lookup_insert_ne by done.
    destruct (decide (i = 1)) as [->|Hi1].
    + rewrite lookup_singleton_eq. simpl. intros [= <-]. simpl. lia.
    + rewrite lookup_singleton_ne by done. done.
Defined.

(** ** Exceptions in general *)

(** X25. Whatever throws, for every element type, every state and every
    position: when an exception leaves [Reserve], [Emplace], [Insert],
    [EmplaceBack] or [PushBack], the vector object is unchanged, so its
    size, capacity and buffer are what they were, and the set of
    allocated blocks is what it was: the block allocated for the
    reallocation has been released and no other block has. *)
Theorem exception_keeps_object {T} (E : ElemType T) (w w' : world T)
    (this n : nat) (pos : ptr) (a : args T) :
  Reserve E this n w = (Throw, w') ∨
  Emplace E this pos a w = (Throw, w') ∨
  Insert E this pos (args_value a) w = (Throw, w') ∨
  Insert_rvalue E this pos (args_value a) w = (Throw, w') ∨
  EmplaceBack E this a w = (Throw, w') ∨
  PushBack E this (args_value a) w = (Throw, w') ∨
  PushBack_rvalue E this (args_value a) w = (Throw, w') →
  objs w' = objs w ∧ dom (heap w') = dom (heap w).
Proof.
  assert (∀ a', throw_steady (EmplaceBack E this a')) as Hback.
  { intros a'. apply throw_steady_bind; [apply quiet_steady, quiet_end|].
    intros e. apply EmplaceShared_throw_steady. }
  intros [Hr|[Hr|[Hr|[Hr|[Hr|[Hr|Hr]]]]]].
  - by apply (Reserve_throw_steady E this n).
  - by apply (EmplaceShared_throw_steady E this pos a).
  - by apply (EmplaceShared_throw_steady E this pos (ByCopy (args_value a))).
  - by apply (EmplaceShared_throw_steady E this pos (ByMove (args_value a))).
  - by apply (Hback a).
  - rewrite PushBack_EmplaceBack in Hr. revert Hr.
    apply throw_steady_first; [apply Hback|]. intros. apply no_throw_ret.
  - rewrite PushBack_rvalue_EmplaceBack in Hr. revert Hr.
    apply throw_steady_first; [apply Hback|]. intros. apply no_throw_ret.
Qed.

Lemma exception_keeps_object_witness :
  ∃ w', Reserve Examples.MoveOnly 0 4 Examples.w56 = (Throw, w') ∧
        view w' 0 = Some ([0; 6], 2) ∧
        objs w' = objs Examples.w56 ∧ dom (heap w') = dom (heap Examples.w56).
Proof.
  exists (World (objs Examples.w56) {[ 7 := [Some 0; Some 6] ]} 2).
  split; [vm_compute; reflexivity|]. split; [vm_compute; reflexivity|].
  apply (exception_keeps_object Examples.MoveOnly Examples.w56 _ 0 4 nullptr (Args 0)).
  left. vm_compute. reflexivity.
Defined.

(** ** A position that holds no element *)

(** X27. [Erase] needs a position that holds an element: erasing at
    [end()] of any vector, empty or not, is undefined behaviour (the
    range [pos + 1, end()) that [std::move] is given is not a range). *)
Theorem Erase_at_end {T} (E : ElemType T) (w : world T) (this : nat)
    (p : ptr) (l : list T) (cap : nat) :
  view w this = Some (l, cap) →
  buffer_of w this = Some p →
  end_ this w = (Ret (position p (length l)), w) ∧
  ∃ w', Erase E this (position p (length l)) w = (Undefined, w').
Proof.
  intros Hv Hb.
  destruct (view_buffer_holds w this _ _ p Hv Hb) as (rest & H & ->).
  split; [by eapply end_holds|]. by eapply Erase_end.
Qed.

Lemma Erase_at_end_witness :
  end_ 0 Examples.w123 = (Ret (position (Ptr 7 0) (length [1; 2; 3])), Examples.w123) ∧
  ∃ w', Erase Examples.Int 0 (position (Ptr 7 0) (length [1; 2; 3])) Examples.w123
        = (Undefined, w').
Proof.
  apply (Erase_at_end Examples.Int Examples.w123 0 (Ptr 7 0) [1; 2; 3] 4).
  - vm_compute. reflexivity.
  - vm_compute. reflexivity.
Defined.

(** ** Resize and exceptions *)

(** X28. [Resize] within the capacity gives the strong guarantee for
    every element type: when a value-initialisation throws, the elements
    built by the call are destroyed again and the exception goes on with
    the vector as it was, holding the same elements in the same storage
    with the same size and capacity; no other block is touched. *)
Theorem Resize_strong_within_capacity {T} (E : ElemType T) (w w' : world T)
    (this : nat) (l : list T) (cap n : nat) :
  view w this = Some (l, cap) →
  n ≤ cap →
  Resize E this n w = (Throw, w') →
  objs w' = objs w ∧ view w' this = Some (l, cap) ∧
  ∀ b, buffer_of w this ≠ Some (Ptr b 0) → heap w' !! b = heap w !! b.
Proof.
  intros Hv Hn Hr. apply view_holds in Hv as (p & rest & H & ->).
  destruct (Resize_room_strong E w this p l rest n w' H Hn Hr)
    as (Ho & Hfr & rest' & H' & Hlen).
  split; [done|]. split.
  - apply (holds_view_cap _ _ p _ rest' _ H'). lia.
  - intros b Hb. apply Hfr. intros Hp. apply Hb.
    apply holds_view in H as [_ ->]. by rewrite Hp.
Qed.

Lemma Resize_strong_within_capacity_witness :
  ∃ w', Resize Examples.Throwing 0 4
          (Examples.vector_at 0 7 [Some 1; None; None; None] 1) = (Throw, w') ∧
        objs w' = objs (Examples.vector_at 0 7 [Some 1; None; None; None] 1) ∧
        view w' 0 = Some ([1], 4) ∧
        ∀ b, buffer_of (Examples.vector_at 0 7 [Some 1; None; None; None] 1) 0
             ≠ Some (Ptr b 0) →
             heap w' !! b
             = heap (Examples.vector_at 0 7 [Some 1; None; None; None] 1) !! b.
Proof.
  exists (World (objs (Examples.vector_at 0 7 [Some 1; None; None; None] 1))
                (heap (Examples.vector_at 0 7 [Some 1; None; None; None] 1)) 2).
  split; [vm_compute; reflexivity|].
  apply (Resize_strong_within_capacity Examples.Throwing
           (Examples.vector_at 0 7 [Some 1; None; None; None] 1) _ 0 [1] 4 4).
  - vm_compute. reflexivity.
  - lia.
  - vm_compute. reflexivity.
Defined.

(** ** A count whose size in bytes does not fit [size_t] *)

(** X26. [Reserve(n)] does not check that [n * sizeof(T)] fits
    [size_t].  With [n] above the capacity and a product that wraps
    around, [operator new] is asked for the wrapped number of bytes; when
    the block it returns has room for fewer objects than the vector
    holds, the relocation constructs past the end of the block: undefined
    behaviour.  On a 64-bit target with 4-byte elements this is
    [Reserve(2^62 + 1)] on a vector of three elements: [operator new(4)]. *)
Theorem Reserve_wraps {T} (E : ElemType T) (P : Platform T) (w : world T)
    (this : nat) (l : list T) (cap n : nat) :
  nothrow E →
  view w this = Some (l, cap) →
  cap < n →
  new_succeeds P w (Exact.bytes P n) = true →
  (Exact.bytes P n / N.pos (sizeof P) < N.of_nat (length l))%N →
  ∃ w', Exact.Reserve E P this n w = (Undefined, w').
Proof.
  intros HE Hv Hlt Hnew Hk. apply view_holds in Hv as (p & rest & H & ->).
  apply (Exact_Reserve_overrun E P w this p l rest n); try done. lia.
Qed.

Lemma Reserve_wraps_witness :
  ∃ w', Exact.Reserve Examples.Int Examples.small_heap 0 (2 ^ 62 + 1) Examples.w123
        = (Undefined, w').
Proof.
  assert (Exact.bytes Examples.small_heap (2 ^ 62 + 1) = 4%N) as Hbytes.
  { unfold Exact.bytes. rewrite Nat2N.inj_add, Nat2N.inj_pow. reflexivity. }
  apply (Reserve_wraps Examples.Int Examples.small_heap Examples.w123 0 [1; 2; 3] 4
           (2 ^ 62 + 1)).
  - exact nothrow_Int.
  - vm_compute. reflexivity.
  - pose proof (Nat.pow_gt_lin_r 2 62). lia.
  - rewrite Hbytes. reflexivity.
  - rewrite Hbytes. reflexivity.
Defined.

(** X29. [Vector(size)] does not check that [size * sizeof(T)] fits
    [size_t] either.  When the product wraps around and [operator new]
    provides the wrapped number of bytes, the block has room for fewer
    than [size] objects and the constructor value-initialises past its
    end: undefined behaviour, for every such [size]. *)
Theorem Vector_sized_wraps {T} (E : ElemType T) (P : Platform T) (w : world T)
    (this n : nat) :
  nothrow E →
  ¬ Exact.representable P n →
  new_succeeds P w (Exact.bytes P n) = true →
  ∃ w', Exact.Vector_sized E P this n w = (Undefined, w').
Proof. intros HE Hr Hnew. by apply Exact_Vector_sized_overrun. Qed.

Lemma Vector_sized_wraps_witness :
  ∃ w', Exact.Vector_sized Examples.Int Examples.small_heap 5 (2 ^ 62 + 1) Examples.w123
        = (Undefined, w').
Proof.
  assert (Exact.bytes Examples.small_heap (2 ^ 62 + 1) = 4%N) as Hbytes.
  { unfold Exact.bytes. rewrite Nat2N.inj_add, Nat2N.inj_pow. reflexivity. }
  apply (Vector_sized_wraps Examples.Int Examples.small_heap Examples.w123 5
           (2 ^ 62 + 1)).
  - exact nothrow_Int.
  - unfold Exact.representable. rewrite Nat2N.inj_add, Nat2N.inj_pow.
    vm_compute. discriminate.
  - rewrite Hbytes. reflexivity.
Defined.

(** X30. [Resize(n)] with [n] above the capacity and a product
    [n * sizeof(T)] that wraps around in [size_t] is undefined behaviour
    whenever [operator new] provides the wrapped number of bytes: either
    [Reserve] relocates past the end of the new block, or it returns with
    [capacity_] set to [n] over a block of fewer slots and the new
    elements are value-initialised past its end. *)
Theorem Resize_wraps {T} (E : ElemType T) (P : Platform T) (w : world T)
    (this : nat) (l : list T) (cap n : nat) :
  nothrow E →
  view w this = Some (l, cap) →
  cap < n →
  ¬ Exact.representable P n →
  new_succeeds P w (Exact.bytes P n) = true →
  ∃ w', Exact.Resize E P this n w = (Undefined, w').
Proof.
  intros HE Hv Hlt Hr Hnew. apply view_holds in Hv as (p & rest & H & ->).
  by apply (Exact_Resize_overrun E P w this p l rest n).
Qed.

Lemma Resize_wraps_witness :
  ∃ w', Exact.Resize Examples.Int Examples.small_heap 0 (2 ^ 62 + 1) Examples.w123
        = (Undefined, w').
Proof.
  assert (Exact.bytes Examples.small_heap (2 ^ 62 + 1) = 4%N) as Hbytes.
  { unfold Exact.bytes. rewrite Nat2N.inj_add, Nat2N.inj_pow. reflexivity. }
  apply (Resize_wraps Examples.Int Examples.small_heap Examples.w123 0 [1; 2; 3] 4
           (2 ^ 62 + 1)).
  - exact nothrow_Int.
  - vm_compute. reflexivity.
  - pose proof (Nat.pow_gt_lin_r 2 62). lia.
  - unfold Exact.representable. rewrite Nat2N.inj_add, Nat2N.inj_pow.
    vm_compute. discriminate.
  - rewrite Hbytes. reflexivity.
Defined.
